(** * image-compressor: a shallow embedding of [main.go]

    The development follows the source file top-down: machine integers,
    the work partition computed in [main], the per-worker loop
    [compressImages], the transform [compressImage], and the lock-guarded
    aggregate state shared by the workers. *)

From Stdlib Require Import ZArith Lia QArith Qpower Qround Qabs Lqa Ascii String.
From Stdlib.Strings Require Import Byte.
From stdpp Require Import base list strings.

Local Open Scope Z_scope.

(** ** Results of running Go code

    A Go function either returns, stops the program with a run-time panic
    (division by zero, slice bounds out of range, [make] with a negative
    length), or is still running when the fuel of the model is used up. *)

Inductive run (A : Type) : Type :=
| Ret (a : A)
| Panic
| Timeout.
Arguments Ret {A} a.
Arguments Panic {A}.
Arguments Timeout {A}.

#[global] Instance run_ret : MRet run := fun A a => Ret a.
#[global] Instance run_bind : MBind run := fun A B f m =>
  match m with
  | Ret a => f a
  | Panic => Panic
  | Timeout => Timeout
  end.

(** ** Machine integers

    Go's [int] and [int64] are 64-bit two's complement integers on the
    platforms the tool is built for; arithmetic wraps around silently. *)

Module Int.

Definition max_int : Z := 2 ^ 63 - 1.
Definition min_int : Z := - 2 ^ 63.

Definition wrap (z : Z) : Z := (z + 2 ^ 63) mod 2 ^ 64 - 2 ^ 63.

Definition add (a b : Z) : Z := wrap (a + b).
Definition sub (a b : Z) : Z := wrap (a - b).
Definition mul (a b : Z) : Z := wrap (a * b).

(** [a / b] truncates toward zero and panics on a zero divisor. *)
Definition quo (a b : Z) : run Z :=
  if b =? 0 then Panic else Ret (wrap (Z.quot a b)).

Definition in_range (z : Z) : Prop := min_int <= z <= max_int.

End Int.

(** ** Double-precision floating point

    [compressImage] computes the new dimensions in [float64].  A finite
    float is modelled by the rational it denotes; every operation is the
    exact operation followed by rounding to the nearest float with a
    53-bit significand, ties to even.  Infinities, NaN and results
    below the normal range are lumped together as [F64_exceptional]. *)

Module Float64.

Inductive float64 : Type :=
| F64 (q : Q)
| F64_exceptional.

Definition pow2 (e : Z) : Q := Qpower 2 e.

(** For [x > 0], the exponent [e] with [2^e <= x < 2^(e+1)]. *)
Definition binade (x : Q) : Z :=
  let d := Z.log2 (Qnum x) - Z.log2 (Zpos (Qden x)) in
  if Qle_bool (pow2 d) x then d else d - 1.

Definition round_half_even (y : Q) : Z :=
  let n := Qfloor y in
  match Qcompare (y - inject_Z n) (1 # 2) with
  | Lt => n
  | Gt => n + 1
  | Eq => if Z.even n then n else n + 1
  end.

(** Nearest float with a 53-bit significand, for [x > 0] and an
    unbounded exponent. *)
Definition round_53 (x : Q) : Q :=
  let e := binade x - 52 in
  (inject_Z (round_half_even (x / pow2 e)) * pow2 e)%Q.

Definition min_normal : Q := pow2 (-1022).
Definition overflow_threshold : Q := pow2 1024.

Definition round (x : Q) : float64 :=
  match Qcompare x 0 with
  | Eq => F64 0
  | Gt =>
      let r := round_53 x in
      if Qle_bool min_normal x && negb (Qle_bool overflow_threshold r)
      then F64 r else F64_exceptional
  | Lt =>
      let r := round_53 (- x) in
      if Qle_bool min_normal (- x) && negb (Qle_bool overflow_threshold r)
      then F64 (- r) else F64_exceptional
  end.

(** [float64(n)] for an integer [n]. *)
Definition of_int (n : Z) : float64 := round (inject_Z n).

Definition div (a b : float64) : float64 :=
  match a, b with
  | F64 x, F64 y => if Qeq_bool y 0 then F64_exceptional else round (x / y)
  | _, _ => F64_exceptional
  end.

Definition mul (a b : float64) : float64 :=
  match a, b with
  | F64 x, F64 y => round (x * y)
  | _, _ => F64_exceptional
  end.

(** [uint(f)] discards the fraction.  When the truncated value does not
    fit an unsigned 64-bit integer the language leaves the result to
    the implementation: [platform] stands for its choice. *)
Definition to_uint (platform : float64 -> Z) (f : float64) : Z :=
  match f with
  | F64 x =>
      let t := Z.quot (Qnum x) (Zpos (Qden x)) in
      if (0 <=? t) && (t <? 2 ^ 64) then t else platform f
  | F64_exceptional => platform f
  end.

End Float64.

(** Error bounds for the arithmetic above: the unit roundoff, the range
    in which nothing overflows or leaves the normal numbers, and "[y] is
    [x] up to the relative error [eps]". *)

Module Rounding.

Definition u : Q := 1 # (2 ^ 53).

Definition safe_lo : Q := 1 # (2 ^ 200).
Definition safe_hi : Q := inject_Z (2 ^ 200).

Definition mid_lo : Q := 1 # (2 ^ 100).
Definition mid_hi : Q := inject_Z (2 ^ 100).

Definition approx (eps x y : Q) : Prop :=
  (x * (1 - eps) <= y <= x * (1 + eps))%Q.

(** Bounds on the relative error after the division, after its
    rounding, and after the product and its rounding. *)
Definition e2 : Q := (3 * u)%Q.
Definition e3 : Q := (4 * u + 4 * u * u)%Q.
Definition e4 : Q := (7 * u)%Q.

End Rounding.

(** ** Strings ([strings.ToLower], [strings.HasSuffix], [strings.TrimPrefix])

    [strings.ToLower] is modelled on the ASCII letters, which is all the
    suffix tests of the program depend on. *)

Definition ascii_lower (c : ascii) : ascii :=
  let n := nat_of_ascii c in
  if (65 <=? n)%nat && (n <=? 90)%nat then ascii_of_nat (n + 32) else c.

Fixpoint strings_ToLower (s : string) : string :=
  match s with
  | EmptyString => EmptyString
  | String c s' => String (ascii_lower c) (strings_ToLower s')
  end.

Definition strings_HasPrefix (s prefix : string) : bool := String.prefix prefix s.

Definition strings_HasSuffix (s suffix : string) : bool :=
  String.prefix (String.rev suffix) (String.rev s).

Definition strings_TrimPrefix (s prefix : string) : string :=
  if strings_HasPrefix s prefix
  then String.substring (String.length prefix)
         (String.length s - String.length prefix) s
  else s.

(** ** Slices *)

Definition len {A} (l : list A) : Z := Z.of_nat (length l).

(** [l[lo:hi]]; out-of-range bounds panic.  The capacity of the slice is
    taken to be its length. *)
Definition go_slice {A} (l : list A) (lo hi : Z) : run (list A) :=
  if (0 <=? lo) && (lo <=? hi) && (hi <=? len l)
  then Ret (take (Z.to_nat (hi - lo)) (drop (Z.to_nat lo) l))
  else Panic.

(** ** The partition of the file list in [main] (lines 356-373)

    A [launch] records one [go func(threadID, files, bar)] statement: the
    thread identifier and the share of the file list handed to it. *)

Record launch : Type := Launch { threadID : Z; files : list string }.

Fixpoint main_loop (fuel : nat) (filePaths : list string)
    (numThreads chunkSize i : Z) : run (list launch) :=
  if negb (i <? numThreads) then Ret [] else
  match fuel with
  | O => Timeout
  | S fuel' =>
      let start := Int.mul i chunkSize in
      let end0 := Int.add start chunkSize in
      let end_ := if end0 >? len filePaths then len filePaths else end0 in
      if start <? end_ then
        share ← go_slice filePaths start end_;
        rest ← main_loop fuel' filePaths numThreads chunkSize (Int.add i 1);
        Ret (Launch (Int.add i 1) share :: rest)
      else main_loop fuel' filePaths numThreads chunkSize (Int.add i 1)
  end.

(** [make([]*progressbar.ProgressBar, numThreads)] panics on a negative
    length, the division on [numThreads = 0]. *)
Definition main_chunkSize (filePaths : list string) (numThreads : Z) : run Z :=
  if numThreads <? 0 then Panic
  else Int.quo (Int.sub (Int.add (len filePaths) numThreads) 1) numThreads.

Definition main_launches (fuel : nat) (filePaths : list string)
    (numThreads : Z) : run (list launch) :=
  chunkSize ← main_chunkSize filePaths numThreads;
  main_loop fuel filePaths numThreads chunkSize 0.

(** The shares as section 4.1 of the specification words them: worker
    [i] owns the items [[i*chunkSize, min((i+1)*chunkSize, len))] with
    [chunkSize = ceil(len / workerCount)], and a worker whose start is
    not below its end gets nothing. *)
Definition ceil_div (a b : Z) : Z := (a + b - 1) / b.

Definition share_start (chunkSize i : Z) : Z := i * chunkSize.
Definition share_end (n chunkSize i : Z) : Z := Z.min ((i + 1) * chunkSize) n.

Definition share_of (filePaths : list string) (chunkSize i : Z) : option launch :=
  let s := share_start chunkSize i in
  let e := share_end (len filePaths) chunkSize i in
  if s <? e
  then Some (Launch (i + 1) (take (Z.to_nat (e - s)) (drop (Z.to_nat s) filePaths)))
  else None.

Definition partition_spec (filePaths : list string) (numThreads : Z) : list launch :=
  omap (share_of filePaths (ceil_div (len filePaths) numThreads)) (seqZ 0 numThreads).

(** The number of workers that get a share. *)
Definition launched_count (n chunkSize : Z) : Z :=
  if chunkSize =? 0 then 0 else ceil_div n chunkSize.

Definition the_share (filePaths : list string) (chunkSize i : Z) : launch :=
  Launch (i + 1)
    (take (Z.to_nat (share_end (len filePaths) chunkSize i - share_start chunkSize i))
       (drop (Z.to_nat (share_start chunkSize i)) filePaths)).

(** The balance the specification asks of the shares: no two sizes
    differ by more than one. *)
Definition shares_differ_by_at_most_one (shares : list launch) : Prop :=
  forall a b, a ∈ shares -> b ∈ shares -> len (files a) - len (files b) <= 1.

(** ** The environment

    The operating system and the imaging libraries are collaborators of
    the program; they are described by the interfaces below and every
    result about the program holds for all their implementations.  A
    failing call ([err != nil]) is [None] or [false]. *)

Record FileInfo : Type := mkFileInfo {
  fi_Name : string;
  fi_IsDir : bool;
  fi_Size : Z
}.

Class OS (World : Type) : Type := {
  os_Stat : string -> World -> option FileInfo;
  os_MkdirAll : string -> World -> World;
  (** [os.Open] followed by reading the file to its end *)
  os_Open : string -> World -> option (list Byte.byte);
  ioutil_ReadFile : string -> World -> option (list Byte.byte);
  os_Create : string -> World -> World * bool;
  (** the bytes an encoder sends to the file just created *)
  file_Write : string -> list Byte.byte -> World -> World * bool
}.

Class Paths : Type := {
  filepath_Join : string -> string -> string;
  filepath_Dir : string -> string
}.

Class Imaging (Image : Type) : Type := {
  image_Decode : list Byte.byte -> option (Image * string);
  bounds_Dx : Image -> Z;
  bounds_Dy : Image -> Z;
  resize_Resize : Z -> Z -> Image -> Image;
  (** [freetype.ParseFont] and the drawing of the text onto a copy of
      the image, lines 82-83 and 90-120 of [addWatermark] *)
  draw_watermark : Image -> string -> list Byte.byte -> option Image;
  jpeg_Encode : Image -> Z -> option (list Byte.byte);
  png_Encode : Image -> option (list Byte.byte);
  (** result of [uint(f)] when [f] is out of range *)
  uint_out_of_range : Float64.float64 -> Z
}.

(** One call of the operating system, as it appears in the trace. *)
Inductive event : Type :=
| EvStat (path : string)
| EvMkdirAll (path : string)
| EvOpen (path : string)
| EvReadFile (path : string)
| EvCreate (path : string)
| EvWrite (path : string) (data : list Byte.byte).

(** What a worker can see and change: the outside world, the calls made
    so far, its progress bar (the number of [bar.Add(1)]), and the
    variables [failedFiles] and [mu] of [main] it holds pointers to. *)
Record state (World : Type) : Type := mkState {
  world : World;
  trace : list event;
  bar : Z;
  failedFiles : list string;
  mu : bool
}.
Arguments mkState {World}.
Arguments world {World}.
Arguments trace {World}.
Arguments bar {World}.
Arguments failedFiles {World}.
Arguments mu {World}.

Inductive compressError : Type :=
| ErrOpen
| ErrDecode
| ErrWatermark
| ErrCreate
| ErrUnsupportedFormat (format : string)
| ErrEncode.

Section Program.

Context {World Image : Type} `{!OS World} `{!Paths} `{!Imaging Image}.

Abbreviation state := (state World).

Definition set_world (w : World) (s : state) : state :=
  mkState w (trace s) (bar s) (failedFiles s) (mu s).
Definition log (e : event) (s : state) : state :=
  mkState (world s) (trace s ++ [e]) (bar s) (failedFiles s) (mu s).

Definition Stat (path : string) (s : state) : state * option FileInfo :=
  (log (EvStat path) s, os_Stat path (world s)).
Definition MkdirAll (path : string) (s : state) : state :=
  log (EvMkdirAll path) (set_world (os_MkdirAll path (world s)) s).
Definition Open (path : string) (s : state) : state * option (list Byte.byte) :=
  (log (EvOpen path) s, os_Open path (world s)).
Definition ReadFile (path : string) (s : state) : state * option (list Byte.byte) :=
  (log (EvReadFile path) s, ioutil_ReadFile path (world s)).
Definition Create (path : string) (s : state) : state * bool :=
  let '(w, ok) := os_Create path (world s) in
  (log (EvCreate path) (set_world w s), ok).
Definition Write (path : string) (data : list Byte.byte) (s : state) : state * bool :=
  let '(w, ok) := file_Write path data (world s) in
  (log (EvWrite path data) (set_world w s), ok).

Definition bar_Add (n : Z) (s : state) : state :=
  mkState (world s) (trace s) (bar s + n) (failedFiles s) (mu s).

(** [mu.Lock()] never returns when the mutex is held already and no
    other thread is there to release it; [mu.Unlock()] of a free mutex
    is a fatal error. *)
Definition mu_Lock (s : state) : run state :=
  if mu s then Timeout
  else Ret (mkState (world s) (trace s) (bar s) (failedFiles s) true).
Definition mu_Unlock (s : state) : run state :=
  if mu s then Ret (mkState (world s) (trace s) (bar s) (failedFiles s) false)
  else Panic.

(** the assignment to [failedFiles] of lines 213 and 220: [path] is
    appended *)
Definition append_failedFiles (path : string) (s : state) : state :=
  mkState (world s) (trace s) (bar s) (failedFiles s ++ [path]) (mu s).

(** What the calls of the environment leave alone. *)
Definition same_vars (s s' : state) : Prop :=
  bar s' = bar s /\ failedFiles s' = failedFiles s /\ mu s' = mu s.

(** *** [addWatermark] (lines 81-121) *)
Definition addWatermark (img : Image) (text fontPath : string) (s : state)
    : state * option Image :=
  match ReadFile fontPath s with
  | (s, None) => (s, None)
  | (s, Some fontBytes) => (s, draw_watermark img text fontBytes)
  end.

(** *** [compressImage] (lines 123-178) *)

(** [uint(float64(side) * scaleFactor)], lines 143 and 144 *)
Definition scaled (side : Z) (scaleFactor : Float64.float64) : Z :=
  Float64.to_uint uint_out_of_range
    (Float64.mul (Float64.of_int side) scaleFactor).

(** lines 135-148 *)
Definition resized (img : Image) (maxPixels : Z) : Image :=
  let width := bounds_Dx img in
  let height := bounds_Dy img in
  let totalPixels := Int.mul width height in
  if totalPixels >? maxPixels then
    let scaleFactor :=
      Float64.div (Float64.of_int maxPixels) (Float64.of_int totalPixels) in
    let newWidth := scaled width scaleFactor in
    let newHeight := scaled height scaleFactor in
    resize_Resize newWidth newHeight img
  else img.

(** lines 158-177 *)
Definition encode_to (outputPath format : string) (newImg : Image) (s : state)
    : state * option compressError :=
  match Create outputPath s with
  | (s, false) => (s, Some ErrCreate)
  | (s, true) =>
      let encoded :=
        if String.eqb format "jpeg" then Some (jpeg_Encode newImg 80)
        else if String.eqb format "png" then Some (png_Encode newImg)
        else None in
      match encoded with
      | None => (s, Some (ErrUnsupportedFormat format))
      | Some None => (s, Some ErrEncode)
      | Some (Some data) =>
          match Write outputPath data s with
          | (s, false) => (s, Some ErrEncode)
          | (s, true) => (s, None)
          end
      end
  end.

Definition compressImage (inputPath outputPath : string) (maxPixels : Z)
    (watermarkText fontPath : string) (s : state)
    : state * option compressError :=
  match Open inputPath s with
  | (s, None) => (s, Some ErrOpen)
  | (s, Some data) =>
      match image_Decode data with
      | None => (s, Some ErrDecode)
      | Some (img, format) =>
          let newImg := resized img maxPixels in
          if negb (String.eqb watermarkText "") then
            match addWatermark newImg watermarkText fontPath s with
            | (s, None) => (s, Some ErrWatermark)
            | (s, Some newImg) => encode_to outputPath format newImg s
            end
          else encode_to outputPath format newImg s
      end
  end.

(** *** [compressImages] (lines 180-228) *)

(** the test of line 198 *)
Definition accepted (info : FileInfo) : bool :=
  negb (fi_IsDir info)
  && (strings_HasSuffix (strings_ToLower (fi_Name info)) ".jpg"
      || strings_HasSuffix (strings_ToLower (fi_Name info)) ".png").

(** lines 212-214 and 219-221 *)
Definition record_failure (path : string) (s : state) : run state :=
  s ← mu_Lock s;
  mu_Unlock (append_failedFiles path s).

(** The body of [for _, path := range batch], lines 197-222; the
    accumulator is the state and the local [compressedTotalSize]. *)
Definition compressImages_file (outputDir inputDir watermarkText fontPath : string)
    (maxPixels : Z) (path : string) (acc : state * Z) : run (state * Z) :=
  let '(s, compressedTotalSize) := acc in
  match Stat path s with
  | (s, Some info) =>
      if accepted info then
        let relativePath := strings_TrimPrefix path inputDir in
        let outputFile := filepath_Join outputDir relativePath in
        let s := MkdirAll (filepath_Dir outputFile) s in
        match compressImage path outputFile maxPixels watermarkText fontPath s with
        | (s, None) =>
            let s := bar_Add 1 s in
            match Stat outputFile s with
            | (s, Some info) =>
                Ret (s, Int.add compressedTotalSize (fi_Size info))
            | (s, None) => Ret (s, compressedTotalSize)
            end
        | (s, Some _) =>
            s ← record_failure relativePath s;
            Ret (s, compressedTotalSize)
        end
      else Ret (s, compressedTotalSize)
  | (s, None) =>
      s ← record_failure (strings_TrimPrefix path inputDir) s;
      Ret (s, compressedTotalSize)
  end.

Fixpoint range_batch (body : string -> state * Z -> run (state * Z))
    (batch : list string) (acc : state * Z) : run (state * Z) :=
  match batch with
  | [] => Ret acc
  | path :: batch' => acc ← body path acc; range_batch body batch' acc
  end.

(** The loop of lines 189-224. *)
Fixpoint batch_loop (fuel : nat) (body : string -> state * Z -> run (state * Z))
    (files : list string) (filesPerBatch i : Z) (acc : state * Z)
    : run (state * Z) :=
  if negb (i <? len files) then Ret acc else
  match fuel with
  | O => Timeout
  | S fuel' =>
      let end0 := Int.add i filesPerBatch in
      let end_ := if end0 >? len files then len files else end0 in
      batch ← go_slice files i end_;
      acc ← range_batch body batch acc;
      batch_loop fuel' body files filesPerBatch (Int.add i filesPerBatch) acc
  end.

(** [compressImages] for a batch size that need not be the constant of
    line 26.  The result is the final state, the returned size and the
    returned error, which is always [nil]. *)
Definition compressImages_sized (batchSize : Z) (fuel : nat) (threadID : Z)
    (files : list string) (outputDir inputDir watermarkText fontPath : string)
    (maxPixels : Z) (s : state) : run (state * (Z * option compressError)) :=
  let filesPerBatch := if len files <? batchSize then len files else batchSize in
  '(s, compressedTotalSize) ←
    batch_loop fuel
      (compressImages_file outputDir inputDir watermarkText fontPath maxPixels)
      files filesPerBatch 0 (s, 0);
  Ret (s, (compressedTotalSize, None)).

Definition batchSize : Z := 200.

Definition compressImages := compressImages_sized batchSize.

(** *** Reference definitions, worded as the specification

    The Batch Runner without batches: the items of the share, one by
    one and in order. *)
Definition run_item_by_item (files : list string)
    (outputDir inputDir watermarkText fontPath : string) (maxPixels : Z)
    (s : state) : run (state * (Z * option compressError)) :=
  '(s, total) ←
    range_batch
      (compressImages_file outputDir inputDir watermarkText fontPath maxPixels)
      files (s, 0);
  Ret (s, (total, None)).

(** The transform without any watermark step: decode, resize, encode. *)
Definition resize_and_reencode (inputPath outputPath : string) (maxPixels : Z)
    (s : state) : state * option compressError :=
  match Open inputPath s with
  | (s, None) => (s, Some ErrOpen)
  | (s, Some data) =>
      match image_Decode data with
      | None => (s, Some ErrDecode)
      | Some (img, format) => encode_to outputPath format (resized img maxPixels) s
      end
  end.

(** The Outcome of one item, section 3 of the specification, with a
    third case for the items the worker passes over in silence. *)
Inductive Outcome : Type :=
| Success (bytesWritten : option Z)
| Failure (relativePath : string)
| Skipped.

End Program.

Arguments Outcome : clear implicits.

Section Outcomes.

Context {World Image : Type} `{!OS World} `{!Paths} `{!Imaging Image}.

(** What line 197 to 222 do with [path] in state [s], read off the same
    calls as [compressImages_file] makes. *)
Definition item_outcome (outputDir inputDir watermarkText fontPath : string)
    (maxPixels : Z) (path : string) (s : state World) : Outcome :=
  match Stat path s with
  | (s, Some info) =>
      if accepted info then
        let relativePath := strings_TrimPrefix path inputDir in
        let outputFile := filepath_Join outputDir relativePath in
        let s := MkdirAll (filepath_Dir outputFile) s in
        match compressImage (Image := Image) path outputFile maxPixels
                watermarkText fontPath s with
        | (s, None) => Success (fi_Size <$> snd (Stat outputFile (bar_Add 1 s)))
        | (s, Some _) => Failure relativePath
        end
      else Skipped
  | (s, None) => Failure (strings_TrimPrefix path inputDir)
  end.

(** The outcomes of a share, each item judged in the state the items
    before it have left behind. *)
Fixpoint outcomes (outputDir inputDir watermarkText fontPath : string)
    (maxPixels : Z) (files : list string) (acc : state World * Z)
    : list Outcome :=
  match files with
  | [] => []
  | path :: files' =>
      item_outcome outputDir inputDir watermarkText fontPath maxPixels path acc.1
      :: match compressImages_file (Image := Image) outputDir inputDir
                 watermarkText fontPath maxPixels path acc with
         | Ret acc' =>
             outcomes outputDir inputDir watermarkText fontPath maxPixels
               files' acc'
         | _ => []
         end
  end.

Definition is_success (o : Outcome) : bool :=
  match o with Success _ => true | _ => false end.
Definition is_failure (o : Outcome) : bool :=
  match o with Failure _ => true | _ => false end.
Definition is_skipped (o : Outcome) : bool :=
  match o with Skipped => true | _ => false end.

Definition count (p : Outcome -> bool) (os : list Outcome) : Z :=
  len (filter (fun o => p o = true) os).

Definition failed_paths (os : list Outcome) : list string :=
  omap (fun o => match o with Failure p => Some p | _ => None end) os.

(** bytes added by one outcome to [compressedTotalSize], line 208 *)
Definition bytes_of (o : Outcome) : Z :=
  match o with Success (Some n) => n | _ => 0 end.

Definition sum_bytes (os : list Outcome) : Z :=
  foldr (fun o acc => bytes_of o + acc) 0 os.

End Outcomes.

(** ** Per-file errors and outputs that cannot be inspected *)

Section Errors.

Context {World Image : Type} `{!OS World} `{!Paths} `{!Imaging Image}.
Variables (outputDir inputDir watermarkText fontPath : string) (maxPixels : Z).

(** The state in which [compressImage] is called for [path], line 205. *)
Definition before_compress (path : string) (s : state World) : state World :=
  MkdirAll
    (filepath_Dir (filepath_Join outputDir (strings_TrimPrefix path inputDir)))
    (Stat path s).1.

Definition compress_result (path : string) (s : state World)
    : state World * option compressError :=
  compressImage (Image := Image) path
    (filepath_Join outputDir (strings_TrimPrefix path inputDir))
    maxPixels watermarkText fontPath (before_compress path s).

(** A per-file error: [os.Stat] fails (line 217), or the file is
    accepted and [compressImage] returns an error (line 210). *)
Definition file_error (path : string) (s : state World) : Prop :=
  os_Stat path (world s) = None \/
  exists info err,
    os_Stat path (world s) = Some info /\ accepted info = true /\
    (compress_result path s).2 = Some err.

(** [compressImage] returns [nil] and the [os.Stat] of line 207 fails. *)
Definition output_unstatable (path : string) (s : state World) : Prop :=
  exists info,
    os_Stat path (world s) = Some info /\ accepted info = true /\
    (compress_result path s).2 = None /\
    os_Stat (filepath_Join outputDir (strings_TrimPrefix path inputDir))
      (world (compress_result path s).1) = None.
End Errors.

Definition is_ReadFile (e : event) : bool :=
  match e with EvReadFile _ => true | _ => false end.

(** The count the specification asks of a run of [compressImages] from
    [s] to [s']: every item is a recorded failure or a step of progress. *)
Definition every_item_recorded {World} (files : list string) (s s' : state World) : Prop :=
  (len (failedFiles s') - len (failedFiles s)) + (bar s' - bar s) = len files.

(** New dimensions that are the old ones times the square root of
    [maxPixels / (width * height)], up to one pixel. *)
Definition downscaled_by_sqrt (width height maxPixels newWidth newHeight : Z) : Prop :=
  ((newWidth - 1) ^ 2 * (width * height) <= width ^ 2 * maxPixels
   <= (newWidth + 1) ^ 2 * (width * height)) /\
  ((newHeight - 1) ^ 2 * (width * height) <= height ^ 2 * maxPixels
   <= (newHeight + 1) ^ 2 * (width * height)).

(** What the documentation of [resize.Resize] promises when it is asked
    for two positive dimensions: an image of these dimensions. *)
Definition resizer_honours_request {Image : Type} `{!Imaging Image} : Prop :=
  forall (newWidth newHeight : Z) (img : Image),
    0 < newWidth -> 0 < newHeight ->
    bounds_Dx (resize_Resize newWidth newHeight img) = newWidth /\
    bounds_Dy (resize_Resize newWidth newHeight img) = newHeight.

(** ** The aggregate state under concurrency

    [main] starts one goroutine per share.  Each of them changes the two
    variables of [main] that all share, [failedFiles] (lines 212-214 and
    219-221, once per failed file) and [compressedTotalSize] (lines
    368-370, once at its end), always between [mu.Lock()] and
    [mu.Unlock()].  The machine below runs such threads one small step
    at a time, in any order: taking the lock, reading the variable,
    writing it back, releasing the lock. *)

Module Aggregator.

Inductive action : Type :=
| RecordFailure (path : string)
| AddSize (size : Z).

Record shared : Type := mkShared {
  compressedTotalSize : Z;
  failedFiles : list string;
  mu : option nat
}.

Inductive position : Type :=
| Idle
| Locked
| LoadedFiles (l : list string)
| LoadedSize (z : Z)
| Stored.

Record thread : Type := mkThread { pos : position; todo : list action }.

Record config : Type := mkConfig { mem : shared; threads : list thread }.

Definition step_thread (t : nat) (th : thread) (m : shared)
    : option (thread * shared) :=
  match pos th, todo th with
  | Idle, _ :: _ =>
      match mu m with
      | None =>
          Some (mkThread Locked (todo th),
                mkShared (compressedTotalSize m) (failedFiles m) (Some t))
      | Some _ => None
      end
  | Locked, RecordFailure _ :: _ =>
      Some (mkThread (LoadedFiles (failedFiles m)) (todo th), m)
  | Locked, AddSize _ :: _ =>
      Some (mkThread (LoadedSize (compressedTotalSize m)) (todo th), m)
  | LoadedFiles l, RecordFailure path :: rest =>
      Some (mkThread Stored rest,
            mkShared (compressedTotalSize m) (l ++ [path]) (mu m))
  | LoadedSize z, AddSize size :: rest =>
      Some (mkThread Stored rest,
            mkShared (Int.add z size) (failedFiles m) (mu m))
  | Stored, _ =>
      Some (mkThread Idle (todo th),
            mkShared (compressedTotalSize m) (failedFiles m) None)
  | _, _ => None
  end.

(** Thread [t] takes its next step; [None] when it has finished or
    waits for the lock. *)
Definition step (t : nat) (c : config) : option config :=
  th ← threads c !! t;
  '(th', m') ← step_thread t th (mem c);
  Some (mkConfig m' (<[t := th']> (threads c))).

Fixpoint exec (schedule : list nat) (c : config) : option config :=
  match schedule with
  | [] => Some c
  | t :: schedule' => c' ← step t c; exec schedule' c'
  end.

Definition init (workers : list (list action)) : config :=
  mkConfig (mkShared 0 [] None) (mkThread Idle <$> workers).

Definition thread_done (th : thread) : bool :=
  match pos th, todo th with
  | Idle, [] => true
  | _, _ => false
  end.

Definition finished (c : config) : bool := forallb thread_done (threads c).

Definition sizes (acts : list action) : list Z :=
  omap (fun a => match a with AddSize n => Some n | _ => None end) acts.
Definition paths (acts : list action) : list string :=
  omap (fun a => match a with RecordFailure p => Some p | _ => None end) acts.

Definition sum (l : list Z) : Z := foldr Z.add 0 l.

(** The actions of the goroutine of lines 365-371 whose call of
    [compressImages] fails on [failures] and returns [size]. *)
Definition worker (failures : list string) (size : Z) : list action :=
  (RecordFailure <$> failures) ++ [AddSize size].

(** Sizes and paths the threads have still to record. *)
Definition pending_size (ths : list thread) : Z :=
  foldr (fun th acc => sum (sizes (todo th)) + acc) 0 ths.
Definition pending_paths (ths : list thread) : list string :=
  concat ((fun th => paths (todo th)) <$> ths).

Definition coherent (m : shared) (th : thread) : Prop :=
  match pos th with
  | LoadedFiles l => l = failedFiles m
  | LoadedSize z => z = compressedTotalSize m
  | _ => True
  end.

Record invariant (size : Z) (failed : list string) (c : config) : Prop := {
  inv_owner : forall t th, threads c !! t = Some th -> pos th <> Idle -> mu (mem c) = Some t;
  inv_coherent : forall t th, threads c !! t = Some th -> coherent (mem c) th;
  inv_range : Int.in_range (compressedTotalSize (mem c));
  inv_size :
    Int.wrap (compressedTotalSize (mem c) + pending_size (threads c)) = Int.wrap size;
  inv_paths : failedFiles (mem c) ++ pending_paths (threads c) ≡ₚ failed
}.

(** Four steps of thread [t] for each of its actions. *)
Definition schedule_of (t : nat) (acts : list action) : list nat :=
  concat (replicate (length acts) [t; t; t; t]).

Definition ended (_ : list action) : thread := mkThread Idle [].

(** The schedule that lets the threads run one after the other. *)
Definition sequential (workers : list (list action)) : list nat :=
  concat (imap schedule_of workers).

End Aggregator.

(** ** A small environment to run the program in

    Files live in an association list; an image file holds a format tag
    and its two dimensions. *)

Module Toy.

Inductive node : Type :=
| File (data : list Byte.byte)
| Dir.

Definition World : Type := list (string * node).

Fixpoint find (path : string) (w : World) : option node :=
  match w with
  | [] => None
  | (p, n) :: w' => if String.eqb p path then Some n else find path w'
  end.

Definition is_dir (path : string) (w : World) : bool :=
  match find path w with Some Dir => true | _ => false end.

#[export] Instance toy_os : OS World := {|
  os_Stat path w :=
    match find path w with
    | Some (File data) => Some (mkFileInfo path false (len data))
    | Some Dir => Some (mkFileInfo path true 0)
    | None => None
    end;
  os_MkdirAll path w := (path, Dir) :: w;
  os_Open path w :=
    match find path w with Some (File data) => Some data | _ => None end;
  ioutil_ReadFile path w :=
    match find path w with Some (File data) => Some data | _ => None end;
  os_Create path w :=
    if is_dir path w then (w, false) else ((path, File []) :: w, true);
  file_Write path data w := ((path, File data) :: w, true)
|}.

#[export] Instance toy_paths : Paths := {|
  filepath_Join a b := (a ++ b)%string;
  filepath_Dir p := (p ++ "/..")%string
|}.

Record Image : Type := mkImage {
  width : Z;
  height : Z;
  watermark : string
}.

Definition decode (data : list Byte.byte) : option (Image * string) :=
  match data with
  | [tag; w; h] =>
      let img := mkImage (Z.of_N (Byte.to_N w)) (Z.of_N (Byte.to_N h)) "" in
      if Byte.eqb tag "j"%byte then Some (img, "jpeg"%string)
      else if Byte.eqb tag "p"%byte then Some (img, "png"%string)
      else None
  | _ => None
  end.

Definition encode (tag : Byte.byte) (img : Image) : option (list Byte.byte) :=
  match Byte.of_N (Z.to_N (width img)), Byte.of_N (Z.to_N (height img)) with
  | Some w, Some h => Some [tag; w; h]
  | _, _ => None
  end.

#[export] Instance toy_imaging : Imaging Image := {|
  image_Decode := decode;
  bounds_Dx := width;
  bounds_Dy := height;
  resize_Resize w h img :=
    if (w =? 0) && (h =? 0) then img else mkImage w h (watermark img);
  draw_watermark img text font :=
    match font with
    | [] => None
    | _ => Some (mkImage (width img) (height img) text)
    end;
  jpeg_Encode img quality := encode "j"%byte img;
  png_Encode img := encode "p"%byte img;
  uint_out_of_range f := 0
|}.

Definition start (w : World) : state World := mkState w [] 0 [] false.

(** Five files; the third is not an image (Scenario C). *)
Definition five_files : list string :=
  ["/in/1.jpg"; "/in/2.png"; "/in/3.jpg"; "/in/4.JPG"; "/in/5.jpg"]%string.

Definition five_world : World :=
  [("/in/1.jpg"%string, File ["j"%byte; x03; x04]);
   ("/in/2.png"%string, File ["p"%byte; x10; x10]);
   ("/in/3.jpg"%string, File [x00]);
   ("/in/4.JPG"%string, File ["j"%byte; x02; x02]);
   ("/in/5.jpg"%string, File ["j"%byte; x01; x09])].

Definition ten_files : list string :=
  ["a"; "b"; "c"; "d"; "e"; "f"; "g"; "h"; "i"; "j"]%string.
Definition jpeg_named_jpeg : World :=
  [("/in/photo.jpeg"%string, File ["j"%byte; x03; x04])].
Definition big : Image := mkImage 4000 4000 "".

(** An operating system in which nothing below [/out] can be
    inspected. *)
Definition blind_os : OS World := {|
  os_Stat path w :=
    if strings_HasPrefix path "/out" then None else os_Stat path w;
  os_MkdirAll := os_MkdirAll;
  os_Open := os_Open;
  ioutil_ReadFile := ioutil_ReadFile;
  os_Create := os_Create;
  file_Write := file_Write
|}.

Definition once : state World :=
  (compressImage "/in/1.jpg" "/out/1.jpg" 12000000 "" "InkType.ttf" (start five_world)).1.

Definition two_workers : list (list Aggregator.action) :=
  [Aggregator.worker ["/3.jpg"]%string 12; Aggregator.worker [] 7].

Definition interleaved : list nat :=
  [0; 0; 0; 0; 1; 1; 1; 1; 0; 0; 0; 0]%nat.

End Toy.

(** ** More of [main]: the progress bars (lines 346-349)

    Every bar is created with the same maximum, [len(filePaths) /
    numThreads + 1]; the loop runs once per thread, so not at all for
    [numThreads = 0]. *)
Definition main_bars (filePaths : list string) (numThreads : Z) : run (list Z) :=
  if numThreads <? 0 then Panic
  else if numThreads =? 0 then Ret []
  else
    q ← Int.quo (len filePaths) numThreads;
    Ret (replicate (Z.to_nat numThreads) (Int.add q 1)).

(** ** The transform as a function of the bytes read

    What [compressImage] computes between reading and writing:
    decoding, [resized], the watermark when the text is not empty, and
    the encoder of the decoded format (lines 164-171). *)
Section TransformFunction.

Context {Image : Type} `{!Imaging Image}.

Definition encoded (format : string) (newImg : Image) : option (option (list Byte.byte)) :=
  if String.eqb format "jpeg" then Some (jpeg_Encode newImg 80)
  else if String.eqb format "png" then Some (png_Encode newImg)
  else None.

Definition transform (input : list Byte.byte) (maxPixels : Z)
    (watermarkText : string) (font : option (list Byte.byte))
    : option (list Byte.byte) :=
  match image_Decode input with
  | None => None
  | Some (img, format) =>
      let newImg := resized img maxPixels in
      let marked :=
        if negb (String.eqb watermarkText "") then
          match font with
          | Some fontBytes => draw_watermark newImg watermarkText fontBytes
          | None => None
          end
        else Some newImg in
      match marked with
      | None => None
      | Some newImg =>
          match encoded format newImg with
          | Some (Some data) => Some data
          | _ => None
          end
      end
  end.

(** When [compressImage] succeeds, and with what bytes: the input can be
    opened, the transform of its bytes gives [data], the output file
    can be created and [data] written to it. *)
Definition succeeds {World : Type} `{!OS World} (inputPath outputPath : string)
    (maxPixels : Z) (watermarkText fontPath : string) (w : World)
    (data : list Byte.byte) : Prop :=
  exists input,
    os_Open inputPath w = Some input /\
    transform input maxPixels watermarkText (ioutil_ReadFile fontPath w) = Some data /\
    (os_Create outputPath w).2 = true /\
    (file_Write outputPath data (os_Create outputPath w).1).2 = true.

End TransformFunction.

(** The calls [compressImage] makes when it succeeds. *)
Definition success_calls (inputPath outputPath watermarkText fontPath : string)
    (data : list Byte.byte) : list event :=
  [EvOpen inputPath]
  ++ (if negb (String.eqb watermarkText "") then [EvReadFile fontPath] else [])
  ++ [EvCreate outputPath; EvWrite outputPath data].

(** The calls the loop body of [compressImages] may make for the item
    [path]: on the item itself, on its output file and the directory of
    that file, and on the font. *)
Section ItemEvents.

Context `{!Paths}.

Definition item_event (outputDir inputDir fontPath path : string) (e : event) : bool :=
  let outputFile := filepath_Join outputDir (strings_TrimPrefix path inputDir) in
  match e with
  | EvStat p => String.eqb p path || String.eqb p outputFile
  | EvMkdirAll p => String.eqb p (filepath_Dir outputFile)
  | EvOpen p => String.eqb p path
  | EvReadFile p => String.eqb p fontPath
  | EvCreate p => String.eqb p outputFile
  | EvWrite p _ => String.eqb p outputFile
  end.

(** The calls of a worker, item by item: [evss] has one list of calls
    per item of the share, each starting with the [os.Stat] of the item
    and made of calls that concern this item only. *)
Definition calls_by_item (outputDir inputDir fontPath : string)
    (files : list string) (evss : list (list event)) : Prop :=
  Forall2 (fun path evs =>
             head evs = Some (EvStat path) /\
             forallb (item_event outputDir inputDir fontPath path) evs = true)
    files evss.

End ItemEvents.

(** The path an operating-system call is about. *)
Definition event_path (e : event) : string :=
  match e with
  | EvStat p | EvMkdirAll p | EvOpen p | EvReadFile p | EvCreate p | EvWrite p _ => p
  end.

Definition is_early_error (e : compressError) : bool :=
  match e with
  | ErrOpen | ErrDecode | ErrWatermark => true
  | _ => false
  end.

Definition touches_output (e : event) : bool :=
  match e with
  | EvCreate _ | EvWrite _ _ => true
  | _ => false
  end.

(** ** The enumeration of the files: [calculateTotalSizeAndCount]
    (lines 47-79)

    [filepath.Walk] belongs to the environment.  What it finds below
    the root is a [tree]; it calls the function of lines 52-72 on the
    entries in order, does not enter a directory for which the function
    returns [filepath.SkipDir], and stops at the first other error. *)

Module Walker.

(** an [error] is its message *)
Definition error : Type := string.

Class PathBase : Type := {
  filepath_Base : string -> string
}.

(** [os.IsNotExist(err)] for the error of [os.Stat(path)], when that
    call fails *)
Class StatErrors (World : Type) : Type := {
  stat_IsNotExist : string -> World -> bool
}.

(** What [Walk] finds at a path: [os.Lstat] succeeds, and for a
    directory the entries can be read ([Entry]) or not ([Unreadable]);
    or [os.Lstat] fails ([Broken]).  The entries of an [Entry] that is
    no directory are never looked at. *)
#[warnings="-register-all"] Inductive tree : Type :=
| Entry (path : string) (info : FileInfo) (entries : list tree)
| Unreadable (path : string) (info : FileInfo) (err : error)
| Broken (path : string) (err : error).

(** the value a [filepath.WalkFunc] returns *)
Inductive result : Type :=
| Nil
| SkipDir
| Err (e : error).

(** the variables of lines 48-50 *)
Record tally : Type := mkTally {
  totalFiles : Z;
  totalSize : Z;
  filePaths : list string
}.

Section Walk.

Context {World : Type} `{!OS World} `{!Paths} `{!PathBase} `{!StatErrors World}.
Variables (folderPath outputFolder : string) (w : World).

(** the test of line 57 *)
Definition skipped (path : string) (info : FileInfo) : bool :=
  fi_IsDir info
  && (String.eqb (filepath_Base path) "compressed_files"
      || String.eqb path outputFolder).

(** lines 62-63 *)
Definition compressedFilePath (path : string) (info : FileInfo) : string :=
  let compressedFilePath :=
    filepath_Join outputFolder (strings_TrimPrefix path folderPath) in
  filepath_Join (filepath_Dir compressedFilePath) (fi_Name info).

(** [_, err := os.Stat(p); os.IsNotExist(err)], line 64 *)
Definition missing (p : string) : bool :=
  match os_Stat p w with
  | Some _ => false
  | None => stat_IsNotExist p w
  end.

(** lines 65-67 *)
Definition select (path : string) (info : FileInfo) (t : tally) : tally :=
  mkTally (Int.add (totalFiles t) 1) (Int.add (totalSize t) (fi_Size info))
    (filePaths t ++ [path]).

(** The function literal of lines 52-72.  [info] is [nil] only in calls
    that carry an error; the method call on a [nil] [info] would
    panic. *)
Definition walkFn (path : string) (info : option FileInfo) (err : option error)
    (t : tally) : run (tally * result) :=
  match err with
  | Some e => Ret (t, Err e)
  | None =>
      match info with
      | None => Panic
      | Some info =>
          if skipped path info then Ret (t, SkipDir)
          else if accepted info then
            if missing (compressedFilePath path info)
            then Ret (select path info t, Nil)
            else Ret (t, Nil)
          else Ret (t, Nil)
      end
  end.

(** [Walk] goes on after [SkipDir] from a directory or from an entry it
    could not inspect; from a file, [SkipDir] ends the directory the
    file is in. *)
Definition absorbs (t : tree) : bool :=
  match t with
  | Entry _ info _ | Unreadable _ info _ => fi_IsDir info
  | Broken _ _ => true
  end.

Fixpoint walk_entries (walk : tree -> tally -> run (tally * result))
    (entries : list tree) (st : tally) {struct entries} : run (tally * result) :=
  match entries with
  | [] => Ret (st, Nil)
  | t :: entries' =>
      '(st, r) ← walk t st;
      match r with
      | Nil => walk_entries walk entries' st
      | SkipDir =>
          if absorbs t then walk_entries walk entries' st else Ret (st, SkipDir)
      | Err e => Ret (st, Err e)
      end
  end.

Fixpoint walk (t : tree) (st : tally) {struct t} : run (tally * result) :=
  match t with
  | Broken path err => walkFn path None (Some err) st
  | Unreadable path info err =>
      if fi_IsDir info then walkFn path (Some info) (Some err) st
      else walkFn path (Some info) None st
  | Entry path info entries =>
      if fi_IsDir info then
        '(st, r) ← walkFn path (Some info) None st;
        match r with
        | Nil => walk_entries walk entries st
        | _ => Ret (st, r)
        end
      else walkFn path (Some info) None st
  end.

(** [filepath.Walk(folderPath, ...)], line 52, when [root] is what is
    found at [folderPath] *)
Definition filepath_Walk (root : tree) (st : tally) : run (tally * option error) :=
  '(st, r) ← walk root st;
  Ret (st, match r with Err e => Some e | _ => None end).

Definition calculateTotalSizeAndCount (root : tree)
    : run (Z * Z * list string * option error) :=
  '(st, err) ← filepath_Walk root (mkTally 0 0 []);
  match err with
  | Some e => Ret (0, 0, [], Some ("failed to walk the directory: " ++ e)%string)
  | None => Ret (totalFiles st, totalSize st, filePaths st, None)
  end.

(** *** For the statements *)

(** The files a walk passes to the function when nothing fails: the
    entries that are no directories, outside the directories the
    function skips, in the order of the walk. *)
Fixpoint reached (t : tree) : list (string * FileInfo) :=
  match t with
  | Entry path info entries =>
      if fi_IsDir info then
        if skipped path info then [] else flat_map reached entries
      else [(path, info)]
  | Unreadable path info _ => if fi_IsDir info then [] else [(path, info)]
  | Broken _ _ => []
  end.

(** Everything in the tree can be inspected. *)
Fixpoint healthy (t : tree) : bool :=
  match t with
  | Entry _ _ entries => forallb healthy entries
  | Unreadable _ info _ => negb (fi_IsDir info)
  | Broken _ _ => false
  end.

(** The error of the first entry, in the order of the walk and outside
    the directories the function skips, that cannot be inspected:
    [os.Lstat] fails on it, or it is a directory whose entries cannot
    be read.  The entry may be the root, a child of the root, or lie
    at any depth below it.  [None] when the walk meets no such
    entry. *)
Fixpoint first_error (t : tree) : option error :=
  match t with
  | Broken _ e => Some e
  | Unreadable _ info e => if fi_IsDir info then Some e else None
  | Entry path info entries =>
      if fi_IsDir info && negb (skipped path info)
      then head (omap first_error entries)
      else None
  end.

(** The tree without the contents of the directories the function
    skips. *)
Fixpoint prune (t : tree) : tree :=
  match t with
  | Entry path info entries =>
      Entry path info (if skipped path info then [] else prune <$> entries)
  | _ => t
  end.

(** the tests of lines 61 and 64 *)
Definition selected (item : string * FileInfo) : bool :=
  accepted item.2 && missing (compressedFilePath item.1 item.2).

Definition sum_sizes (items : list (string * FileInfo)) : Z :=
  foldr (fun item acc => fi_Size item.2 + acc) 0 items.

(** the variables after lines 65-67 have run for each of [items] *)
Definition select_all (items : list (string * FileInfo)) (st : tally) : tally :=
  foldl (fun st item => select item.1 item.2 st) st items.

End Walk.

End Walker.

(** ** More on the threads: who holds the mutex, and the steps left *)

Module Scheduling.
Import Aggregator.

(** A thread between [mu.Lock()] and [mu.Unlock()] has the statement
    it is in the middle of still on its list. *)
Definition ready (th : thread) : Prop :=
  match pos th, todo th with
  | Locked, [] => False
  | LoadedFiles _, RecordFailure _ :: _ => True
  | LoadedFiles _, _ => False
  | LoadedSize _, AddSize _ :: _ => True
  | LoadedSize _, _ => False
  | _, _ => True
  end.

(** The mutex is held by a thread that is in its critical section,
    and every thread is [ready]. *)
Record well_formed (c : config) : Prop := {
  wf_holder : forall t, mu (mem c) = Some t ->
                exists th, threads c !! t = Some th /\ pos th <> Idle;
  wf_ready : forall t th, threads c !! t = Some th -> ready th
}.

(** The steps a thread has still to take: four for each statement on
    its list, counted from where it is. *)
Definition steps_left (th : thread) : Z :=
  match pos th with
  | Idle => 4 * len (todo th)
  | Locked => 4 * len (todo th) - 1
  | LoadedFiles _ | LoadedSize _ => 4 * len (todo th) - 2
  | Stored => 4 * len (todo th) + 1
  end.

Definition work (c : config) : Z :=
  foldr (fun th acc => steps_left th + acc) 0 (threads c).

End Scheduling.

(** ** The confirmation prompt: [getConfirmation] (lines 230-246)

    [strings.TrimSpace] is modelled on the ASCII white space, as
    [strings.ToLower] is on the ASCII letters. *)

Definition is_space (c : ascii) : bool :=
  let n := nat_of_ascii c in
  ((9 <=? n)%nat && (n <=? 13)%nat) || (n =? 32)%nat.

Fixpoint trim_left (s : string) : string :=
  match s with
  | EmptyString => EmptyString
  | String c s' => if is_space c then trim_left s' else s
  end.

Fixpoint trim_right (s : string) : string :=
  match s with
  | EmptyString => EmptyString
  | String c s' =>
      let r := trim_right s' in
      if is_space c && String.eqb r EmptyString then EmptyString else String c r
  end.

Definition strings_TrimSpace (s : string) : string := trim_right (trim_left s).

(** [line] is the line the goroutine of lines 234-237 reads from the
    standard input, if its answer arrives on the channel within the ten
    seconds; [None] when the timer fires first. *)
Definition getConfirmation (line : option string) : bool :=
  match line with
  | Some text => String.eqb (strings_TrimSpace (strings_ToLower text)) "y"
  | None => false
  end.

Fixpoint all_space (s : string) : bool :=
  match s with
  | EmptyString => true
  | String c s' => is_space c && all_space s'
  end.

Fixpoint is_ascii (s : string) : bool :=
  match s with
  | EmptyString => true
  | String c s' => (nat_of_ascii c <? 128)%nat && is_ascii s'
  end.

(** ** The figures [main] prints before it asks (lines 324-332) *)

(** [int64(f)] discards the fraction; when the truncated value does not
    fit, the result is left to the implementation. *)
Definition float64_to_int64 (platform : Float64.float64 -> Z) (f : Float64.float64) : Z :=
  match f with
  | Float64.F64 x =>
      let t := Z.quot (Qnum x) (Zpos (Qden x)) in
      if (Int.min_int <=? t) && (t <=? Int.max_int) then t else platform f
  | Float64.F64_exceptional => platform f
  end.

(** [approxSize := int64(float64(totalSize) * 0.5)], line 324 *)
Definition main_approxSize (platform : Float64.float64 -> Z) (totalSize : Z) : Z :=
  float64_to_int64 platform
    (Float64.mul (Float64.of_int totalSize) (Float64.F64 (1 # 2))).

(** ** From the input path to the workers ([main], lines 316-373) *)

Section Plan.

Import Walker.
Context {World : Type} `{!OS World} `{!Paths} `{!PathBase} `{!StatErrors World}.

(** Lines 316-322.  [info] is what [os.Stat(inputPath)] returned at
    line 295, [root] what [filepath.Walk] finds at [inputPath]; [err]
    is [nil] when line 316 is reached. *)
Definition main_filePaths (info : FileInfo) (inputPath compressedFolder : string)
    (w : World) (root : tree) : run (Z * Z * list string * option error) :=
  if fi_IsDir info then calculateTotalSizeAndCount inputPath compressedFolder w root
  else Ret (1, fi_Size info, [inputPath], None).

(** Lines 316-373 without what is printed: the files are enumerated,
    the user is asked unless [-y] was given, and the shares are handed
    to the workers.  [None] is "Operation cancelled".  The error of the
    enumeration is not looked at again. *)
Definition main_plan (fuel : nat) (info : FileInfo) (inputPath compressedFolder : string)
    (w : World) (root : tree) (skipConfirmation : bool) (line : option string)
    (numThreads : Z) : run (option (list launch)) :=
  '(totalFiles, totalSize, filePaths, err) ←
    main_filePaths info inputPath compressedFolder w root;
  if negb skipConfirmation && negb (getConfirmation line) then Ret None
  else
    shares ← main_launches fuel filePaths numThreads;
    Ret (Some shares).

End Plan.

(** ** More sample data *)

Module Sample.
Import Toy Walker.

#[export] Instance sample_base : PathBase := {|
  filepath_Base p :=
    if strings_HasSuffix p "/compressed_files" then "compressed_files"%string else p
|}.

(** every failure of [os.Stat] is "does not exist" *)
#[export] Instance sample_stat_errors : StatErrors World := {|
  stat_IsNotExist path w := true
|}.

(** paths in which the output file is named by the relative path
    alone *)
Definition flat_paths : Paths := {|
  filepath_Join a b := b;
  filepath_Dir p := EmptyString
|}.

Definition file (path name : string) (size : Z) : tree :=
  Entry path (mkFileInfo name false size) [].

(** A folder with two images, a text file, and a [compressed_files]
    folder that holds something [os.Lstat] fails on. *)
Definition photos : tree :=
  Entry "/in" (mkFileInfo "in" true 0)
    [file "/in/1.jpg" "1.jpg" 3;
     file "/in/notes.txt" "notes.txt" 10;
     Entry "/in/compressed_files" (mkFileInfo "compressed_files" true 0)
       [Broken "/in/compressed_files/1.jpg" "permission denied"];
     file "/in/2.PNG" "2.PNG" 5].

Definition locked : tree := Broken "/in/sub/locked" "permission denied".

(** A folder in which [os.Lstat] fails on an entry two levels down,
    after an image has been counted on each level. *)
Definition broken_below : tree :=
  Entry "/in" (mkFileInfo "in" true 0)
    [file "/in/1.jpg" "1.jpg" 3;
     Entry "/in/sub" (mkFileInfo "sub" true 0)
       [file "/in/sub/2.jpg" "2.jpg" 4; locked];
     file "/in/2.PNG" "2.PNG" 5].

(** a world in which [/out] is a directory *)
Definition out_is_dir : World := ("/out"%string, Dir) :: five_world.

Definition tall : Image := mkImage 1 100 "".
Definition square : Image := mkImage 200 200 "".

(** the worker's loop body on the first of the five files, with
    [flat_paths], and what it returns *)
Definition first_file : run (state World * Z) :=
  compressImages_file (H := flat_paths) (Image := Image)
    "/out" "/in/" "" "InkType.ttf" 12000000 "/in/1.jpg" (start five_world, 0).

Definition first_file_done : state World * Z :=
  Eval vm_compute in
    match first_file with Ret r => r | _ => (start [], 0) end.

(** the two workers after thread 0 has taken the mutex, and after the
    whole of [interleaved] *)
Definition locked_by_first : Aggregator.config :=
  Eval vm_compute in
    default (Aggregator.init [])
      (Aggregator.exec [0%nat] (Aggregator.init two_workers)).

Definition all_done : Aggregator.config :=
  Eval vm_compute in
    default (Aggregator.init [])
      (Aggregator.exec interleaved (Aggregator.init two_workers)).

End Sample.

(** * Properties *)

(** ** Machine integers *)

Lemma Int_wrap_small z : Int.in_range z -> Int.wrap z = z.
Proof.
  unfold Int.in_range, Int.wrap, Int.min_int, Int.max_int. intros Hz.
  rewrite Z.mod_small; lia.
Qed.

Lemma Int_wrap_range z : Int.in_range (Int.wrap z).
Proof.
  unfold Int.in_range, Int.wrap, Int.min_int, Int.max_int.
  pose proof (Z.mod_pos_bound (z + 2 ^ 63) (2 ^ 64) ltac:(lia)). lia.
Qed.

Lemma Int_wrap_add_l a b : Int.wrap (Int.wrap a + b) = Int.wrap (a + b).
Proof.
  unfold Int.wrap.
  replace (((a + 2 ^ 63) mod 2 ^ 64 - 2 ^ 63) + b + 2 ^ 63)
    with ((a + 2 ^ 63) mod 2 ^ 64 + b) by lia.
  rewrite Zplus_mod_idemp_l. f_equal. f_equal. lia.
Qed.

Lemma Int_wrap_add_r a b : Int.wrap (a + Int.wrap b) = Int.wrap (a + b).
Proof. rewrite (Z.add_comm a), Int_wrap_add_l. f_equal. lia. Qed.

Lemma Int_add_small a b : Int.in_range (a + b) -> Int.add a b = a + b.
Proof. apply Int_wrap_small. Qed.

Lemma Int_mul_small a b : Int.in_range (a * b) -> Int.mul a b = a * b.
Proof. apply Int_wrap_small. Qed.

Lemma len_nonneg {A} (l : list A) : 0 <= len l.
Proof. unfold len. lia. Qed.

(** ** The partition *)

Lemma ceil_div_bounds a b :
  0 <= a -> 0 < b ->
  0 <= ceil_div a b /\ a <= b * ceil_div a b <= a + b - 1.
Proof.
  intros Ha Hb. unfold ceil_div.
  pose proof (Z.div_mod (a + b - 1) b ltac:(lia)) as Hdm.
  pose proof (Z.mod_pos_bound (a + b - 1) b Hb) as Hm.
  split; [apply Z.div_pos; lia | lia].
Qed.

Lemma main_chunkSize_ceil (filePaths : list string) numThreads :
  0 < numThreads ->
  len filePaths + numThreads <= Int.max_int ->
  main_chunkSize filePaths numThreads = Ret (ceil_div (len filePaths) numThreads).
Proof.
  intros Hn Hmax. unfold main_chunkSize, Int.quo, Int.sub, Int.add.
  pose proof (len_nonneg filePaths) as Hl.
  destruct (Z.ltb_spec numThreads 0); [lia|].
  destruct (Z.eqb_spec numThreads 0); [lia|].
  replace (Int.wrap (len filePaths + numThreads) - 1)
    with (Int.wrap (len filePaths + numThreads) + (-1)) by lia.
  rewrite Int_wrap_add_l.
  replace (len filePaths + numThreads + -1) with (len filePaths + numThreads - 1) by lia.
  rewrite (Int_wrap_small (_ - 1)) by (unfold Int.in_range, Int.min_int, Int.max_int in *; lia).
  rewrite Z.quot_div_nonneg by lia.
  f_equal. apply Int_wrap_small.
  destruct (ceil_div_bounds (len filePaths) numThreads Hl Hn) as [H0 [_ H1]].
  unfold ceil_div in *. unfold Int.in_range, Int.min_int, Int.max_int in *. nia.
Qed.

Lemma main_loop_shares (filePaths : list string) numThreads chunkSize :
  0 <= chunkSize ->
  numThreads * chunkSize <= Int.max_int ->
  numThreads <= Int.max_int ->
  forall fuel i,
    0 <= i <= numThreads ->
    (Z.to_nat (numThreads - i) <= fuel)%nat ->
    main_loop fuel filePaths numThreads chunkSize i
    = Ret (omap (share_of filePaths chunkSize) (seqZ i (numThreads - i))).
Proof.
  intros Hcs Hmul Hn fuel.
  pose proof (len_nonneg filePaths) as Hl.
  assert (Hmax : Int.max_int = 2 ^ 63 - 1) by reflexivity.
  assert (Hmin : Int.min_int = - 2 ^ 63) by reflexivity.
  induction fuel as [|fuel IH]; intros i Hi Hfuel.
  - assert (i = numThreads) as -> by lia.
    cbn. rewrite Z.ltb_irrefl. cbn. by rewrite Z.sub_diag.
  - cbn [main_loop]. destruct (Z.ltb_spec i numThreads) as [Hlt|Hge]; cbn [negb].
    2:{ assert (i = numThreads) as -> by lia. by rewrite Z.sub_diag. }
    assert (Hi1 : Int.add i 1 = i + 1).
    { apply Int_add_small. unfold Int.in_range. lia. }
    assert (Hs : Int.mul i chunkSize = i * chunkSize).
    { apply Int_mul_small. unfold Int.in_range. nia. }
    assert (He : Int.add (i * chunkSize) chunkSize = (i + 1) * chunkSize).
    { rewrite Int_add_small; [lia|]. unfold Int.in_range. nia. }
    rewrite Hi1, Hs, He.
    rewrite (seqZ_cons i (numThreads - i)) by lia.
    replace (Z.succ i) with (i + 1) by lia.
    replace (Z.pred (numThreads - i)) with (numThreads - (i + 1)) by lia.
    cbn [omap list_omap]. unfold share_of at 1, share_start, share_end.
    rewrite (IH (i + 1)) by lia.
    assert (Hend : (if (i + 1) * chunkSize >? len filePaths then len filePaths
                    else (i + 1) * chunkSize)
                   = Z.min ((i + 1) * chunkSize) (len filePaths)).
    { destruct (Z.gtb_spec ((i + 1) * chunkSize) (len filePaths)); lia. }
    rewrite Hend.
    destruct (Z.ltb_spec (i * chunkSize) (Z.min ((i + 1) * chunkSize) (len filePaths))) as [Hse|Hse].
    + unfold go_slice.
      destruct (Z.leb_spec 0 (i * chunkSize)); [|nia].
      destruct (Z.leb_spec (i * chunkSize) (Z.min ((i + 1) * chunkSize) (len filePaths))); [|lia].
      destruct (Z.leb_spec (Z.min ((i + 1) * chunkSize) (len filePaths)) (len filePaths)); [|lia].
      reflexivity.
    + reflexivity.
Qed.

Lemma main_launches_partition (filePaths : list string) numThreads fuel :
  0 < numThreads ->
  len filePaths + numThreads <= Int.max_int ->
  (Z.to_nat numThreads <= fuel)%nat ->
  main_launches fuel filePaths numThreads = Ret (partition_spec filePaths numThreads).
Proof.
  intros Hn Hmax Hfuel. unfold main_launches, partition_spec.
  rewrite main_chunkSize_ceil by assumption. cbn.
  pose proof (len_nonneg filePaths) as Hl.
  destruct (ceil_div_bounds (len filePaths) numThreads Hl Hn) as [H0 [_ H1]].
  assert (Hmax' : Int.max_int = 2 ^ 63 - 1) by reflexivity.
  rewrite main_loop_shares; rewrite ?Z.sub_0_r; try lia.
  reflexivity.
Qed.

Lemma share_nonempty_iff n chunkSize i :
  0 <= n -> 0 <= chunkSize -> 0 <= i ->
  share_start chunkSize i < share_end n chunkSize i <-> i < launched_count n chunkSize.
Proof.
  intros Hn Hcs Hi. unfold share_start, share_end, launched_count.
  destruct (Z.eqb_spec chunkSize 0) as [->|Hne]; [lia|].
  destruct (ceil_div_bounds n chunkSize Hn ltac:(lia)) as [H0 [H1 H2]].
  split; intros H; nia.
Qed.

Lemma launched_count_le n numThreads :
  0 <= n -> 0 < numThreads ->
  0 <= launched_count n (ceil_div n numThreads) <= numThreads.
Proof.
  intros Hn Hp. unfold launched_count.
  destruct (ceil_div_bounds n numThreads Hn Hp) as [H0 [H1 H2]].
  destruct (Z.eqb_spec (ceil_div n numThreads) 0) as [|Hne]; [lia|].
  destruct (ceil_div_bounds n (ceil_div n numThreads) Hn ltac:(lia)) as [H3 [H4 H5]].
  split; [lia|]. nia.
Qed.

Lemma omap_all_Some {A B} (f : A -> option B) (g : A -> B) (l : list A) :
  (forall x, x ∈ l -> f x = Some (g x)) -> omap f l = g <$> l.
Proof.
  induction l as [|a l IH]; intros H; [done|].
  cbn. rewrite (H a) by left. cbn. f_equal. apply IH. intros x Hx. apply H. by right.
Qed.

Lemma omap_all_None {A B} (f : A -> option B) (l : list A) :
  (forall x, x ∈ l -> f x = None) -> omap f l = [].
Proof.
  induction l as [|a l IH]; intros H; [done|].
  cbn. rewrite (H a) by left. apply IH. intros x Hx. apply H. by right.
Qed.

Lemma shares_prefix (filePaths : list string) chunkSize numThreads :
  0 <= chunkSize ->
  0 <= launched_count (len filePaths) chunkSize <= numThreads ->
  omap (share_of filePaths chunkSize) (seqZ 0 numThreads)
  = the_share filePaths chunkSize <$> seqZ 0 (launched_count (len filePaths) chunkSize).
Proof.
  intros Hcs Hm. set (m := launched_count (len filePaths) chunkSize) in *.
  pose proof (len_nonneg filePaths) as Hl.
  replace numThreads with (m + (numThreads - m)) at 1 by lia.
  rewrite seqZ_app by lia. rewrite omap_app.
  rewrite (omap_all_Some _ (the_share filePaths chunkSize)).
  2:{ intros i Hi. apply elem_of_seqZ in Hi. unfold share_of, the_share.
      destruct (Z.ltb_spec (share_start chunkSize i) (share_end (len filePaths) chunkSize i)) as [|Hge]; [done|].
      exfalso. assert (share_start chunkSize i < share_end (len filePaths) chunkSize i); [|lia].
      apply share_nonempty_iff; lia. }
  rewrite omap_all_None; [by rewrite app_nil_r|].
  intros i Hi. apply elem_of_seqZ in Hi. unfold share_of.
  destruct (Z.ltb_spec (share_start chunkSize i) (share_end (len filePaths) chunkSize i)) as [Hlt|]; [|done].
  apply share_nonempty_iff in Hlt; lia.
Qed.

Lemma shares_concat (filePaths : list string) chunkSize :
  0 <= chunkSize ->
  forall k : nat,
    concat (files <$> (the_share filePaths chunkSize <$> seqZ 0 (Z.of_nat k)))
    = take (Z.to_nat (Z.of_nat k * chunkSize)) filePaths.
Proof.
  intros Hcs k. induction k as [|k IH].
  - by rewrite Z.mul_0_l.
  - rewrite Nat2Z.inj_succ. replace (Z.succ (Z.of_nat k)) with (Z.of_nat k + 1) by lia.
    rewrite seqZ_app by lia. rewrite !fmap_app, concat_app, IH. cbn.
    rewrite Z.add_0_l. change (seqZ (Z.of_nat k) 1) with [Z.of_nat k].
    cbn [fmap list_fmap concat the_share files].
    rewrite app_nil_r. unfold share_start, share_end, len.
    set (i := Z.of_nat k). set (n := length filePaths).
    rewrite <- (take_drop (Z.to_nat (i * chunkSize)) (take (Z.to_nat ((i + 1) * chunkSize)) filePaths)).
    rewrite take_take, skipn_firstn_comm.
    f_equal.
    + f_equal. lia.
    + destruct (Z.le_ge_cases ((i + 1) * chunkSize) (Z.of_nat n)) as [Hle|Hge].
      * rewrite Z.min_l by lia. f_equal. lia.
      * rewrite Z.min_r by lia.
        destruct (Z.le_ge_cases (i * chunkSize) (Z.of_nat n)).
        -- rewrite !take_ge; rewrite ?length_drop; try reflexivity; subst n i; lia.
        -- rewrite !drop_ge by (subst n i; lia). by rewrite !take_nil.
Qed.

Lemma the_share_length (filePaths : list string) chunkSize i :
  0 <= chunkSize -> 0 <= i ->
  len (files (the_share filePaths chunkSize i))
  = Z.max 0 (share_end (len filePaths) chunkSize i - share_start chunkSize i).
Proof.
  intros Hcs Hi. unfold the_share, share_end, share_start, len. cbn [files].
  rewrite length_take, length_drop. nia.
Qed.

Lemma main_launches_prefix (filePaths : list string) numThreads fuel :
  0 < numThreads ->
  len filePaths + numThreads <= Int.max_int ->
  (Z.to_nat numThreads <= fuel)%nat ->
  main_launches fuel filePaths numThreads
  = Ret (the_share filePaths (ceil_div (len filePaths) numThreads)
           <$> seqZ 0 (launched_count (len filePaths) (ceil_div (len filePaths) numThreads))).
Proof.
  intros Hn Hmax Hfuel. rewrite main_launches_partition by assumption.
  unfold partition_spec. f_equal.
  pose proof (len_nonneg filePaths) as Hl.
  destruct (ceil_div_bounds (len filePaths) numThreads Hl Hn) as [H0 _].
  apply shares_prefix; [assumption|]. by apply launched_count_le.
Qed.

Lemma launched_count_more_threads n numThreads :
  0 <= n < numThreads -> launched_count n (ceil_div n numThreads) = n.
Proof.
  intros Hn. unfold launched_count.
  assert (Hcs : ceil_div n numThreads = if n =? 0 then 0 else 1).
  { unfold ceil_div. destruct (Z.eqb_spec n 0) as [->|Hne].
    - apply Z.div_small. lia.
    - symmetry. apply (Z.div_unique _ _ 1 (n - 1)); lia. }
  rewrite Hcs. destruct (Z.eqb_spec n 0) as [->|Hne]; [reflexivity|].
  cbn. unfold ceil_div. rewrite Z.div_1_r. lia.
Qed.

(** C2 (amended).  For every file list and every [numThreads > 0] (with
    [len + numThreads] an [int]), the loop of [main] returns, its
    launches are the shares [[i*chunkSize, min((i+1)*chunkSize, len))]
    of the specification for [chunkSize = ceil(len / numThreads)], their
    concatenation in thread order is the file list, thread [k+1] gets
    the [k]-th share, every launched share has between one and
    [chunkSize] files and every share but the last exactly [chunkSize].
    The sizes of two shares can differ by up to [chunkSize - 1]. *)
Theorem partition_covers_items (filePaths : list string) (numThreads : Z) (fuel : nat) :
  0 < numThreads ->
  len filePaths + numThreads <= Int.max_int ->
  (Z.to_nat numThreads <= fuel)%nat ->
  let chunkSize := ceil_div (len filePaths) numThreads in
  exists shares,
    main_launches fuel filePaths numThreads = Ret shares /\
    shares = partition_spec filePaths numThreads /\
    concat (files <$> shares) = filePaths /\
    forall (k : nat) (share : launch),
      shares !! k = Some share ->
      threadID share = Z.of_nat k + 1 /\
      1 <= len (files share) <= chunkSize /\
      ((S k < length shares)%nat -> len (files share) = chunkSize).
Proof.
  intros Hn Hmax Hfuel chunkSize.
  pose proof (len_nonneg filePaths) as Hl.
  destruct (ceil_div_bounds (len filePaths) numThreads Hl Hn) as [Hcs [Hcover _]].
  fold chunkSize in Hcs, Hcover.
  pose proof (launched_count_le (len filePaths) numThreads Hl Hn) as Hm.
  fold chunkSize in Hm.
  set (m := launched_count (len filePaths) chunkSize) in *.
  exists (the_share filePaths chunkSize <$> seqZ 0 m).
  split; [by apply main_launches_prefix|].
  split.
  { pose proof (main_launches_prefix filePaths numThreads fuel Hn Hmax Hfuel) as H1.
    rewrite main_launches_partition in H1 by assumption.
    fold chunkSize in H1. fold m in H1. by inversion H1. }
  split.
  { replace m with (Z.of_nat (Z.to_nat m)) by lia.
    rewrite shares_concat by assumption. rewrite Z2Nat.id by lia.
    apply take_ge. unfold m, launched_count.
    destruct (Z.eqb_spec chunkSize 0) as [Hz|Hnz].
    - unfold len in *. nia.
    - destruct (ceil_div_bounds (len filePaths) chunkSize Hl ltac:(lia)) as [_ [Hc _]].
      unfold len in *. nia. }
  intros k share Hk.
  rewrite list_lookup_fmap in Hk.
  destruct (seqZ 0 m !! k) as [i|] eqn:Hi; [|done].
  apply lookup_seqZ in Hi as [-> Hkm]. cbn in Hk. inversion Hk; subst share; clear Hk.
  rewrite Z.add_0_l. split; [reflexivity|].
  rewrite the_share_length by lia.
  assert (Hne : share_start chunkSize (Z.of_nat k) < share_end (len filePaths) chunkSize (Z.of_nat k)).
  { apply share_nonempty_iff; lia. }
  unfold share_start, share_end in *.
  split; [nia|].
  rewrite length_fmap, length_seqZ. intros Hlast.
  assert (Hnext : share_start chunkSize (Z.of_nat k + 1) < share_end (len filePaths) chunkSize (Z.of_nat k + 1)).
  { apply share_nonempty_iff; lia. }
  unfold share_start, share_end in Hnext. nia.
Qed.

(** C6.  Worker [i] is launched exactly when its start index is below
    its end index; when there are more threads than files the threads
    launched are the first [len(filePaths)] ones and the others are
    never started. *)
Theorem empty_share_not_launched (filePaths : list string) (numThreads : Z) (fuel : nat) :
  0 < numThreads ->
  len filePaths + numThreads <= Int.max_int ->
  (Z.to_nat numThreads <= fuel)%nat ->
  let chunkSize := ceil_div (len filePaths) numThreads in
  exists shares,
    main_launches fuel filePaths numThreads = Ret shares /\
    (forall i, 0 <= i < numThreads ->
       (exists share, share ∈ shares /\ threadID share = i + 1) <->
       share_start chunkSize i < share_end (len filePaths) chunkSize i) /\
    (len filePaths < numThreads ->
       threadID <$> shares = (fun i => i + 1) <$> seqZ 0 (len filePaths)).
Proof.
  intros Hn Hmax Hfuel chunkSize.
  pose proof (len_nonneg filePaths) as Hl.
  destruct (ceil_div_bounds (len filePaths) numThreads Hl Hn) as [Hcs _].
  fold chunkSize in Hcs.
  pose proof (launched_count_le (len filePaths) numThreads Hl Hn) as Hm.
  fold chunkSize in Hm.
  exists (the_share filePaths chunkSize <$> seqZ 0 (launched_count (len filePaths) chunkSize)).
  split; [by apply main_launches_prefix|].
  split.
  - intros i Hi. rewrite share_nonempty_iff by lia. split.
    + intros (share & Hin & Hid). apply list_elem_of_fmap in Hin as (j & -> & Hj).
      apply elem_of_seqZ in Hj. cbn in Hid. lia.
    + intros Hlt. exists (the_share filePaths chunkSize i). split; [|reflexivity].
      apply list_elem_of_fmap. exists i. split; [reflexivity|].
      apply elem_of_seqZ. lia.
  - intros Hmore. unfold chunkSize.
    rewrite launched_count_more_threads by lia.
    rewrite <- list_fmap_compose. reflexivity.
Qed.

(** *** [strings.TrimPrefix] on a path below the prefix *)




Section Runner.

Context {World Image : Type} `{!OS World} `{!Paths} `{!Imaging Image}.

Implicit Types s : state World.

(** *** What the calls of the environment leave alone *)

Lemma same_vars_refl s : same_vars s s.
Proof. by repeat split. Qed.

Lemma same_vars_trans s1 s2 s3 : same_vars s1 s2 -> same_vars s2 s3 -> same_vars s1 s3.
Proof. unfold same_vars. intros (-> & -> & ->) (-> & -> & ->). done. Qed.

Lemma Stat_vars path s : same_vars s (Stat path s).1.
Proof. by repeat split. Qed.

Lemma MkdirAll_vars path s : same_vars s (MkdirAll path s).
Proof. by repeat split. Qed.

Lemma Open_vars path s : same_vars s (Open path s).1.
Proof. by repeat split. Qed.

Lemma ReadFile_vars path s : same_vars s (ReadFile path s).1.
Proof. by repeat split. Qed.

Lemma Create_vars path s : same_vars s (Create path s).1.
Proof. unfold Create. destruct (os_Create path (world s)). by repeat split. Qed.

Lemma Write_vars path data s : same_vars s (Write path data s).1.
Proof. unfold Write. destruct (file_Write path data (world s)). by repeat split. Qed.

Lemma addWatermark_vars (img : Image) text fontPath s :
  same_vars s (addWatermark img text fontPath s).1.
Proof.
  unfold addWatermark. cbn.
  destruct (ioutil_ReadFile fontPath (world s)); by repeat split.
Qed.

Lemma encode_to_vars outputPath format (img : Image) s :
  same_vars s (encode_to outputPath format img s).1.
Proof.
  unfold encode_to.
  pose proof (Create_vars outputPath s) as HC.
  destruct (Create outputPath s) as [s1 [|]]; cbn in HC; [|exact HC].
  destruct (if String.eqb format "jpeg" then _ else _) as [[data|]|]; try exact HC.
  pose proof (Write_vars outputPath data s1) as HW.
  destruct (Write outputPath data s1) as [s2 [|]]; cbn in HW;
    exact (same_vars_trans _ _ _ HC HW).
Qed.

Lemma compressImage_vars inputPath outputPath maxPixels watermarkText fontPath s :
  same_vars s
    (compressImage (Image := Image) inputPath outputPath maxPixels watermarkText fontPath s).1.
Proof.
  unfold compressImage, Open.
  destruct (os_Open inputPath (world s)) as [data|]; [|by repeat split].
  destruct (image_Decode data) as [[img format]|]; [|by repeat split].
  set (s0 := log (EvOpen inputPath) s).
  assert (H0 : same_vars s s0) by by repeat split.
  destruct (negb (String.eqb watermarkText "")).
  - pose proof (addWatermark_vars (resized img maxPixels) watermarkText fontPath s0) as HW.
    destruct (addWatermark _ _ _ s0) as [s1 [img1|]]; cbn in HW.
    + eapply same_vars_trans; [exact H0|]. eapply same_vars_trans; [exact HW|].
      apply encode_to_vars.
    + cbn [fst]. exact (same_vars_trans _ _ _ H0 HW).
  - eapply same_vars_trans; [exact H0|]. apply encode_to_vars.
Qed.


(** *** One item *)

Lemma record_failure_free path s :
  mu s = false ->
  record_failure path s
  = Ret (mkState (world s) (trace s) (bar s) (failedFiles s ++ [path]) false).
Proof. intros Hmu. unfold record_failure, mu_Lock. rewrite Hmu. reflexivity. Qed.

Variables (outputDir inputDir watermarkText fontPath : string) (maxPixels : Z).

Abbreviation body := (compressImages_file (Image := Image)
                        outputDir inputDir watermarkText fontPath maxPixels).
Abbreviation outcome := (item_outcome (Image := Image)
                        outputDir inputDir watermarkText fontPath maxPixels).

(** The effect of the loop body on the variables, by outcome. *)
Lemma compressImages_file_effect path s total :
  mu s = false ->
  exists s' total',
    body path (s, total) = Ret (s', total') /\
    mu s' = false /\
    failedFiles s' = (match outcome path s with
                      | Failure p => failedFiles s ++ [p]
                      | _ => failedFiles s
                      end) /\
    bar s' = (match outcome path s with
              | Success _ => bar s + 1
              | _ => bar s
              end) /\
    total' = (match outcome path s with
              | Success (Some n) => Int.add total n
              | _ => total
              end).
Proof.
  intros Hmu. unfold compressImages_file, item_outcome. cbn [Stat].
  destruct (os_Stat path (world s)) as [info|].
  2:{ rewrite record_failure_free by exact Hmu.
      eexists _, _. split; [reflexivity|]. by repeat split. }
  destruct (accepted info).
  2:{ eexists _, _. split; [reflexivity|]. by repeat split. }
  set (s1 := MkdirAll _ _).
  assert (H1 : same_vars s s1) by by repeat split.
  pose proof (compressImage_vars path
    (filepath_Join outputDir (strings_TrimPrefix path inputDir))
    maxPixels watermarkText fontPath s1) as H2.
  destruct (compressImage _ _ _ _ _ s1) as [s2 [err|]]; cbn [fst] in H2.
  - destruct (same_vars_trans _ _ _ H1 H2) as (Hb & Hf & Hm).
    rewrite record_failure_free by congruence.
    eexists _, _. split; [reflexivity|]. cbn. rewrite Hf, Hb. by repeat split.
  - destruct (same_vars_trans _ _ _ H1 H2) as (Hb & Hf & Hm).
    cbn [Stat bar_Add world snd fst].
    destruct (os_Stat _ (world s2)) as [info'|]; cbn;
      (eexists _, _; split; [reflexivity|]); cbn; rewrite Hf, Hb, Hm;
      by repeat split.
Qed.

(** *** A whole share *)

Lemma range_batch_app (f : string -> state World * Z -> run (state World * Z)) l1 l2 acc :
  range_batch f (l1 ++ l2) acc
  = (acc' ← range_batch f l1 acc; range_batch f l2 acc').
Proof.
  revert acc. induction l1 as [|p l1 IH]; intros acc; [reflexivity|].
  cbn. destruct (f p acc) as [acc1| |]; cbn; [apply IH|done|done].
Qed.

Lemma count_cons p (o : Outcome) os :
  count p (o :: os) = (if p o then 1 else 0) + count p os.
Proof.
  unfold count, len. rewrite filter_cons.
  destruct (p o); case_decide; try done; cbn [length]; lia.
Qed.

Lemma failed_paths_cons (o : Outcome) os :
  failed_paths (o :: os) = failed_paths [o] ++ failed_paths os.
Proof. unfold failed_paths. cbn. by destruct o. Qed.

Lemma outcomes_cons path files acc acc' :
  body path acc = Ret acc' ->
  outcomes (Image := Image) outputDir inputDir watermarkText fontPath maxPixels
    (path :: files) acc
  = outcome path acc.1
    :: outcomes (Image := Image) outputDir inputDir watermarkText fontPath
         maxPixels files acc'.
Proof. intros H1. cbn [outcomes]. by rewrite H1. Qed.

Lemma range_batch_effect files :
  forall s total,
    mu s = false ->
    exists s' total',
      range_batch body files (s, total) = Ret (s', total') /\
      mu s' = false /\
      let os := outcomes (Image := Image) outputDir inputDir watermarkText
                  fontPath maxPixels files (s, total) in
      length os = length files /\
      failedFiles s' = failedFiles s ++ failed_paths os /\
      bar s' = bar s + count is_success os /\
      Int.wrap total' = Int.wrap (total + sum_bytes os) /\
      (Int.in_range total -> Int.in_range total').
Proof.
  induction files as [|path files IH]; intros s total Hmu.
  - exists s, total. cbn. rewrite app_nil_r, Z.add_0_r.
    change (count is_success []) with 0. rewrite Z.add_0_r.
    split; [done|]. split; [done|]. split; [done|]. split; [done|]. by split.
  - destruct (compressImages_file_effect path s total Hmu)
      as (s1 & t1 & Hstep & Hmu1 & Hf1 & Hb1 & Ht1).
    destruct (IH s1 t1 Hmu1) as (s2 & t2 & Hrest & Hmu2 & Hlen & Hf2 & Hb2 & Ht2 & Hr2).
    exists s2, t2.
    split; [cbn [range_batch]; rewrite Hstep; exact Hrest|].
    split; [exact Hmu2|].
    cbv zeta. rewrite (outcomes_cons _ _ _ _ Hstep). cbn [fst].
    set (os := outcomes _ _ _ _ _ files (s1, t1)) in *.
    split; [cbn [length]; by rewrite Hlen|].
    split.
    { rewrite Hf2, Hf1, failed_paths_cons.
      destruct (outcome path s) as [[n|]| |]; cbn;
        rewrite <- ?app_assoc; reflexivity. }
    split.
    { rewrite Hb2, Hb1, count_cons.
      destruct (outcome path s) as [[n|]| |]; cbn; lia. }
    split.
    { rewrite Ht2. cbn [sum_bytes foldr]. fold (sum_bytes os).
      rewrite Ht1. destruct (outcome path s) as [[n|]| |]; cbn [bytes_of];
      rewrite ?Z.add_0_l; try reflexivity.
      unfold Int.add. rewrite Int_wrap_add_l. f_equal. lia. }
    { intros Hr. apply Hr2. rewrite Ht1.
      destruct (outcome path s) as [[n|]| |]; try assumption. apply Int_wrap_range. }
Qed.

End Runner.

Section Batches.

Context {World Image : Type} `{!OS World} `{!Paths} `{!Imaging Image}.

Lemma batch_loop_unbatched (body : string -> state World * Z -> run (state World * Z))
    (files : list string) (filesPerBatch : Z) :
  0 < filesPerBatch ->
  len files + filesPerBatch <= Int.max_int ->
  forall fuel i acc,
    0 <= i ->
    (Z.to_nat (len files - i) <= fuel)%nat ->
    batch_loop fuel body files filesPerBatch i acc
    = range_batch body (drop (Z.to_nat i) files) acc.
Proof.
  intros Hpos Hmax fuel.
  assert (Hmax' : Int.max_int = 2 ^ 63 - 1) by reflexivity.
  assert (Hmin : Int.min_int = - 2 ^ 63) by reflexivity.
  induction fuel as [|fuel IH]; intros i acc Hi Hfuel.
  - cbn. destruct (Z.ltb_spec i (len files)); [lia|]. cbn.
    rewrite drop_ge by (unfold len in *; lia). reflexivity.
  - cbn [batch_loop]. destruct (Z.ltb_spec i (len files)) as [Hlt|Hge]; cbn [negb].
    2:{ rewrite drop_ge by (unfold len in *; lia). reflexivity. }
    rewrite (Int_add_small i filesPerBatch) by (unfold Int.in_range; lia).
    set (end_ := if i + filesPerBatch >? len files then len files else i + filesPerBatch).
    assert (Hend : i < end_ <= len files /\ end_ <= i + filesPerBatch).
    { subst end_. destruct (Z.gtb_spec (i + filesPerBatch) (len files)); lia. }
    unfold go_slice.
    destruct (Z.leb_spec 0 i); [|lia].
    destruct (Z.leb_spec i end_); [|lia].
    destruct (Z.leb_spec end_ (len files)); [|lia].
    cbn [andb mbind run_bind].
    rewrite <- (take_drop (Z.to_nat (end_ - i)) (drop (Z.to_nat i) files)) at 2.
    rewrite range_batch_app.
    destruct (range_batch body (take _ _) acc) as [acc1| |];
      cbn [mbind run_bind]; [|reflexivity|reflexivity].
    rewrite IH by lia.
    rewrite drop_drop.
    destruct (Z.gtb_spec (i + filesPerBatch) (len files)) as [Hgt|Hle]; subst end_.
    + rewrite !drop_ge; [reflexivity | unfold len in *; lia | unfold len in *; lia].
    + do 2 f_equal. lia.
Qed.

Lemma compressImages_sized_unbatched batchSize fuel threadID files
    outputDir inputDir watermarkText fontPath maxPixels (s : state World) :
  0 < batchSize ->
  2 * len files <= Int.max_int ->
  (length files <= fuel)%nat ->
  compressImages_sized (Image := Image) batchSize fuel threadID files outputDir
    inputDir watermarkText fontPath maxPixels s
  = run_item_by_item (Image := Image) files outputDir inputDir watermarkText
      fontPath maxPixels s.
Proof.
  intros Hbs Hmax Hfuel. unfold compressImages_sized, run_item_by_item.
  f_equal.
  destruct files as [|path files].
  - cbn. destruct fuel; reflexivity.
  - set (fs := path :: files) in *.
    assert (Hlen : 0 < len fs) by (unfold len; cbn; lia).
    rewrite batch_loop_unbatched; [reflexivity| | |lia|unfold len; lia].
    + destruct (Z.ltb_spec (len fs) batchSize); lia.
    + destruct (Z.ltb_spec (len fs) batchSize); lia.
Qed.

End Batches.

Section Worker.

Context {World Image : Type} `{!OS World} `{!Paths} `{!Imaging Image}.
Variables (outputDir inputDir watermarkText fontPath : string) (maxPixels : Z).

Abbreviation body := (compressImages_file (Image := Image)
                        outputDir inputDir watermarkText fontPath maxPixels).
Abbreviation outcome := (item_outcome (Image := Image)
                        outputDir inputDir watermarkText fontPath maxPixels).
Abbreviation outcomes_of := (outcomes (Image := Image)
                        outputDir inputDir watermarkText fontPath maxPixels).

Lemma range_batch_at (k : nat) : forall files path (s : state World) total,
  mu s = false ->
  files !! k = Some path ->
  exists sk tk sk1 tk1,
    range_batch body (take k files) (s, total) = Ret (sk, tk) /\
    mu sk = false /\
    body path (sk, tk) = Ret (sk1, tk1) /\
    mu sk1 = false /\
    range_batch body files (s, total)
    = range_batch body (drop (S k) files) (sk1, tk1) /\
    outcomes_of files (s, total) !! k = Some (outcome path sk).
Proof.
  induction k as [|k IH]; intros files path s total Hmu Hk.
  - destruct files as [|p files]; [done|]. cbn in Hk. inversion Hk; subst p.
    destruct (compressImages_file_effect outputDir inputDir watermarkText fontPath
                maxPixels path s total Hmu) as (s1 & t1 & Hstep & Hmu1 & _).
    exists s, total, s1, t1. cbn [take range_batch drop].
    rewrite Hstep. repeat split; try done.
  - destruct files as [|p files]; [done|]. cbn in Hk.
    destruct (compressImages_file_effect outputDir inputDir watermarkText fontPath
                maxPixels p s total Hmu) as (s1 & t1 & Hstep & Hmu1 & _).
    destruct (IH files path s1 t1 Hmu1 Hk)
      as (sk & tk & sk1 & tk1 & Hpre & Hmuk & Hbody & Hmuk1 & Hall & Hout).
    exists sk, tk, sk1, tk1. cbn [take range_batch drop outcomes].
    rewrite Hstep. cbn [mbind run_bind].
    repeat split; try done.
Qed.

Lemma count_partition (os : list Outcome) :
  count is_failure os + count is_success os + count is_skipped os = len os.
Proof.
  induction os as [|o os IH]; [reflexivity|].
  rewrite !count_cons. unfold len in *. cbn [length].
  destruct o; cbn; lia.
Qed.

Lemma failed_paths_count (os : list Outcome) :
  len (failed_paths os) = count is_failure os.
Proof.
  induction os as [|o os IH]; [reflexivity|].
  rewrite failed_paths_cons, count_cons. unfold len in *.
  rewrite length_app. destruct o; cbn; lia.
Qed.

Lemma compressImages_returns fuel threadID files (s : state World) :
  2 * len files <= Int.max_int ->
  (length files <= fuel)%nat ->
  mu s = false ->
  exists s' total,
    compressImages (Image := Image) fuel threadID files outputDir inputDir
      watermarkText fontPath maxPixels s = Ret (s', (total, None)) /\
    range_batch body files (s, 0) = Ret (s', total) /\
    mu s' = false /\
    failedFiles s' = failedFiles s ++ failed_paths (outcomes_of files (s, 0)) /\
    bar s' = bar s + count is_success (outcomes_of files (s, 0)) /\
    total = Int.wrap (sum_bytes (outcomes_of files (s, 0))) /\
    length (outcomes_of files (s, 0)) = length files.
Proof.
  intros Hmax Hfuel Hmu. unfold compressImages.
  rewrite compressImages_sized_unbatched by (try assumption; reflexivity).
  unfold run_item_by_item.
  destruct (range_batch_effect outputDir inputDir watermarkText fontPath maxPixels
              files s 0 Hmu) as (s' & total & Hrun & Hmu' & Hlen & Hf & Hb & Ht & Hr).
  exists s', total. rewrite Hrun. cbn [mbind run_bind].
  repeat split; try done.
  rewrite Z.add_0_l in Ht. rewrite <- Ht. symmetry. apply Int_wrap_small.
  apply Hr. unfold Int.in_range, Int.min_int, Int.max_int. lia.
Qed.

(** C9.  For every share and every [batchSize > 0], the batched loop of
    [compressImages] returns, and returns the very state (world, calls
    made, progress, failed files) and total that processing the share
    item by item, in order, returns. *)
Theorem batching_is_invisible batchSize fuel threadID files (s : state World) :
  0 < batchSize ->
  2 * len files <= Int.max_int ->
  (length files <= fuel)%nat ->
  mu s = false ->
  exists s' total,
    run_item_by_item (Image := Image) files outputDir inputDir watermarkText
      fontPath maxPixels s = Ret (s', (total, None)) /\
    compressImages_sized (Image := Image) batchSize fuel threadID files
      outputDir inputDir watermarkText fontPath maxPixels s
    = Ret (s', (total, None)).
Proof.
  intros Hbs Hmax Hfuel Hmu.
  rewrite compressImages_sized_unbatched by assumption.
  unfold run_item_by_item.
  destruct (range_batch_effect outputDir inputDir watermarkText fontPath maxPixels
              files s 0 Hmu) as (s' & total & Hrun & _).
  exists s', total. rewrite Hrun. by split.
Qed.

(** C1 (amended).  [compressImages] returns, and every item of its share
    has exactly one of three outcomes: a failure, which appends one path
    to [failedFiles]; a success, which advances the progress bar by one;
    or nothing at all, for an item that exists but is a directory or has
    no [.jpg]/[.png] name.  So the failures recorded plus the successes
    plus the items passed over equal the number of items. *)
Theorem outcomes_account_for_every_item fuel threadID files (s : state World) :
  2 * len files <= Int.max_int ->
  (length files <= fuel)%nat ->
  mu s = false ->
  exists s' total,
    compressImages (Image := Image) fuel threadID files outputDir inputDir
      watermarkText fontPath maxPixels s = Ret (s', (total, None)) /\
    let os := outcomes_of files (s, 0) in
    length os = length files /\
    failedFiles s' = failedFiles s ++ failed_paths os /\
    len (failedFiles s') - len (failedFiles s) = count is_failure os /\
    bar s' - bar s = count is_success os /\
    count is_failure os + count is_success os + count is_skipped os = len files.
Proof.
  intros Hmax Hfuel Hmu.
  destruct (compressImages_returns fuel threadID files s Hmax Hfuel Hmu)
    as (s' & total & Hrun & _ & _ & Hf & Hb & _ & Hlen).
  exists s', total. split; [exact Hrun|]. cbv zeta.
  split; [exact Hlen|]. split; [exact Hf|].
  split.
  { rewrite Hf. unfold len at 1 2. rewrite length_app.
    rewrite <- failed_paths_count. unfold len. lia. }
  split; [lia|].
  rewrite count_partition. unfold len. by rewrite Hlen.
Qed.



(** C10.  The size [compressImages] returns is the (64-bit) sum of the
    sizes reported by the [os.Stat] calls that follow a successful
    [compressImage]; an item compressed successfully whose output cannot
    be inspected is a success, advances the progress bar by one, adds
    nothing to the total and is not recorded as failed. *)
Theorem unstatable_output_adds_no_bytes fuel threadID files (s : state World) :
  2 * len files <= Int.max_int ->
  (length files <= fuel)%nat ->
  mu s = false ->
  exists s' total,
    compressImages (Image := Image) fuel threadID files outputDir inputDir
      watermarkText fontPath maxPixels s = Ret (s', (total, None)) /\
    let os := outcomes_of files (s, 0) in
    total = Int.wrap (sum_bytes os) /\
    (Int.in_range (sum_bytes os) -> total = sum_bytes os) /\
    bar s' = bar s + count is_success os /\
    forall (k : nat) path,
      files !! k = Some path ->
      exists sk tk sk1 tk1,
        range_batch body (take k files) (s, 0) = Ret (sk, tk) /\
        body path (sk, tk) = Ret (sk1, tk1) /\
        (output_unstatable (Image := Image) outputDir inputDir watermarkText
           fontPath maxPixels path sk ->
         os !! k = Some (Success None) /\
         bar sk1 = bar sk + 1 /\ tk1 = tk /\ failedFiles sk1 = failedFiles sk).
Proof.
  intros Hmax Hfuel Hmu.
  destruct (compressImages_returns fuel threadID files s Hmax Hfuel Hmu)
    as (s' & total & Hrun & Hall & _ & _ & Hb & Ht & _).
  exists s', total. split; [exact Hrun|]. cbv zeta.
  split; [exact Ht|].
  split; [intros Hin; rewrite Ht; by apply Int_wrap_small|].
  split; [exact Hb|].
  intros k path Hk.
  destruct (range_batch_at k files path s 0 Hmu Hk)
    as (sk & tk & sk1 & tk1 & Hpre & Hmuk & Hbody & Hmuk1 & Hsplit & Hout).
  exists sk, tk, sk1, tk1.
  split; [exact Hpre|]. split; [exact Hbody|].
  intros (info & Hstat & Hacc & Hres & Hstat2).
  destruct (compressImages_file_effect outputDir inputDir watermarkText fontPath
              maxPixels path sk tk Hmuk) as (s1 & t1 & Hstep & _ & Hf1 & Hb1 & Ht1).
  assert (sk1 = s1 /\ tk1 = t1) as [-> ->] by (rewrite Hbody in Hstep; by inversion Hstep).
  assert (Ho : outcome path sk = Success None).
  { unfold item_outcome. cbn [Stat]. rewrite Hstat, Hacc.
    unfold compress_result, before_compress in Hres, Hstat2. cbn [Stat fst] in Hres, Hstat2.
    destruct (compressImage _ _ _ _ _ _) as [s2 [e|]]; [done|].
    cbn [fst snd Stat bar_Add world] in *. by rewrite Hstat2. }
  rewrite Hout, Ho. rewrite Ho in Hf1, Hb1, Ht1. by repeat split.
Qed.

End Worker.

Section Transform.

Context {World Image : Type} `{!OS World} `{!Paths} `{!Imaging Image}.

Lemma encode_to_trace outputPath format (img : Image) (s : state World) :
  exists evs,
    trace (encode_to outputPath format img s).1 = trace s ++ evs /\
    forallb (fun e => negb (is_ReadFile e)) evs = true /\
    ((encode_to outputPath format img s).2 = None ->
     exists data,
       (if String.eqb format "jpeg" then jpeg_Encode img 80
        else if String.eqb format "png" then png_Encode img else None) = Some data /\
       evs = [EvCreate outputPath; EvWrite outputPath data]).
Proof.
  unfold encode_to, Create.
  destruct (os_Create outputPath (world s)) as [w1 [|]]; cbn [fst snd].
  2:{ exists [EvCreate outputPath]. by repeat split. }
  destruct (String.eqb format "jpeg").
  - destruct (jpeg_Encode img 80) as [data|].
    + unfold Write. cbn [world set_world log].
      destruct (file_Write outputPath data w1) as [w2 [|]]; cbn;
        exists [EvCreate outputPath; EvWrite outputPath data];
        rewrite <- app_assoc; repeat split; try done. by exists data.
    + exists [EvCreate outputPath]. by repeat split.
  - destruct (String.eqb format "png").
    + destruct (png_Encode img) as [data|].
      * unfold Write. cbn [world set_world log].
        destruct (file_Write outputPath data w1) as [w2 [|]]; cbn;
          exists [EvCreate outputPath; EvWrite outputPath data];
          rewrite <- app_assoc; repeat split; try done. by exists data.
      * exists [EvCreate outputPath]. by repeat split.
    + exists [EvCreate outputPath]. by repeat split.
Qed.

(** C7.  With an empty watermark text [compressImage] is the
    decode-resize-encode path without any watermark step, and none of
    the calls it makes reads a font file, whatever the font path. *)
Theorem empty_watermark_never_reads_font inputPath outputPath maxPixels fontPath
    (s : state World) :
  compressImage (Image := Image) inputPath outputPath maxPixels "" fontPath s
  = resize_and_reencode (Image := Image) inputPath outputPath maxPixels s /\
  exists evs,
    trace (compressImage (Image := Image) inputPath outputPath maxPixels ""
             fontPath s).1 = trace s ++ evs /\
    forall path, EvReadFile path ∉ evs.
Proof.
  split; [reflexivity|].
  unfold compressImage, Open. cbn [String.eqb negb].
  assert (Hno : forall evs, forallb (fun e => negb (is_ReadFile e)) evs = true ->
                 forall path, EvReadFile path ∉ evs).
  { intros evs Hall path Hin. rewrite forallb_forall in Hall.
    apply list_elem_of_In in Hin. by apply Hall in Hin. }
  destruct (os_Open inputPath (world s)) as [data|].
  2:{ exists [EvOpen inputPath]. split; [reflexivity|]. by apply Hno. }
  destruct (image_Decode data) as [[img format]|].
  2:{ exists [EvOpen inputPath]. split; [reflexivity|]. by apply Hno. }
  destruct (encode_to_trace outputPath format (resized img maxPixels)
              (log (EvOpen inputPath) s)) as (evs & Htr & Hevs & _).
  exists (EvOpen inputPath :: evs). rewrite Htr. cbn [log trace].
  rewrite <- app_assoc. split; [reflexivity|]. by apply Hno.
Qed.

(** C8.  Two runs of [compressImage] with the same arguments, in states
    where the input file and the font file read the same, that both
    return [nil], end by writing the same bytes to the output file; so
    the outputs have equal size. *)
Theorem transform_is_deterministic inputPath outputPath maxPixels watermarkText
    fontPath (s1 s2 : state World) :
  os_Open inputPath (world s1) = os_Open inputPath (world s2) ->
  ioutil_ReadFile fontPath (world s1) = ioutil_ReadFile fontPath (world s2) ->
  (compressImage (Image := Image) inputPath outputPath maxPixels watermarkText
     fontPath s1).2 = None ->
  (compressImage (Image := Image) inputPath outputPath maxPixels watermarkText
     fontPath s2).2 = None ->
  exists data,
    last (trace (compressImage (Image := Image) inputPath outputPath maxPixels
                   watermarkText fontPath s1).1) = Some (EvWrite outputPath data) /\
    last (trace (compressImage (Image := Image) inputPath outputPath maxPixels
                   watermarkText fontPath s2).1) = Some (EvWrite outputPath data).
Proof.
  intros Hin Hfont. unfold compressImage, Open, addWatermark, ReadFile.
  cbn [log world].
  rewrite <- Hin, <- Hfont.
  destruct (os_Open inputPath (world s1)) as [input|]; [|done].
  destruct (image_Decode input) as [[img format]|]; [|done].
  assert (Hend : forall (img' : Image) (sa sb : state World),
    (encode_to outputPath format img' sa).2 = None ->
    (encode_to outputPath format img' sb).2 = None ->
    exists data,
      last (trace (encode_to outputPath format img' sa).1) = Some (EvWrite outputPath data) /\
      last (trace (encode_to outputPath format img' sb).1) = Some (EvWrite outputPath data)).
  { intros img' sa sb Ha Hb.
    destruct (encode_to_trace outputPath format img' sa) as (ea & Hta & _ & Hda).
    destruct (encode_to_trace outputPath format img' sb) as (eb & Htb & _ & Hdb).
    destruct (Hda Ha) as (da & Hea & ->). destruct (Hdb Hb) as (db & Heb & ->).
    assert (da = db) as -> by congruence.
    exists db. rewrite Hta, Htb.
    change [EvCreate outputPath; EvWrite outputPath db]
      with ([EvCreate outputPath] ++ [EvWrite outputPath db]).
    rewrite !app_assoc, !last_snoc. done. }
  destruct (negb (String.eqb watermarkText "")).
  - destruct (ioutil_ReadFile fontPath (world s1)) as [font|]; [|done].
    destruct (draw_watermark (resized img maxPixels) watermarkText font) as [img'|]; [|done].
    apply Hend.
  - apply Hend.
Qed.

End Transform.

Module AggregatorFacts.
Import Aggregator.

Lemma sum_app l1 l2 : sum (l1 ++ l2) = sum l1 + sum l2.
Proof. unfold sum. induction l1 as [|x l1 IH]; cbn; lia. Qed.

Lemma sizes_app a1 a2 : sizes (a1 ++ a2) = sizes a1 ++ sizes a2.
Proof. apply omap_app. Qed.

Lemma paths_app a1 a2 : paths (a1 ++ a2) = paths a1 ++ paths a2.
Proof. apply omap_app. Qed.

Lemma pending_size_init ws :
  pending_size (mkThread Idle <$> ws) = sum (sizes (concat ws)).
Proof.
  induction ws as [|w ws IH]; [reflexivity|].
  change (sum (sizes w) + pending_size (mkThread Idle <$> ws)
          = sum (sizes (w ++ concat ws))).
  rewrite sizes_app, sum_app, IH. reflexivity.
Qed.

Lemma pending_paths_init ws :
  pending_paths (mkThread Idle <$> ws) = paths (concat ws).
Proof.
  induction ws as [|w ws IH]; [reflexivity|].
  unfold pending_paths in *. cbn. by rewrite paths_app, IH.
Qed.

Lemma sizes_RecordFailure p acts : sizes (RecordFailure p :: acts) = sizes acts.
Proof. reflexivity. Qed.

Lemma sizes_AddSize n acts : sizes (AddSize n :: acts) = n :: sizes acts.
Proof. reflexivity. Qed.

Lemma paths_RecordFailure p acts : paths (RecordFailure p :: acts) = p :: paths acts.
Proof. reflexivity. Qed.

Lemma paths_AddSize n acts : paths (AddSize n :: acts) = paths acts.
Proof. reflexivity. Qed.

Lemma sum_cons n l : sum (n :: l) = n + sum l.
Proof. reflexivity. Qed.

Lemma pending_size_cons th ths :
  pending_size (th :: ths) = sum (sizes (todo th)) + pending_size ths.
Proof. reflexivity. Qed.

Lemma pending_paths_cons th ths :
  pending_paths (th :: ths) = paths (todo th) ++ pending_paths ths.
Proof. reflexivity. Qed.

Lemma pending_size_insert ths t th th' :
  ths !! t = Some th ->
  pending_size (<[t := th']> ths)
  = pending_size ths - sum (sizes (todo th)) + sum (sizes (todo th')).
Proof.
  revert t. induction ths as [|x ths IH]; intros [|t] H; try done.
  - cbn in H. inversion H; subst.
    change (<[0%nat:=th']> (th :: ths)) with (th' :: ths).
    rewrite !pending_size_cons. lia.
  - cbn in H. change (<[S t:=th']> (x :: ths)) with (x :: <[t:=th']> ths).
    rewrite !pending_size_cons, (IH t H). lia.
Qed.

Lemma pending_paths_same ths t th th' :
  ths !! t = Some th ->
  paths (todo th') = paths (todo th) ->
  pending_paths (<[t := th']> ths) = pending_paths ths.
Proof.
  revert t. induction ths as [|x ths IH]; intros [|t] H Heq; try done.
  - cbn in H. inversion H; subst.
    change (<[0%nat:=th']> (th :: ths)) with (th' :: ths).
    by rewrite !pending_paths_cons, Heq.
  - cbn in H. change (<[S t:=th']> (x :: ths)) with (x :: <[t:=th']> ths).
    by rewrite !pending_paths_cons, (IH t H Heq).
Qed.

Lemma pending_paths_pop ths t th th' p :
  ths !! t = Some th ->
  paths (todo th) = p :: paths (todo th') ->
  pending_paths ths ≡ₚ p :: pending_paths (<[t := th']> ths).
Proof.
  revert t. induction ths as [|x ths IH]; intros [|t] H Heq; try done.
  - cbn in H. inversion H; subst.
    change (<[0%nat:=th']> (th :: ths)) with (th' :: ths).
    by rewrite !pending_paths_cons, Heq.
  - cbn in H. change (<[S t:=th']> (x :: ths)) with (x :: <[t:=th']> ths).
    rewrite !pending_paths_cons, (IH t H Heq).
    by rewrite Permutation_middle.
Qed.

Lemma init_invariant ws :
  invariant (sum (sizes (concat ws))) (paths (concat ws)) (init ws).
Proof.
  split; cbn [init mem threads compressedTotalSize failedFiles mu].
  - intros t th Hth Hpos. rewrite list_lookup_fmap in Hth.
    destruct (ws !! t); inversion Hth; subst. done.
  - intros t th Hth. rewrite list_lookup_fmap in Hth.
    destruct (ws !! t); inversion Hth; subst. done.
  - unfold Int.in_range, Int.min_int, Int.max_int. lia.
  - by rewrite pending_size_init.
  - by rewrite pending_paths_init, app_nil_l.
Qed.

(** Only the owner of the lock is away from [Idle]. *)
Lemma others_idle size failed c t th t' th' :
  invariant size failed c ->
  threads c !! t = Some th -> pos th <> Idle ->
  threads c !! t' = Some th' -> t' <> t -> pos th' = Idle.
Proof.
  intros Hinv Ht Hpos Ht' Hne.
  destruct (pos th') eqn:Hp; try reflexivity;
    (pose proof (inv_owner _ _ _ Hinv t th Ht Hpos) as H1;
     pose proof (inv_owner _ _ _ Hinv t' th' Ht' ltac:(congruence)) as H2;
     congruence).
Qed.

Lemma step_invariant size failed t c c' :
  invariant size failed c -> step t c = Some c' -> invariant size failed c'.
Proof.
  intros Hinv Hstep. unfold step in Hstep.
  destruct (threads c !! t) as [th|] eqn:Hth; [|done]. cbn in Hstep.
  destruct (step_thread t th (mem c)) as [[th' m']|] eqn:Hst; [|done].
  cbn in Hstep. inversion Hstep; subst c'; clear Hstep.
  pose proof (lookup_lt_Some _ _ _ Hth) as Hlt.
  assert (Hcase :
    (pos th = Idle /\ mu (mem c) = None /\ pos th' = Locked /\ todo th' = todo th /\
     m' = mkShared (compressedTotalSize (mem c)) (failedFiles (mem c)) (Some t)) \/
    (pos th = Locked /\ m' = mem c /\ todo th' = todo th /\ coherent (mem c) th' /\
     pos th' <> Idle) \/
    (exists p, pos th = LoadedFiles (failedFiles (mem c)) /\ pos th' = Stored /\
       todo th = RecordFailure p :: todo th' /\
       m' = mkShared (compressedTotalSize (mem c)) (failedFiles (mem c) ++ [p]) (mu (mem c))) \/
    (exists n, pos th = LoadedSize (compressedTotalSize (mem c)) /\ pos th' = Stored /\
       todo th = AddSize n :: todo th' /\
       m' = mkShared (Int.add (compressedTotalSize (mem c)) n) (failedFiles (mem c)) (mu (mem c))) \/
    (pos th = Stored /\ pos th' = Idle /\ todo th' = todo th /\
     m' = mkShared (compressedTotalSize (mem c)) (failedFiles (mem c)) None)).
  { pose proof (inv_coherent _ _ _ Hinv t th Hth) as Hco. unfold coherent in Hco.
    unfold step_thread in Hst.
    destruct (pos th) eqn:Hp, (todo th) as [|[p|n] rest] eqn:Htd; try done;
      try (destruct (mu (mem c)) eqn:Hmu; [done|]);
      inversion Hst; subst; cbn.
    - left. by repeat split.
    - left. by repeat split.
    - right; left. by repeat split.
    - right; left. by repeat split.
    - right; right; left. exists p. by repeat split.
    - right; right; right; left. exists n. by repeat split.
    - right; right; right; right. by repeat split.
    - right; right; right; right. by repeat split.
    - right; right; right; right. by repeat split. }
  destruct Hcase as [(Hp & Hmu & Hp' & Htd & ->) | [(Hp & -> & Htd & Hco & Hp')
    | [(p & Hp & Hp' & Htd & ->) | [(n & Hp & Hp' & Htd & ->) | (Hp & Hp' & Htd & ->)]]]].
  - (* Lock *)
    split; cbn [mem threads compressedTotalSize failedFiles mu].
    + intros t1 th1 H1 Hpos1. destruct (decide (t1 = t)) as [->|Hne]; [done|].
      rewrite list_lookup_insert_ne in H1 by done.
      pose proof (inv_owner _ _ _ Hinv t1 th1 H1 Hpos1). congruence.
    + intros t1 th1 H1. destruct (decide (t1 = t)) as [->|Hne].
      * rewrite list_lookup_insert_eq in H1 by done. inversion H1; subst th1.
        unfold coherent. by rewrite Hp'.
      * rewrite list_lookup_insert_ne in H1 by done.
        exact (inv_coherent _ _ _ Hinv t1 th1 H1).
    + exact (inv_range _ _ _ Hinv).
    + rewrite (pending_size_insert _ _ _ _ Hth), Htd.
      rewrite <- (inv_size _ _ _ Hinv). f_equal. lia.
    + rewrite (pending_paths_same _ _ _ _ Hth) by (by rewrite Htd).
      exact (inv_paths _ _ _ Hinv).
  - (* Load *)
    assert (Hown : mu (mem c) = Some t).
    { apply (inv_owner _ _ _ Hinv t th Hth). congruence. }
    split; cbn [mem threads compressedTotalSize failedFiles mu].
    + intros t1 th1 H1 Hpos1. destruct (decide (t1 = t)) as [->|Hne]; [done|].
      rewrite list_lookup_insert_ne in H1 by done.
      exact (inv_owner _ _ _ Hinv t1 th1 H1 Hpos1).
    + intros t1 th1 H1. destruct (decide (t1 = t)) as [->|Hne].
      * rewrite list_lookup_insert_eq in H1 by done. by inversion H1; subst th1.
      * rewrite list_lookup_insert_ne in H1 by done.
        exact (inv_coherent _ _ _ Hinv t1 th1 H1).
    + exact (inv_range _ _ _ Hinv).
    + rewrite (pending_size_insert _ _ _ _ Hth), Htd.
      rewrite <- (inv_size _ _ _ Hinv). f_equal. lia.
    + rewrite (pending_paths_same _ _ _ _ Hth) by (by rewrite Htd).
      exact (inv_paths _ _ _ Hinv).
  - (* Store to failedFiles *)
    assert (Hown : mu (mem c) = Some t).
    { apply (inv_owner _ _ _ Hinv t th Hth). congruence. }
    split; cbn [mem threads compressedTotalSize failedFiles mu].
    + intros t1 th1 H1 Hpos1. destruct (decide (t1 = t)) as [->|Hne]; [done|].
      rewrite list_lookup_insert_ne in H1 by done.
      exact (inv_owner _ _ _ Hinv t1 th1 H1 Hpos1).
    + intros t1 th1 H1. destruct (decide (t1 = t)) as [->|Hne].
      * rewrite list_lookup_insert_eq in H1 by done. inversion H1; subst th1.
        unfold coherent. by rewrite Hp'.
      * rewrite list_lookup_insert_ne in H1 by done.
        unfold coherent.
        rewrite (others_idle _ _ _ t th t1 th1 Hinv Hth ltac:(congruence) H1 Hne). done.
    + exact (inv_range _ _ _ Hinv).
    + rewrite (pending_size_insert _ _ _ _ Hth), Htd, sizes_RecordFailure.
      rewrite <- (inv_size _ _ _ Hinv). f_equal. lia.
    + rewrite <- (inv_paths _ _ _ Hinv).
      rewrite (pending_paths_pop _ t th th' p Hth) by (by rewrite Htd).
      rewrite <- app_assoc. reflexivity.
  - (* Store to compressedTotalSize *)
    assert (Hown : mu (mem c) = Some t).
    { apply (inv_owner _ _ _ Hinv t th Hth). congruence. }
    split; cbn [mem threads compressedTotalSize failedFiles mu].
    + intros t1 th1 H1 Hpos1. destruct (decide (t1 = t)) as [->|Hne]; [done|].
      rewrite list_lookup_insert_ne in H1 by done.
      exact (inv_owner _ _ _ Hinv t1 th1 H1 Hpos1).
    + intros t1 th1 H1. destruct (decide (t1 = t)) as [->|Hne].
      * rewrite list_lookup_insert_eq in H1 by done. inversion H1; subst th1.
        unfold coherent. by rewrite Hp'.
      * rewrite list_lookup_insert_ne in H1 by done.
        unfold coherent.
        rewrite (others_idle _ _ _ t th t1 th1 Hinv Hth ltac:(congruence) H1 Hne). done.
    + apply Int_wrap_range.
    + rewrite (pending_size_insert _ _ _ _ Hth), Htd, sizes_AddSize, sum_cons.
      rewrite <- (inv_size _ _ _ Hinv). unfold Int.add.
      rewrite Int_wrap_add_l. f_equal. lia.
    + rewrite (pending_paths_same _ _ _ _ Hth) by (by rewrite Htd).
      exact (inv_paths _ _ _ Hinv).
  - (* Unlock *)
    split; cbn [mem threads compressedTotalSize failedFiles mu].
    + intros t1 th1 H1 Hpos1. destruct (decide (t1 = t)) as [->|Hne].
      * rewrite list_lookup_insert_eq in H1 by done. inversion H1; subst th1. done.
      * rewrite list_lookup_insert_ne in H1 by done.
        pose proof (others_idle _ _ _ t th t1 th1 Hinv Hth ltac:(congruence) H1 Hne).
        done.
    + intros t1 th1 H1. destruct (decide (t1 = t)) as [->|Hne].
      * rewrite list_lookup_insert_eq in H1 by done. inversion H1; subst th1.
        unfold coherent. by rewrite Hp'.
      * rewrite list_lookup_insert_ne in H1 by done.
        exact (inv_coherent _ _ _ Hinv t1 th1 H1).
    + exact (inv_range _ _ _ Hinv).
    + rewrite (pending_size_insert _ _ _ _ Hth), Htd.
      rewrite <- (inv_size _ _ _ Hinv). f_equal. lia.
    + rewrite (pending_paths_same _ _ _ _ Hth) by (by rewrite Htd).
      exact (inv_paths _ _ _ Hinv).
Qed.

Lemma exec_invariant size failed schedule : forall c c',
  invariant size failed c -> exec schedule c = Some c' -> invariant size failed c'.
Proof.
  induction schedule as [|t schedule IH]; intros c c' Hinv Hexec.
  - cbn in Hexec. by inversion Hexec; subst.
  - cbn in Hexec. destruct (step t c) as [c1|] eqn:Hstep; [|done].
    cbn in Hexec. eapply IH; [|exact Hexec]. eapply step_invariant; eassumption.
Qed.

Lemma finished_pending ths :
  forallb thread_done ths = true -> pending_size ths = 0 /\ pending_paths ths = [].
Proof.
  induction ths as [|th ths IH]; [done|].
  cbn [forallb]. intros [Hd Hrest]%andb_prop. destruct (IH Hrest) as [H1 H2].
  unfold thread_done in Hd. destruct (pos th); try done.
  destruct (todo th) eqn:Htd; [|done].
  rewrite pending_size_cons, pending_paths_cons, Htd, H1, H2. by split.
Qed.

End AggregatorFacts.

(** C3.  However the steps of the workers interleave, once all of them
    have finished, [compressedTotalSize] is the (64-bit) sum of all the
    sizes added and [failedFiles] holds exactly the paths recorded, each
    as often as it was recorded: no update is lost. *)
Theorem no_lost_updates (workers : list (list Aggregator.action))
    (schedule : list nat) (c : Aggregator.config) :
  Aggregator.exec schedule (Aggregator.init workers) = Some c ->
  Aggregator.finished c = true ->
  Aggregator.compressedTotalSize (Aggregator.mem c)
  = Int.wrap (Aggregator.sum (Aggregator.sizes (concat workers))) /\
  (Int.in_range (Aggregator.sum (Aggregator.sizes (concat workers))) ->
   Aggregator.compressedTotalSize (Aggregator.mem c)
   = Aggregator.sum (Aggregator.sizes (concat workers))) /\
  Aggregator.failedFiles (Aggregator.mem c) ≡ₚ Aggregator.paths (concat workers).
Proof.
  intros Hexec Hfin.
  pose proof (AggregatorFacts.exec_invariant _ _ _ _ _
                (AggregatorFacts.init_invariant workers) Hexec) as Hinv.
  destruct (AggregatorFacts.finished_pending _ Hfin) as [Hs Hp].
  destruct Hinv as [_ _ Hrange Hsize Hpaths].
  rewrite Hs, Z.add_0_r in Hsize. rewrite Hp, app_nil_r in Hpaths.
  assert (Htotal : Aggregator.compressedTotalSize (Aggregator.mem c)
                   = Int.wrap (Aggregator.sum (Aggregator.sizes (concat workers)))).
  { rewrite <- Hsize. symmetry. by apply Int_wrap_small. }
  split; [exact Htotal|]. split; [|exact Hpaths].
  intros Hin. rewrite Htotal. by apply Int_wrap_small.
Qed.

Module AggregatorProgress.
Import Aggregator.

Lemma exec_app s1 s2 c : exec (s1 ++ s2) c = exec s1 c ≫= exec s2.
Proof.
  revert c. induction s1 as [|t s1 IH]; intros c; [reflexivity|].
  cbn. destruct (step t c) as [c1|]; cbn; [apply IH|reflexivity].
Qed.

Lemma step_eq t th th' m m' ths :
  ths !! t = Some th ->
  step_thread t th m = Some (th', m') ->
  step t (mkConfig m ths) = Some (mkConfig m' (<[t := th']> ths)).
Proof. intros H1 H2. unfold step. cbn [threads mem]. rewrite H1. cbn. by rewrite H2. Qed.

Lemma exec_cons t s c c' : step t c = Some c' -> exec (t :: s) c = exec s c'.
Proof. intros H. cbn. by rewrite H. Qed.

(** One action, from taking the lock to releasing it. *)
Lemma exec_action t a rest m ths :
  ths !! t = Some (mkThread Idle (a :: rest)) ->
  mu m = None ->
  exists m',
    exec [t; t; t; t] (mkConfig m ths)
    = Some (mkConfig m' (<[t := mkThread Idle rest]> ths)) /\
    mu m' = None.
Proof.
  intros Hth Hmu. pose proof (lookup_lt_Some _ _ _ Hth) as Hlt.
  destruct m as [total failed lock]. cbn in Hmu. subst lock.
  destruct a as [p|n].
  - exists (mkShared total (failed ++ [p]) None). split; [|reflexivity].
    erewrite exec_cons; [|eapply step_eq; [exact Hth|reflexivity]].
    erewrite exec_cons;
      [|eapply step_eq; [by apply list_lookup_insert_eq|reflexivity]].
    rewrite list_insert_insert_eq.
    erewrite exec_cons;
      [|eapply step_eq; [by apply list_lookup_insert_eq|reflexivity]].
    rewrite list_insert_insert_eq.
    erewrite exec_cons;
      [|eapply step_eq; [by apply list_lookup_insert_eq|reflexivity]].
    rewrite list_insert_insert_eq. reflexivity.
  - exists (mkShared (Int.add total n) failed None). split; [|reflexivity].
    erewrite exec_cons; [|eapply step_eq; [exact Hth|reflexivity]].
    erewrite exec_cons;
      [|eapply step_eq; [by apply list_lookup_insert_eq|reflexivity]].
    rewrite list_insert_insert_eq.
    erewrite exec_cons;
      [|eapply step_eq; [by apply list_lookup_insert_eq|reflexivity]].
    rewrite list_insert_insert_eq.
    erewrite exec_cons;
      [|eapply step_eq; [by apply list_lookup_insert_eq|reflexivity]].
    rewrite list_insert_insert_eq. reflexivity.
Qed.

Lemma exec_thread t acts : forall m ths,
  ths !! t = Some (mkThread Idle acts) ->
  mu m = None ->
  exists m',
    exec (schedule_of t acts) (mkConfig m ths)
    = Some (mkConfig m' (<[t := mkThread Idle []]> ths)) /\
    mu m' = None.
Proof.
  induction acts as [|a acts IH]; intros m ths Hth Hmu.
  - exists m. split; [|exact Hmu]. cbn. by rewrite list_insert_id.
  - destruct (exec_action t a acts m ths Hth Hmu) as (m1 & H1 & Hmu1).
    destruct (IH m1 (<[t := mkThread Idle acts]> ths)) as (m2 & H2 & Hmu2).
    { apply list_lookup_insert_eq. by eapply lookup_lt_Some. }
    { exact Hmu1. }
    exists m2. split; [|exact Hmu2].
    unfold schedule_of. cbn [length replicate concat].
    rewrite exec_app, H1. cbn [mbind option_bind].
    fold (schedule_of t acts). rewrite H2. by rewrite list_insert_insert_eq.
Qed.

Lemma exec_sequential (workers : list (list action)) :
  forall (done_ : list (list action)) m,
  mu m = None ->
  exists m',
    exec (concat (imap (fun i => schedule_of (length done_ + i)) workers))
      (mkConfig m ((ended <$> done_) ++ (mkThread Idle <$> workers)))
    = Some (mkConfig m' (ended <$> (done_ ++ workers))) /\
    mu m' = None.
Proof.
  induction workers as [|w workers IH]; intros done_ m Hmu.
  - exists m. split; [|exact Hmu]. cbn. by rewrite !app_nil_r.
  - cbn [imap concat fmap list_fmap]. rewrite Nat.add_0_r.
    destruct (exec_thread (length done_) w m
                ((ended <$> done_) ++ mkThread Idle w :: (mkThread Idle <$> workers)))
      as (m1 & H1 & Hmu1).
    { rewrite lookup_app_r by (by rewrite length_fmap).
      by rewrite length_fmap, Nat.sub_diag. }
    { exact Hmu. }
    destruct (IH (done_ ++ [w]) m1 Hmu1) as (m2 & H2 & Hmu2).
    exists m2. split; [|exact Hmu2].
    rewrite exec_app, H1. cbn [mbind option_bind].
    replace (<[length done_:=mkThread Idle []]>
               ((ended <$> done_) ++ mkThread Idle w :: (mkThread Idle <$> workers)))
      with ((ended <$> (done_ ++ [w])) ++ (mkThread Idle <$> workers)).
    2:{ rewrite insert_app_r_alt by (by rewrite length_fmap).
        rewrite length_fmap, Nat.sub_diag. cbn.
        rewrite fmap_app. cbn. by rewrite <- app_assoc. }
    rewrite <- (app_assoc done_ [w] workers) in H2. cbn in H2.
    rewrite <- H2. f_equal. f_equal.
    apply imap_ext. intros i x _. cbn. rewrite length_app. cbn. f_equal. lia.
Qed.

(** Some schedule brings every thread to its end. *)
Lemma sequential_finishes workers :
  exists c, exec (sequential workers) (init workers) = Some c /\ finished c = true.
Proof.
  destruct (exec_sequential workers [] (mkShared 0 [] None) eq_refl) as (m' & H1 & _).
  cbn in H1. exists (mkConfig m' (ended <$> workers)).
  split; [exact H1|].
  unfold finished. cbn [threads]. clear H1.
  induction workers as [|w ws IH]; [done|]. cbn. exact IH.
Qed.

End AggregatorProgress.

Module Float64Facts.
Import Float64 Rounding.
Local Open Scope Q_scope.

Lemma pow2_pos e : 0 < pow2 e.
Proof. apply Qpower_0_lt. reflexivity. Qed.

Lemma pow2_add a b : pow2 (a + b) == pow2 a * pow2 b.
Proof. apply Qpower_plus. discriminate. Qed.

Lemma pow2_nonneg (n : Z) : (0 <= n)%Z -> pow2 n == inject_Z (2 ^ n).
Proof. intros Hn. unfold pow2. by rewrite (Zpower_Qpower 2 n Hn). Qed.

Lemma pow2_opp e : pow2 (- e) == / pow2 e.
Proof. apply Qpower_opp. Qed.

Lemma binade_lower x : 0 < x -> pow2 (binade x) <= x.
Proof.
  intros Hx. unfold binade.
  set (d := (Z.log2 (Qnum x) - Z.log2 (Z.pos (Qden x)))%Z).
  destruct (Qle_bool (pow2 d) x) eqn:Hb; [by apply Qle_bool_iff|].
  destruct x as [p q]. cbn [Qnum Qden] in d.
  assert (Hp : (0 < p)%Z) by (unfold Qlt in Hx; cbn in Hx; lia).
  pose proof (Z.log2_spec p Hp) as [Hlp _].
  pose proof (Z.log2_spec (Z.pos q) ltac:(lia)) as [_ Hlq].
  pose proof (Z.log2_nonneg p) as H0p.
  pose proof (Z.log2_nonneg (Z.pos q)) as H0q.
  set (lp := Z.log2 p) in *. set (lq := Z.log2 (Z.pos q)) in *.
  assert (HB : pow2 (d - 1) * inject_Z (2 ^ (lq + 1)) == inject_Z (2 ^ lp)).
  { rewrite <- !pow2_nonneg by lia. rewrite <- pow2_add.
    replace (d - 1 + (lq + 1))%Z with lp by (subst d; lia). reflexivity. }
  assert (Hpow : (0 < 2 ^ (lq + 1))%Z) by (apply Z.pow_pos_nonneg; lia).
  assert (HBq : 0 < inject_Z (2 ^ (lq + 1))).
  { replace 0 with (inject_Z 0) by reflexivity. rewrite <- Zlt_Qlt. exact Hpow. }
  apply (Qmult_le_r _ _ (inject_Z (2 ^ (lq + 1)))); [exact HBq|].
  rewrite HB. unfold Qle, Qmult, inject_Z. cbn [Qnum Qden].
  rewrite !Z.mul_1_r. rewrite Pos.mul_1_r. nia.
Qed.

Lemma round_half_even_bounds y :
  y - (1 # 2) <= inject_Z (round_half_even y) <= y + (1 # 2).
Proof.
  unfold round_half_even.
  pose proof (Qfloor_le y) as Hlo. pose proof (Qlt_floor y) as Hhi.
  rewrite inject_Z_plus in Hhi. change (inject_Z 1) with 1 in Hhi.
  set (n := Qfloor y) in *.
  destruct (Qcompare (y - inject_Z n) (1 # 2)) eqn:Hc.
  - apply Qeq_alt in Hc.
    destruct (Z.even n); rewrite ?inject_Z_plus; change (inject_Z 1) with 1; lra.
  - apply Qlt_alt in Hc. lra.
  - apply Qgt_alt in Hc. rewrite inject_Z_plus. change (inject_Z 1) with 1. lra.
Qed.

Lemma round_53_bounds x :
  0 < x -> x * (1 - u) <= round_53 x <= x * (1 + u).
Proof.
  intros Hx. unfold round_53.
  pose proof (binade_lower x Hx) as Hb.
  set (b := binade x) in *. set (e := (b - 52)%Z).
  pose proof (pow2_pos e) as He.
  pose proof (round_half_even_bounds (x / pow2 e)) as [Hlo Hhi].
  set (m := inject_Z (round_half_even (x / pow2 e))) in *.
  assert (Hy : x / pow2 e * pow2 e == x) by (field; lra).
  set (y := x / pow2 e) in *.
  assert (Hpe : pow2 e * inject_Z (2 ^ 52) == pow2 b).
  { rewrite <- pow2_nonneg by lia. rewrite <- pow2_add.
    replace (e + 52)%Z with b by (subst e; lia). reflexivity. }
  assert (H52 : inject_Z (2 ^ 52) == 4503599627370496) by reflexivity.
  rewrite H52 in Hpe.
  assert (Hlo' : x - (1 # 2) * pow2 e <= m * pow2 e).
  { assert ((y - (1 # 2)) * pow2 e <= m * pow2 e) by (apply Qmult_le_compat_r; lra).
    lra. }
  assert (Hhi' : m * pow2 e <= x + (1 # 2) * pow2 e).
  { assert (m * pow2 e <= (y + (1 # 2)) * pow2 e) by (apply Qmult_le_compat_r; lra).
    lra. }
  unfold u. change (2 ^ 53)%positive with 9007199254740992%positive.
  split; nra.
Qed.

Lemma round_53_pos x : 0 < x -> 0 < round_53 x.
Proof.
  intros Hx. destruct (round_53_bounds x Hx) as [Hlo _].
  unfold u in Hlo. change (2 ^ 53)%positive with 9007199254740992%positive in Hlo. nra.
Qed.

Lemma round_safe x :
  safe_lo <= x <= safe_hi -> round x = F64 (round_53 x).
Proof.
  intros [Hlo Hhi]. unfold round.
  assert (Hx : 0 < x).
  { eapply Qlt_le_trans; [|exact Hlo]. reflexivity. }
  destruct (Qcompare x 0) eqn:Hc.
  - apply Qeq_alt in Hc. lra.
  - apply Qlt_alt in Hc. lra.
  - assert (H1 : Qle_bool min_normal x = true).
    { apply Qle_bool_iff. eapply Qle_trans; [|exact Hlo]. by vm_compute. }
    assert (H2 : Qle_bool overflow_threshold (round_53 x) = false).
    { destruct (Qle_bool overflow_threshold (round_53 x)) eqn:Hb; [|done].
      apply Qle_bool_iff in Hb. exfalso.
      destruct (round_53_bounds x Hx) as [_ Hup].
      assert (Hu1 : u <= 1) by by vm_compute.
      assert (Hu : x * (1 + u) <= safe_hi * 2) by nra.
      assert (Hlt : safe_hi * 2 < overflow_threshold) by by vm_compute.
      lra. }
    by rewrite H1, H2.
Qed.

End Float64Facts.

Module ApproxFacts.
Import Float64 Rounding Float64Facts.
Local Open Scope Q_scope.

Lemma approx_round x : 0 < x -> approx u x (round_53 x).
Proof. apply round_53_bounds. Qed.

Lemma approx_pos eps x y : 0 < x -> eps < 1 -> approx eps x y -> 0 < y.
Proof. unfold approx. intros Hx He [Hlo _]. nra. Qed.

Lemma approx_mul e1 e2 a a' b b' :
  0 <= a -> 0 <= b -> 0 <= e1 <= 1 -> 0 <= e2 <= 1 ->
  approx e1 a a' -> approx e2 b b' ->
  approx (e1 + e2 + e1 * e2) (a * b) (a' * b').
Proof.
  unfold approx. intros Ha Hb He1 He2 [Hal Hau] [Hbl Hbu].
  assert (0 <= a * (1 - e1)) by nra. assert (0 <= b * (1 - e2)) by nra.
  split.
  - apply Qle_trans with ((a * (1 - e1)) * (b * (1 - e2))); [|nra].
    assert (0 <= a * b * (e1 * e2)) by nra. nra.
  - apply Qle_trans with ((a * (1 + e1)) * (b * (1 + e2))); nra.
Qed.

Lemma approx_trans e1 e2 x y z :
  0 <= x -> 0 <= e1 <= 1 -> 0 <= e2 <= 1 ->
  approx e1 x y -> approx e2 y z -> approx (e1 + e2 + e1 * e2) x z.
Proof.
  unfold approx. intros Hx He1 He2 [Hl1 Hu1] [Hl2 Hu2].
  assert (0 <= x * (1 - e1)) by nra.
  split.
  - apply Qle_trans with (x * (1 - e1) * (1 - e2)); [|nra].
    assert (0 <= x * (e1 * e2)) by nra. nra.
  - apply Qle_trans with (x * (1 + e1) * (1 + e2)); nra.
Qed.

Lemma approx_weaken e e' x y :
  0 <= x -> e <= e' -> approx e x y -> approx e' x y.
Proof. unfold approx. intros Hx He [Hl Hu]. split; nra. Qed.

(** The quotient of two approximations, in the form used below: the
    exact quotient [q] is given by [q * b == a]. *)
Lemma approx_div e1 e2 e3 a a' b b' q :
  0 <= a -> 0 < b -> 0 <= e1 <= 1 -> 0 <= e2 -> e2 < 1 -> 0 <= e3 ->
  1 + e1 <= (1 + e3) * (1 - e2) ->
  q * b == a ->
  approx e1 a a' -> approx e2 b b' ->
  approx e3 q (a' / b').
Proof.
  unfold approx. intros Ha Hb He1 He2 He2' He3 He Hq [Hal Hau] [Hbl Hbu].
  assert (Hb' : 0 < b') by nra.
  assert (Hq0 : 0 <= q).
  { destruct (Qlt_le_dec q 0) as [Hneg|]; [|done]. exfalso. nra. }
  assert (Hdiv : a' / b' * b' == a') by (field; lra).
  set (q' := a' / b') in *.
  split.
  - apply (Qmult_le_r _ _ b'); [exact Hb'|]. rewrite Hdiv.
    apply Qle_trans with (a * (1 - e1)); [|exact Hal].
    rewrite <- Hq.
    destruct (Qlt_le_dec 1 e3) as [Hbig|Hsmall].
    + apply Qle_trans with 0; [|nra].
      assert (0 <= q * b') by nra. nra.
    + assert (Hk : (1 - e3) * (1 + e2) <= 1 - e1) by nra.
      apply Qle_trans with (q * (1 - e3) * (b * (1 + e2))).
      * assert (0 <= q * (1 - e3)) by nra. nra.
      * assert (0 <= q * b) by nra. nra.
  - apply (Qmult_le_r _ _ b'); [exact Hb'|]. rewrite Hdiv.
    apply Qle_trans with (a * (1 + e1)); [exact Hau|].
    rewrite <- Hq.
    apply Qle_trans with (q * (1 + e3) * (b * (1 - e2))).
    + assert (0 <= q * b) by nra. nra.
    + assert (0 <= q * (1 + e3)) by nra. nra.
Qed.

End ApproxFacts.

Module ScaleFacts.
Import Float64 Rounding Float64Facts ApproxFacts.
Local Open Scope Q_scope.

Lemma mid_safe eps x y :
  mid_lo <= x <= mid_hi -> 0 <= eps <= 1 # 2 -> approx eps x y ->
  safe_lo <= y <= safe_hi.
Proof.
  unfold approx. intros [Hlo Hhi] He [Hl Hu].
  assert (H1 : safe_lo <= mid_lo * (1 # 2)) by by vm_compute.
  assert (H2 : mid_hi * (3 # 2) <= safe_hi) by by vm_compute.
  assert (H3 : 0 < mid_lo) by reflexivity.
  split; nra.
Qed.

Lemma mid_of_safe x : mid_lo <= x <= mid_hi -> safe_lo <= x <= safe_hi.
Proof.
  intros [Hlo Hhi].
  assert (H1 : safe_lo <= mid_lo) by by vm_compute.
  assert (H2 : mid_hi <= safe_hi) by by vm_compute.
  lra.
Qed.

Lemma inject_Z_mid (n : Z) : (0 < n <= 2 ^ 63)%Z -> mid_lo <= inject_Z n <= mid_hi.
Proof.
  intros [H1 H2]. split.
  - apply Qle_trans with (inject_Z 1); [by vm_compute|]. rewrite <- Zle_Qle. lia.
  - unfold mid_hi. rewrite <- Zle_Qle. lia.
Qed.

Lemma u_small : 0 <= u <= 1 # 2.
Proof. split; by vm_compute. Qed.

Lemma of_int_value (n : Z) :
  (0 < n <= 2 ^ 63)%Z ->
  of_int n = F64 (round_53 (inject_Z n)) /\
  approx u (inject_Z n) (round_53 (inject_Z n)).
Proof.
  intros Hn. pose proof (inject_Z_mid n Hn) as Hmid.
  split.
  - unfold of_int. apply round_safe, mid_of_safe, Hmid.
  - apply approx_round. destruct Hmid as [Hlo _].
    eapply Qlt_le_trans; [|exact Hlo]. reflexivity.
Qed.

Lemma scaled_value (side maxPixels totalPixels : Z) :
  (0 < side <= totalPixels)%Z ->
  (0 < maxPixels < totalPixels)%Z ->
  (totalPixels <= 2 ^ 63)%Z ->
  exists y : Q,
    mul (of_int side) (div (of_int maxPixels) (of_int totalPixels)) = F64 y /\
    0 < y /\
    approx e4 (inject_Z side * (inject_Z maxPixels / inject_Z totalPixels)) y.
Proof.
  intros Hw Hm Ht.
  destruct (of_int_value side ltac:(lia)) as [EW AW].
  destruct (of_int_value maxPixels ltac:(lia)) as [EM AM].
  destruct (of_int_value totalPixels ltac:(lia)) as [ET AT].
  pose proof (inject_Z_mid side ltac:(lia)) as [W1 W2].
  pose proof (inject_Z_mid maxPixels ltac:(lia)) as [M1 M2].
  pose proof (inject_Z_mid totalPixels ltac:(lia)) as [T1 T2].
  assert (Hlo0 : 0 < mid_lo) by reflexivity.
  assert (HMT : inject_Z maxPixels < inject_Z totalPixels) by (rewrite <- Zlt_Qlt; lia).
  assert (HM1 : 1 <= inject_Z maxPixels).
  { change 1 with (inject_Z 1). rewrite <- Zle_Qle. lia. }
  assert (HW1 : 1 <= inject_Z side).
  { change 1 with (inject_Z 1). rewrite <- Zle_Qle. lia. }
  assert (HT63 : inject_Z totalPixels <= inject_Z (2 ^ 63)) by (rewrite <- Zle_Qle; lia).
  assert (HW63 : inject_Z side <= inject_Z (2 ^ 63)) by (rewrite <- Zle_Qle; lia).
  set (W := inject_Z side) in *. set (M := inject_Z maxPixels) in *.
  set (T := inject_Z totalPixels) in *.
  set (Wf := round_53 W) in *. set (Mf := round_53 M) in *. set (Tf := round_53 T) in *.
  pose proof u_small as [Hu0 Hu1].
  assert (Hu53 : u == 1 # 9007199254740992) by reflexivity.
  assert (HTf : 0 < Tf) by (apply (approx_pos u T); [lra|lra|exact AT]).
  (* the quotient *)
  set (q := M / T).
  assert (Hq : q * T == M) by (unfold q; field; lra).
  assert (Hq0 : 0 < q) by (apply Qlt_shift_div_l; lra).
  assert (Hq1 : q <= 1) by (apply Qle_shift_div_r; lra).
  assert (Hqlo : mid_lo <= q).
  { apply Qle_shift_div_l; [lra|].
    assert (mid_lo * inject_Z (2 ^ 63) <= 1) by by vm_compute. nra. }
  assert (Aq : approx e2 q (Mf / Tf)).
  { refine (approx_div u u e2 M Mf T Tf q _ _ _ _ _ _ _ Hq AM AT);
      unfold e2; try lra. nra. }
  assert (He2 : 0 <= e2 <= 1 # 2) by (unfold e2; rewrite Hu53; split; by vm_compute).
  assert (Hdiv : div (of_int maxPixels) (of_int totalPixels) = F64 (round_53 (Mf / Tf))).
  { rewrite EM, ET. unfold div.
    destruct (Qeq_bool Tf 0) eqn:Hz.
    - apply Qeq_bool_iff in Hz. lra.
    - apply round_safe. apply (mid_safe e2 q); [|exact He2|exact Aq].
      split; [exact Hqlo|]. apply Qle_trans with 1; [exact Hq1|by vm_compute]. }
  assert (Hq' : 0 < Mf / Tf) by (apply (approx_pos e2 q); [lra|lra|exact Aq]).
  set (S := round_53 (Mf / Tf)) in *.
  assert (AS : approx e3 q S).
  { eapply approx_weaken; [lra| |exact (approx_trans e2 u q (Mf / Tf) S ltac:(lra)
      ltac:(lra) ltac:(lra) Aq (approx_round _ Hq'))].
    unfold e2, e3. rewrite Hu53. by vm_compute. }
  assert (He3 : 0 <= e3 <= 1 # 2) by (unfold e3; rewrite Hu53; split; by vm_compute).
  assert (AP : approx (u + e3 + u * e3) (W * q) (Wf * S)).
  { apply approx_mul; try lra. exact AW. exact AS. }
  set (e := u + e3 + u * e3) in *.
  assert (He : 0 <= e <= 1 # 2) by (unfold e, e3; rewrite Hu53; split; by vm_compute).
  assert (HX0 : 0 < W * q) by nra.
  assert (HP : 0 < Wf * S) by (apply (approx_pos e (W * q)); [lra|lra|exact AP]).
  assert (Hmul : mul (of_int side) (div (of_int maxPixels) (of_int totalPixels))
                 = F64 (round_53 (Wf * S))).
  { rewrite EW, Hdiv. unfold mul. apply round_safe.
    apply (mid_safe e (W * q)); [|exact He|exact AP].
    split.
    - apply Qle_trans with (1 * q); [lra|]. nra.
    - apply Qle_trans with (inject_Z (2 ^ 63) * 1); [nra|by vm_compute]. }
  exists (round_53 (Wf * S)). split; [exact Hmul|].
  split; [by apply round_53_pos|].
  eapply approx_weaken; [lra| |exact (approx_trans e u (W * q) (Wf * S) _ ltac:(lra)
      ltac:(lra) ltac:(lra) AP (approx_round _ HP))].
  unfold e, e3, e4. rewrite Hu53. by vm_compute.
Qed.

End ScaleFacts.

Module ResizeFacts.
Import Float64 Rounding Float64Facts ApproxFacts ScaleFacts.
Local Open Scope Q_scope.

Lemma to_uint_floor platform (y : Q) :
  0 <= y -> (Qfloor y < 2 ^ 64)%Z -> to_uint platform (F64 y) = Qfloor y.
Proof.
  intros Hy Hlt. unfold to_uint. destruct y as [n d]. unfold Qfloor in *.
  cbn [Qnum Qden].
  assert (Hn : (0 <= n)%Z) by (unfold Qle in Hy; cbn in Hy; lia).
  rewrite Z.quot_div_nonneg by lia.
  pose proof (Z.div_pos n (Z.pos d) Hn ltac:(lia)) as Hq.
  destruct (Z.leb_spec 0 (n / Z.pos d)); [|lia].
  destruct (Z.ltb_spec (n / Z.pos d) (2 ^ 64)); [|lia].
  reflexivity.
Qed.

Lemma e4_small : 0 <= e4 /\ 2 * e4 + e4 * e4 <= 1 # (2 ^ 49) /\ e4 <= 1 # (2 ^ 50).
Proof. repeat split; by vm_compute. Qed.

(** One side: the floor of the float is the exact quotient up to one
    pixel either way. *)
Lemma side_bounds (W M T q y a : Q) :
  1 <= W -> W <= T -> 1 <= M -> M <= inject_Z (2 ^ 49) -> q * T == M ->
  approx e4 (W * q) y -> a <= y -> y < a + 1 ->
  W * M - 2 * T < a * T /\ a * T < W * M + T.
Proof.
  unfold approx. intros HW HWT HM HM49 Hq [Hlo Hhi] Ha1 Ha2.
  destruct e4_small as (He0 & _ & He).
  assert (H49 : inject_Z (2 ^ 49) * (1 # 2 ^ 50) == 1 # 2) by reflexivity.
  set (B := inject_Z (2 ^ 49)) in *. set (c := 1 # 2 ^ 50) in *.
  assert (HT : 0 < T) by lra.
  assert (Hq0 : 0 <= q).
  { destruct (Qlt_le_dec q 0) as [Hneg|]; [|done]. exfalso. nra. }
  assert (Hq1 : q <= M) by nra.
  assert (HX : W * q * T == W * M) by (rewrite <- Hq; ring).
  assert (Hsmall : W * q * e4 * T <= (1 # 2) * T).
  { assert (W * q * T <= T * M) by nra.
    assert (M * e4 <= 1 # 2) by nra.
    assert (0 <= W * q * T) by nra.
    nra. }
  split.
  - assert (y * T < (a + 1) * T) by nra. nra.
  - assert (a * T <= y * T) by nra. nra.
Qed.

Lemma product_bound (W H M T q yw yh a b : Q) :
  1 <= W -> 1 <= H -> W * H == T -> 1 <= M -> M + 1 <= T ->
  M <= inject_Z (2 ^ 49) -> q * T == M ->
  approx e4 (W * q) yw -> approx e4 (H * q) yh ->
  0 <= a <= yw -> 0 <= b <= yh ->
  a * b <= M.
Proof.
  unfold approx. intros HW HH HWH HM HMT HM49 Hq [_ Hw] [_ Hh] [Ha0 Ha] [Hb0 Hb].
  destruct e4_small as (He0 & He & _).
  assert (H49 : inject_Z (2 ^ 49) * (1 # 2 ^ 49) == 1) by reflexivity.
  set (B := inject_Z (2 ^ 49)) in *. set (c := 1 # 2 ^ 49) in *.
  set (k := (1 + e4) * (1 + e4)).
  assert (Hk : k == 1 + (2 * e4 + e4 * e4)) by (unfold k; ring).
  assert (HT : 0 < T) by lra.
  assert (Hq0 : 0 <= q).
  { destruct (Qlt_le_dec q 0) as [Hneg|]; [|done]. exfalso. nra. }
  assert (HMk : M * k <= T).
  { rewrite Hk. assert (M * (2 * e4 + e4 * e4) <= 1) by nra. nra. }
  assert (Hqk : q * k <= 1).
  { apply (Qmult_le_r _ _ T); [exact HT|].
    assert (E : q * k * T == M * k) by (rewrite <- Hq; ring).
    rewrite E. lra. }
  apply Qle_trans with (yw * yh); [nra|].
  apply Qle_trans with ((W * q * (1 + e4)) * (H * q * (1 + e4))); [nra|].
  assert (E : W * q * (1 + e4) * (H * q * (1 + e4)) == (q * T) * (q * k))
    by (rewrite <- HWH; unfold k; ring).
  rewrite E, Hq. nra.
Qed.

End ResizeFacts.

Section Resize.

Context {Image : Type} `{!Imaging Image}.
Import Float64 Rounding Float64Facts ApproxFacts ScaleFacts ResizeFacts.

Lemma scaled_floor (side maxPixels totalPixels : Z) :
  0 < side <= totalPixels ->
  0 < maxPixels < totalPixels ->
  totalPixels <= 2 ^ 63 ->
  maxPixels <= 2 ^ 49 ->
  exists y : Q,
    (0 < y)%Q /\
    approx e4 (inject_Z side * (inject_Z maxPixels / inject_Z totalPixels)) y /\
    scaled (Image := Image) side
      (Float64.div (of_int maxPixels) (of_int totalPixels)) = Qfloor y /\
    0 <= Qfloor y /\
    side * maxPixels - 2 * totalPixels < Qfloor y * totalPixels
      < side * maxPixels + totalPixels.
Proof.
  intros Hs Hm Ht Hm49.
  destruct (scaled_value side maxPixels totalPixels Hs Hm Ht) as (y & Hy & Hpos & Hap).
  exists y. split; [exact Hpos|]. split; [exact Hap|].
  pose proof (Qfloor_le y) as Hfl. pose proof (Qlt_floor y) as Hfu.
  rewrite inject_Z_plus in Hfu. change (inject_Z 1) with 1%Q in Hfu.
  assert (H0 : 0 <= Qfloor y).
  { change 0 with (Qfloor 0). apply Qfloor_resp_le. lra. }
  assert (HT : (0 < inject_Z totalPixels)%Q).
  { change 0%Q with (inject_Z 0). rewrite <- Zlt_Qlt. lia. }
  assert (Hside :
    (inject_Z side * inject_Z maxPixels - 2 * inject_Z totalPixels
     < inject_Z (Qfloor y) * inject_Z totalPixels /\
     inject_Z (Qfloor y) * inject_Z totalPixels
     < inject_Z side * inject_Z maxPixels + inject_Z totalPixels)%Q).
  { apply (side_bounds _ _ _ (inject_Z maxPixels / inject_Z totalPixels) y).
    - change 1%Q with (inject_Z 1). rewrite <- Zle_Qle. lia.
    - rewrite <- Zle_Qle. lia.
    - change 1%Q with (inject_Z 1). rewrite <- Zle_Qle. lia.
    - rewrite <- Zle_Qle. lia.
    - field. lra.
    - exact Hap.
    - exact Hfl.
    - exact Hfu. }
  assert (Hz : side * maxPixels - 2 * totalPixels < Qfloor y * totalPixels
               < side * maxPixels + totalPixels).
  { destruct Hside as [H1 H2]. split.
    - rewrite Zlt_Qlt. unfold Z.sub.
      rewrite inject_Z_plus, inject_Z_opp, !inject_Z_mult.
      change (inject_Z 2) with 2%Q. unfold Qminus in H1. exact H1.
    - rewrite Zlt_Qlt. rewrite inject_Z_plus, !inject_Z_mult. exact H2. }
  split; [|split; [exact H0|exact Hz]].
  unfold scaled. rewrite Hy. apply to_uint_floor; [lra|].
  assert (Qfloor y * totalPixels < (2 ^ 49 + 1) * totalPixels) by nia.
  nia.
Qed.

(** C4 (amended).  An image of at most [maxPixels] pixels is left as it
    is.  For a larger one both dimensions are multiplied by
    [maxPixels / (width * height)] (the ratio itself, not its square
    root) and truncated: each scaled dimension is within two pixels
    below and one above the exact product, and their product is at
    most [maxPixels].  Whenever both scaled dimensions are at least 1,
    as they are when [maxPixels] is at least twice the width and twice
    the height, and the resizer returns an image of the dimensions it
    is asked for, the output of the resize has exactly these dimensions
    and so at most [maxPixels] pixels.  Dimensions are positive, their
    product is an [int] and [maxPixels] is at most [2^49]. *)
Theorem resize_scales_by_pixel_ratio (img : Image) (maxPixels : Z) :
  0 < bounds_Dx img ->
  0 < bounds_Dy img ->
  bounds_Dx img * bounds_Dy img <= Int.max_int ->
  0 < maxPixels <= 2 ^ 49 ->
  (bounds_Dx img * bounds_Dy img <= maxPixels -> resized img maxPixels = img) /\
  (maxPixels < bounds_Dx img * bounds_Dy img ->
   exists newWidth newHeight,
     resized img maxPixels = resize_Resize newWidth newHeight img /\
     0 <= newWidth /\ 0 <= newHeight /\
     newWidth * newHeight <= maxPixels /\
     bounds_Dx img * maxPixels - 2 * (bounds_Dx img * bounds_Dy img)
       < newWidth * (bounds_Dx img * bounds_Dy img)
       < bounds_Dx img * maxPixels + bounds_Dx img * bounds_Dy img /\
     bounds_Dy img * maxPixels - 2 * (bounds_Dx img * bounds_Dy img)
       < newHeight * (bounds_Dx img * bounds_Dy img)
       < bounds_Dy img * maxPixels + bounds_Dx img * bounds_Dy img /\
     (2 * bounds_Dy img <= maxPixels -> 0 < newWidth) /\
     (2 * bounds_Dx img <= maxPixels -> 0 < newHeight) /\
     (resizer_honours_request (Image := Image) ->
      0 < newWidth -> 0 < newHeight ->
      bounds_Dx (resized img maxPixels) = newWidth /\
      bounds_Dy (resized img maxPixels) = newHeight /\
      bounds_Dx (resized img maxPixels) * bounds_Dy (resized img maxPixels)
        <= maxPixels)).
Proof.
  intros Hw Hh Hmax Hmp. unfold resized.
  set (width := bounds_Dx img) in *. set (height := bounds_Dy img) in *.
  assert (Hmaxint : Int.max_int = 2 ^ 63 - 1) by reflexivity.
  assert (Hminint : Int.min_int = - 2 ^ 63) by reflexivity.
  rewrite (Int_mul_small width height) by (unfold Int.in_range; nia).
  set (totalPixels := width * height) in *.
  split.
  - intros Hle. destruct (Z.gtb_spec totalPixels maxPixels); [lia|reflexivity].
  - intros Hgt. destruct (Z.gtb_spec totalPixels maxPixels); [|lia].
    destruct (scaled_floor width maxPixels totalPixels) as (yw & Hyw & Aw & Ew & Hw0 & Hwb);
      [subst totalPixels; nia|lia|lia|lia|].
    destruct (scaled_floor height maxPixels totalPixels) as (yh & Hyh & Ah & Eh & Hh0 & Hhb);
      [subst totalPixels; nia|lia|lia|lia|].
    exists (Qfloor yw), (Qfloor yh). rewrite Ew, Eh.
    assert (Hprod : Qfloor yw * Qfloor yh <= maxPixels).
    { rewrite Zle_Qle, inject_Z_mult.
      assert (HT : (0 < inject_Z totalPixels)%Q).
      { change 0%Q with (inject_Z 0). rewrite <- Zlt_Qlt. lia. }
      apply (product_bound (inject_Z width) (inject_Z height) (inject_Z maxPixels)
               (inject_Z totalPixels) (inject_Z maxPixels / inject_Z totalPixels) yw yh).
      + change 1%Q with (inject_Z 1). rewrite <- Zle_Qle. lia.
      + change 1%Q with (inject_Z 1). rewrite <- Zle_Qle. lia.
      + unfold totalPixels. by rewrite inject_Z_mult.
      + change 1%Q with (inject_Z 1). rewrite <- Zle_Qle. lia.
      + change 1%Q with (inject_Z 1). rewrite <- inject_Z_plus, <- Zle_Qle. lia.
      + rewrite <- Zle_Qle. lia.
      + field. lra.
      + exact Aw.
      + exact Ah.
      + split; [change 0%Q with (inject_Z 0); rewrite <- Zle_Qle; lia | apply Qfloor_le].
      + split; [change 0%Q with (inject_Z 0); rewrite <- Zle_Qle; lia | apply Qfloor_le]. }
    split; [reflexivity|]. split; [exact Hw0|]. split; [exact Hh0|].
    split; [exact Hprod|]. split; [exact Hwb|]. split; [exact Hhb|].
    split; [intros H2; subst totalPixels; nia|].
    split; [intros H2; subst totalPixels; nia|].
    intros Hres Hpw Hph.
    destruct (Hres (Qfloor yw) (Qfloor yh) img Hpw Hph) as [-> ->].
    by repeat split.
Qed.

End Resize.

(** ** More properties *)

(** ** More on the partition *)

Lemma ceil_div_floor a b :
  0 <= a -> 0 < b ->
  ceil_div a b = a / b + (if a mod b =? 0 then 0 else 1).
Proof.
  intros Ha Hb. unfold ceil_div.
  pose proof (Z.div_mod a b ltac:(lia)) as Hdm.
  pose proof (Z.mod_pos_bound a b Hb) as Hm.
  destruct (Z.eqb_spec (a mod b) 0) as [H0|H0].
  - symmetry. apply (Z.div_unique _ _ _ (b - 1)); lia.
  - symmetry. apply (Z.div_unique _ _ _ (a mod b - 1)); lia.
Qed.

(** X1.  With a number of threads that is zero or negative [main]
    panics before any worker is started: a negative number fails the
    allocation of the progress bars, zero the division that gives the
    share size. *)
Theorem nonpositive_threads_panic (fuel : nat) (filePaths : list string) (numThreads : Z) :
  numThreads <= 0 ->
  main_launches fuel filePaths numThreads = Panic /\
  (numThreads < 0 -> main_bars filePaths numThreads = Panic) /\
  (numThreads = 0 -> main_bars filePaths numThreads = Ret []).
Proof.
  intros Hn. unfold main_launches, main_chunkSize, main_bars.
  destruct (Z.ltb_spec numThreads 0) as [|Hge].
  - split; [reflexivity|]. split; [done|lia].
  - assert (numThreads = 0) as -> by lia. split; [reflexivity|]. split; [lia|done].
Qed.

Lemma main_bars_value (filePaths : list string) numThreads :
  0 < numThreads ->
  len filePaths + numThreads <= Int.max_int ->
  main_bars filePaths numThreads
  = Ret (replicate (Z.to_nat numThreads) (len filePaths / numThreads + 1)).
Proof.
  intros Hn Hmaxint. unfold main_bars, Int.quo.
  pose proof (len_nonneg filePaths) as Hl.
  destruct (Z.ltb_spec numThreads 0); [lia|].
  destruct (Z.eqb_spec numThreads 0); [lia|].
  cbn [mbind run_bind]. rewrite Z.quot_div_nonneg by lia.
  assert (H0 : 0 <= len filePaths / numThreads <= len filePaths).
  { split; [apply Z.div_pos; lia|]. apply Z.div_le_upper_bound; nia. }
  assert (Hmax : Int.max_int = 2 ^ 63 - 1) by reflexivity.
  assert (Hmin : Int.min_int = - 2 ^ 63) by reflexivity.
  rewrite (Int_wrap_small (_ / _)) by (unfold Int.in_range; lia).
  rewrite Int_add_small by (unfold Int.in_range; lia).
  reflexivity.
Qed.

Lemma share_sizes (filePaths : list string) chunkSize i :
  0 <= chunkSize ->
  0 <= i < launched_count (len filePaths) chunkSize ->
  1 <= len (files (the_share filePaths chunkSize i)) <= chunkSize /\
  (i + 1 < launched_count (len filePaths) chunkSize ->
   len (files (the_share filePaths chunkSize i)) = chunkSize).
Proof.
  intros Hcs Hi. pose proof (len_nonneg filePaths) as Hl.
  rewrite the_share_length by lia.
  assert (Hne : share_start chunkSize i < share_end (len filePaths) chunkSize i)
    by (apply share_nonempty_iff; lia).
  unfold share_start, share_end in *. split; [nia|].
  intros Hnext.
  assert (Hne' : share_start chunkSize (i + 1) < share_end (len filePaths) chunkSize (i + 1))
    by (apply share_nonempty_iff; lia).
  unfold share_start, share_end in Hne'. nia.
Qed.

(** X2.  No share is longer than the maximum its progress bar is
    created with, [len(filePaths)/numThreads + 1].  When the number of
    threads divides the number of files every share is one short of
    that maximum; otherwise every share but the last reaches it. *)
Theorem share_fits_progress_bar (filePaths : list string) (numThreads : Z) (fuel : nat) :
  0 < numThreads ->
  len filePaths + numThreads <= Int.max_int ->
  (Z.to_nat numThreads <= fuel)%nat ->
  exists shares barMax,
    main_launches fuel filePaths numThreads = Ret shares /\
    main_bars filePaths numThreads = Ret (replicate (Z.to_nat numThreads) barMax) /\
    barMax = len filePaths / numThreads + 1 /\
    (forall share, share ∈ shares -> len (files share) <= barMax) /\
    (len filePaths mod numThreads = 0 ->
     forall share, share ∈ shares -> len (files share) = barMax - 1) /\
    (len filePaths mod numThreads <> 0 ->
     forall (k : nat) share,
       shares !! k = Some share -> (S k < length shares)%nat ->
       len (files share) = barMax).
Proof.
  intros Hn Hmax Hfuel.
  pose proof (len_nonneg filePaths) as Hl.
  set (chunkSize := ceil_div (len filePaths) numThreads).
  destruct (ceil_div_bounds (len filePaths) numThreads Hl Hn) as [Hcs _].
  fold chunkSize in Hcs.
  pose proof (ceil_div_floor (len filePaths) numThreads Hl Hn) as Hfloor.
  fold chunkSize in Hfloor.
  pose proof (launched_count_le (len filePaths) numThreads Hl Hn) as Hm.
  fold chunkSize in Hm.
  pose proof (share_sizes filePaths chunkSize) as Hsize.
  assert (Hmdef : launched_count (len filePaths) chunkSize
                  = if chunkSize =? 0 then 0 else ceil_div (len filePaths) chunkSize)
    by reflexivity.
  set (m := launched_count (len filePaths) chunkSize) in *.
  exists (the_share filePaths chunkSize <$> seqZ 0 m), (len filePaths / numThreads + 1).
  split; [by apply main_launches_prefix|].
  split; [by apply main_bars_value|].
  split; [reflexivity|].
  split.
  { intros share Hin. apply list_elem_of_fmap in Hin as (i & -> & Hi).
    apply elem_of_seqZ in Hi. destruct (Hsize i Hcs ltac:(lia)) as [H1 _].
    destruct (Z.eqb_spec (len filePaths mod numThreads) 0); lia. }
  split.
  { intros Hdiv share Hin. apply list_elem_of_fmap in Hin as (i & -> & Hi).
    apply elem_of_seqZ in Hi. destruct (Hsize i Hcs ltac:(lia)) as [H1 H2].
    rewrite Hdiv in Hfloor. cbn in Hfloor.
    destruct (Z.eq_dec (i + 1) m) as [Hlast|Hnot]; [|rewrite H2; lia].
    rewrite the_share_length by lia. unfold share_start, share_end.
    assert (Hexact : len filePaths = numThreads * chunkSize).
    { pose proof (Z.div_mod (len filePaths) numThreads ltac:(lia)). lia. }
    destruct (Z.eqb_spec chunkSize 0) as [Hz|Hnz]; [lia|].
    destruct (ceil_div_bounds (len filePaths) chunkSize Hl ltac:(lia)) as [_ [Hc1 Hc2]].
    rewrite <- Hmdef in Hc1, Hc2.
    assert (m = numThreads) by nia. nia. }
  { intros Hndiv k share Hk Hlast.
    rewrite list_lookup_fmap in Hk.
    destruct (seqZ 0 m !! k) as [i|] eqn:Hi; [|done].
    apply lookup_seqZ in Hi as [-> Hkm]. cbn in Hk. inversion Hk; subst share.
    rewrite length_fmap, length_seqZ in Hlast.
    destruct (Hsize (0 + Z.of_nat k) Hcs ltac:(lia)) as [_ H2].
    rewrite H2 by lia.
    destruct (Z.eqb_spec (len filePaths mod numThreads) 0); lia. }
Qed.

(** X3.  [main] starts at most one worker per thread asked for and at
    most one per file; none for an empty list; and otherwise exactly
    as many as shares of the computed size are needed to cover the
    list. *)
Theorem launched_worker_count (filePaths : list string) (numThreads : Z) (fuel : nat) :
  0 < numThreads ->
  len filePaths + numThreads <= Int.max_int ->
  (Z.to_nat numThreads <= fuel)%nat ->
  exists shares,
    main_launches fuel filePaths numThreads = Ret shares /\
    len shares <= numThreads /\
    len shares <= len filePaths /\
    (filePaths = [] -> shares = []) /\
    (filePaths <> [] ->
     (len shares - 1) * ceil_div (len filePaths) numThreads < len filePaths
       <= len shares * ceil_div (len filePaths) numThreads).
Proof.
  intros Hn Hmax Hfuel.
  pose proof (len_nonneg filePaths) as Hl.
  set (chunkSize := ceil_div (len filePaths) numThreads).
  destruct (ceil_div_bounds (len filePaths) numThreads Hl Hn) as [Hcs [Hcov Hup]].
  fold chunkSize in Hcs, Hcov, Hup.
  pose proof (launched_count_le (len filePaths) numThreads Hl Hn) as Hm.
  fold chunkSize in Hm.
  assert (Hmdef : launched_count (len filePaths) chunkSize
                  = if chunkSize =? 0 then 0 else ceil_div (len filePaths) chunkSize)
    by reflexivity.
  pose proof (main_launches_prefix filePaths numThreads fuel Hn Hmax Hfuel) as Hrun.
  fold chunkSize in Hrun.
  set (m := launched_count (len filePaths) chunkSize) in *.
  exists (the_share filePaths chunkSize <$> seqZ 0 m).
  assert (Hlen : len (the_share filePaths chunkSize <$> seqZ 0 m) = m).
  { unfold len. rewrite length_fmap, length_seqZ. lia. }
  split; [exact Hrun|]. rewrite Hlen.
  destruct (Z.eqb_spec chunkSize 0) as [Hz|Hnz].
  - assert (len filePaths = 0) by nia.
    assert (filePaths = []) as Hnil
      by (destruct filePaths; [done|unfold len in *; cbn in *; lia]).
    split; [lia|]. split; [lia|]. split; [|done].
    intros _. by rewrite Hmdef.
  - destruct (ceil_div_bounds (len filePaths) chunkSize Hl ltac:(lia)) as [_ [Hc1 Hc2]].
    rewrite <- Hmdef in Hc1, Hc2.
    split; [lia|]. split; [nia|]. split.
    + intros Hnil. exfalso. subst filePaths. unfold len in *. cbn in *. nia.
    + intros _. split; nia.
Qed.

Section TransformFacts.

Context {World Image : Type} `{!OS World} `{!Paths} `{!Imaging Image}.

Ltac open_compressImage :=
  unfold compressImage, Open, addWatermark, ReadFile, encode_to, Create, Write,
    succeeds, transform, encoded, success_calls;
  cbn [world trace log set_world fst snd].

Ltac split_match :=
  match goal with
  | |- context [match ?x with _ => _ end] => destruct x eqn:?
  | H : context [match ?x with _ => _ end] |- _ => destruct x eqn:?
  end;
  cbn [world trace log set_world fst snd] in *.

Ltac pairs :=
  repeat match goal with
         | H : (_, _) = (_, _) |- _ => inversion H; subst; clear H
         end;
  cbn [world trace log set_world fst snd] in *.

(** X4.  When [compressImage] fails to open or decode the input or to
    add the watermark, it has not changed the outside world and has
    called neither [os.Create] nor an encoder. *)
Theorem early_failure_leaves_no_output inputPath outputPath maxPixels watermarkText
    fontPath (s : state World) (err : compressError) :
  (compressImage (Image := Image) inputPath outputPath maxPixels watermarkText
     fontPath s).2 = Some err ->
  is_early_error err = true ->
  world (compressImage (Image := Image) inputPath outputPath maxPixels watermarkText
           fontPath s).1 = world s /\
  exists evs,
    trace (compressImage (Image := Image) inputPath outputPath maxPixels
             watermarkText fontPath s).1 = trace s ++ evs /\
    forallb (fun e => negb (touches_output e)) evs = true.
Proof.
  open_compressImage. repeat split_match; intros Herr Hearly; pairs;
    inversion Herr; subst; try discriminate Hearly;
    (split; [reflexivity|]);
    rewrite <- ?app_assoc; eexists; (split; [reflexivity|]); reflexivity.
Qed.

(** X5.  Every other failure of [compressImage] comes after the call of
    [os.Create] for the output path.  Unless that call is what failed,
    it had succeeded; and when the format is neither jpeg nor png, the
    file just created is left as [os.Create] made it, nothing being
    written to it. *)
Theorem late_failure_has_created_output inputPath outputPath maxPixels watermarkText
    fontPath (s : state World) (err : compressError) :
  (compressImage (Image := Image) inputPath outputPath maxPixels watermarkText
     fontPath s).2 = Some err ->
  is_early_error err = false ->
  exists evs,
    trace (compressImage (Image := Image) inputPath outputPath maxPixels
             watermarkText fontPath s).1 = trace s ++ evs /\
    EvCreate outputPath ∈ evs /\
    (err <> ErrCreate -> (os_Create outputPath (world s)).2 = true) /\
    (forall format, err = ErrUnsupportedFormat format ->
       format <> "jpeg" /\ format <> "png" /\
       world (compressImage (Image := Image) inputPath outputPath maxPixels
                watermarkText fontPath s).1 = (os_Create outputPath (world s)).1 /\
       forall data, EvWrite outputPath data ∉ evs).
Proof.
  open_compressImage. repeat split_match; intros Herr Hlate; pairs;
    inversion Herr; subst; try discriminate Hlate;
    rewrite <- ?app_assoc; eexists; (split; [reflexivity|]);
    (split; [cbn [app]; repeat first [apply list_elem_of_here | apply list_elem_of_further]|]).
  all: try (split; [first [congruence | reflexivity | intros _; assumption
                   | intros _; match goal with H : os_Create _ _ = _ |- _ => by rewrite H end]|]).
  all: intros format Hf; try discriminate Hf; inversion Hf; subst.
  all: try match goal with H : Some _ = None |- _ => discriminate H end.
  all: repeat match goal with
              | H : String.eqb _ _ = false |- _ => apply String.eqb_neq in H
              | H : os_Create _ _ = _ |- _ => rewrite H
              end.
  all: repeat (split; [done|]).
  all: intros data Hin; cbn [app] in Hin.
  all: repeat match goal with
              | H : _ ∈ _ :: _ |- _ =>
                  apply elem_of_cons in H; destruct H as [H|H]; [discriminate H|]
              | H : _ ∈ [] |- _ => inversion H
              end.
Qed.

(** X6.  [compressImage] returns no error exactly when the input can be
    opened, its transform yields bytes, and the output file can be
    created and written. *)
Theorem compressImage_succeeds_iff inputPath outputPath maxPixels watermarkText
    fontPath (s : state World) :
  (compressImage (Image := Image) inputPath outputPath maxPixels watermarkText
     fontPath s).2 = None <->
  exists data,
    succeeds (Image := Image) inputPath outputPath maxPixels watermarkText fontPath
      (world s) data.
Proof.
  open_compressImage. split.
  - repeat split_match; intros Herr; pairs; try discriminate Herr;
      repeat match goal with
             | H : Some _ = Some _ |- _ => inversion H; subst; clear H
             | H : Some _ = None |- _ => discriminate H
             | H : None = Some _ |- _ => discriminate H
             end;
      eexists; eexists; (split; [reflexivity|]);
      repeat match goal with
             | H : _ = _ |- _ => rewrite H; cbn [fst snd]
             end; done.
  - intros (data & input & Hopen & Htr & Hcreate & Hwrite).
    rewrite Hopen. destruct (image_Decode input) as [[img format]|]; [|discriminate Htr].
    destruct (os_Create outputPath (world s)) as [w ok] eqn:Hc.
    cbn [fst snd] in Hcreate, Hwrite. subst ok.
    destruct (negb (watermarkText =? "")%string).
    + destruct (ioutil_ReadFile fontPath (world s)) as [fontBytes|]; [|discriminate Htr].
      cbn [fst snd world trace log set_world].
      destruct (draw_watermark (resized img maxPixels) watermarkText fontBytes)
        as [marked|]; [|discriminate Htr].
      cbn [fst snd world trace log set_world]. rewrite Hc.
      destruct (format =? "jpeg")%string.
      * destruct (jpeg_Encode marked 80); [|discriminate Htr].
        inversion Htr; subst.
        cbn [fst snd world trace log set_world].
        destruct (file_Write outputPath data w) as [w' ok'].
        cbn [fst snd] in *. by subst ok'.
      * destruct (format =? "png")%string; [|discriminate Htr].
        destruct (png_Encode marked); [|discriminate Htr].
        inversion Htr; subst.
        cbn [fst snd world trace log set_world].
        destruct (file_Write outputPath data w) as [w' ok'].
        cbn [fst snd] in *. by subst ok'.
    + cbn [fst snd world trace log set_world]. rewrite ?Hc.
      destruct (format =? "jpeg")%string.
      * destruct (jpeg_Encode (resized img maxPixels) 80); [|discriminate Htr].
        inversion Htr; subst.
        cbn [fst snd world trace log set_world].
        destruct (file_Write outputPath data w) as [w' ok'].
        cbn [fst snd] in *. by subst ok'.
      * destruct (format =? "png")%string; [|discriminate Htr].
        destruct (png_Encode (resized img maxPixels)); [|discriminate Htr].
        inversion Htr; subst.
        cbn [fst snd world trace log set_world].
        destruct (file_Write outputPath data w) as [w' ok'].
        cbn [fst snd] in *. by subst ok'.
Qed.

(** X7.  A successful [compressImage] makes exactly the calls
    [os.Open], [ioutil.ReadFile] of the font when there is a watermark
    text, [os.Create] and the write of the encoded bytes, in this
    order; the world it leaves is the one after that write. *)
Theorem compressImage_success_effect inputPath outputPath maxPixels watermarkText
    fontPath (s : state World) (data : list Byte.byte) :
  succeeds (Image := Image) inputPath outputPath maxPixels watermarkText fontPath
    (world s) data ->
  let s' := (compressImage (Image := Image) inputPath outputPath maxPixels
               watermarkText fontPath s).1 in
  trace s' = trace s ++ success_calls inputPath outputPath watermarkText fontPath data /\
  world s' = (file_Write outputPath data (os_Create outputPath (world s)).1).1.
Proof.
  open_compressImage.
  intros (input & Hopen & Htr & Hcreate & Hwrite).
  rewrite Hopen. destruct (image_Decode input) as [[img format]|]; [|discriminate Htr].
  destruct (os_Create outputPath (world s)) as [w ok] eqn:Hc.
  cbn [fst snd] in Hcreate, Hwrite. subst ok.
  destruct (negb (watermarkText =? "")%string).
  - destruct (ioutil_ReadFile fontPath (world s)) as [fontBytes|]; [|discriminate Htr].
    cbn [fst snd world trace log set_world].
    destruct (draw_watermark (resized img maxPixels) watermarkText fontBytes)
      as [marked|]; [|discriminate Htr].
    cbn [fst snd world trace log set_world]. rewrite Hc.
    destruct (format =? "jpeg")%string.
    + destruct (jpeg_Encode marked 80); [|discriminate Htr].
      inversion Htr; subst.
      cbn [fst snd world trace log set_world].
      destruct (file_Write outputPath data w) as [w' ok'].
      cbn [fst snd] in *. subst ok'. cbn [fst snd world trace log set_world].
      by rewrite <- !app_assoc.
    + destruct (format =? "png")%string; [|discriminate Htr].
      destruct (png_Encode marked); [|discriminate Htr].
      inversion Htr; subst.
      cbn [fst snd world trace log set_world].
      destruct (file_Write outputPath data w) as [w' ok'].
      cbn [fst snd] in *. subst ok'. cbn [fst snd world trace log set_world].
      by rewrite <- !app_assoc.
  - cbn [fst snd world trace log set_world]. rewrite ?Hc.
    destruct (format =? "jpeg")%string.
    + destruct (jpeg_Encode (resized img maxPixels) 80); [|discriminate Htr].
      inversion Htr; subst.
      cbn [fst snd world trace log set_world].
      destruct (file_Write outputPath data w) as [w' ok'].
      cbn [fst snd] in *. subst ok'. cbn [fst snd world trace log set_world].
      by rewrite <- !app_assoc.
    + destruct (format =? "png")%string; [|discriminate Htr].
      destruct (png_Encode (resized img maxPixels)); [|discriminate Htr].
      inversion Htr; subst.
      cbn [fst snd world trace log set_world].
      destruct (file_Write outputPath data w) as [w' ok'].
      cbn [fst snd] in *. subst ok'. cbn [fst snd world trace log set_world].
      by rewrite <- !app_assoc.
Qed.

End TransformFacts.

Section ResizeEdges.

Context {Image : Type} `{!Imaging Image}.
Import Float64 Rounding Float64Facts ApproxFacts ScaleFacts ResizeFacts.

Lemma scaled_le_side (side maxPixels totalPixels : Z) :
  0 < side <= totalPixels ->
  0 < maxPixels < totalPixels ->
  totalPixels <= 2 ^ 63 ->
  maxPixels <= 2 ^ 49 ->
  0 <= scaled (Image := Image) side
         (Float64.div (of_int maxPixels) (of_int totalPixels)) <= side.
Proof.
  intros Hs Hm Ht Hm49.
  destruct (scaled_floor (Image := Image) side maxPixels totalPixels Hs Hm Ht Hm49)
    as (y & _ & _ & -> & H0 & _ & Hup).
  split; [exact H0|]. nia.
Qed.

(** X8.  Resizing never enlarges: when the image has more pixels than
    the budget, neither requested dimension exceeds the original one. *)
Theorem resize_never_enlarges (img : Image) (maxPixels : Z) :
  0 < bounds_Dx img ->
  0 < bounds_Dy img ->
  bounds_Dx img * bounds_Dy img <= Int.max_int ->
  0 < maxPixels <= 2 ^ 49 ->
  maxPixels < bounds_Dx img * bounds_Dy img ->
  exists newWidth newHeight,
    resized img maxPixels = resize_Resize newWidth newHeight img /\
    0 <= newWidth <= bounds_Dx img /\
    0 <= newHeight <= bounds_Dy img.
Proof.
  intros Hw Hh Hmax Hmp Hgt. unfold resized.
  assert (Hmaxint : Int.max_int = 2 ^ 63 - 1) by reflexivity.
  assert (Hminint : Int.min_int = - 2 ^ 63) by reflexivity.
  rewrite (Int_mul_small (bounds_Dx img) (bounds_Dy img)) by (unfold Int.in_range; nia).
  destruct (Z.gtb_spec (bounds_Dx img * bounds_Dy img) maxPixels); [|lia].
  eexists _, _. split; [reflexivity|].
  split; apply scaled_le_side; nia.
Qed.

Lemma scaled_thin (side maxPixels totalPixels : Z) :
  0 < side <= totalPixels ->
  0 < maxPixels < totalPixels ->
  totalPixels <= 2 ^ 50 ->
  maxPixels <= 2 ^ 49 ->
  side * maxPixels < totalPixels ->
  scaled (Image := Image) side
    (Float64.div (of_int maxPixels) (of_int totalPixels)) = 0.
Proof.
  intros Hs Hm Ht Hm49 Hthin.
  destruct (scaled_floor (Image := Image) side maxPixels totalPixels Hs Hm
              ltac:(lia) Hm49)
    as (y & Hpos & [_ Hap] & -> & H0 & _ & _).
  assert (HT : (0 < inject_Z totalPixels)%Q).
  { change 0%Q with (inject_Z 0). rewrite <- Zlt_Qlt. lia. }
  assert (HT50 : (inject_Z totalPixels <= inject_Z (2 ^ 50))%Q).
  { rewrite <- Zle_Qle. exact Ht. }
  assert (HX : (inject_Z side * inject_Z maxPixels <= inject_Z totalPixels - 1)%Q).
  { rewrite <- inject_Z_mult. change 1%Q with (inject_Z 1).
    unfold Qminus. rewrite <- inject_Z_opp, <- inject_Z_plus, <- Zle_Qle. lia. }
  set (x := (inject_Z side * (inject_Z maxPixels / inject_Z totalPixels))%Q) in *.
  assert (Hx : (x * inject_Z totalPixels == inject_Z side * inject_Z maxPixels)%Q).
  { unfold x. field. lra. }
  assert (He : (inject_Z (2 ^ 50) * e4 == 7 # 8)%Q) by reflexivity.
  assert (He0 : (0 <= e4)%Q) by (by vm_compute).
  set (B := inject_Z (2 ^ 50)) in *. set (T := inject_Z totalPixels) in *.
  set (X := (inject_Z side * inject_Z maxPixels)%Q) in *.
  assert (Hy1 : (y < 1)%Q).
  { assert (H1 : (x * (1 + e4) * T <= (T - 1) * (1 + e4))%Q).
    { assert (E : (x * (1 + e4) * T == X * (1 + e4))%Q) by (rewrite <- Hx; ring).
      rewrite E. nra. }
    assert (H2 : (T * e4 <= 7 # 8)%Q) by nra.
    assert (H3 : (x * (1 + e4) * T < T)%Q) by nra.
    assert (H4 : (x * (1 + e4) < 1)%Q) by nra.
    lra. }
  assert (Hf : (inject_Z (Qfloor y) < inject_Z 1)%Q).
  { eapply Qle_lt_trans; [apply Qfloor_le|exact Hy1]. }
  rewrite <- Zlt_Qlt in Hf. lia.
Qed.

(** X9.  An image higher than the pixel budget is handed to the resizer
    with width 0, and one wider than the budget with height 0: the
    ratio of the budget to the pixel count, times the side, is then
    below one and is truncated. *)
Theorem long_side_over_budget_requests_zero (img : Image) (maxPixels : Z) :
  0 < bounds_Dx img ->
  0 < bounds_Dy img ->
  bounds_Dx img * bounds_Dy img <= 2 ^ 50 ->
  0 < maxPixels <= 2 ^ 49 ->
  (maxPixels < bounds_Dy img ->
   exists newHeight, resized img maxPixels = resize_Resize 0 newHeight img) /\
  (maxPixels < bounds_Dx img ->
   exists newWidth, resized img maxPixels = resize_Resize newWidth 0 img).
Proof.
  intros Hw Hh Hmax Hmp. unfold resized.
  assert (Hmaxint : Int.max_int = 2 ^ 63 - 1) by reflexivity.
  assert (Hminint : Int.min_int = - 2 ^ 63) by reflexivity.
  rewrite (Int_mul_small (bounds_Dx img) (bounds_Dy img)) by (unfold Int.in_range; nia).
  split; intros Hlong.
  - destruct (Z.gtb_spec (bounds_Dx img * bounds_Dy img) maxPixels); [|nia].
    eexists. rewrite (scaled_thin (bounds_Dx img)); [reflexivity|nia..].
  - destruct (Z.gtb_spec (bounds_Dx img * bounds_Dy img) maxPixels); [|nia].
    eexists. rewrite (scaled_thin (bounds_Dy img)); [reflexivity|nia..].
Qed.

(** X10.  With a pixel budget of zero every image that has pixels is
    handed to the resizer with both dimensions 0. *)
Theorem zero_budget_requests_empty_image (img : Image) :
  0 < bounds_Dx img ->
  0 < bounds_Dy img ->
  bounds_Dx img * bounds_Dy img <= Int.max_int ->
  resized img 0 = resize_Resize 0 0 img.
Proof.
  intros Hw Hh Hmax. unfold resized.
  assert (Hmaxint : Int.max_int = 2 ^ 63 - 1) by reflexivity.
  assert (Hminint : Int.min_int = - 2 ^ 63) by reflexivity.
  rewrite (Int_mul_small (bounds_Dx img) (bounds_Dy img)) by (unfold Int.in_range; nia).
  destruct (Z.gtb_spec (bounds_Dx img * bounds_Dy img) 0); [|nia].
  assert (Hscale : forall side, 0 < side <= 2 ^ 63 ->
    scaled (Image := Image) side
      (Float64.div (of_int 0) (of_int (bounds_Dx img * bounds_Dy img))) = 0).
  { intros side Hside. unfold scaled.
    assert (Hrange : 0 < bounds_Dx img * bounds_Dy img <= 2 ^ 63). { lia. }
    destruct (of_int_value (bounds_Dx img * bounds_Dy img) Hrange) as [-> [Hlo _]].
    destruct (of_int_value side Hside) as [-> _].
    change (of_int 0) with (F64 0). unfold Float64.div.
    set (t := round_53 (inject_Z (bounds_Dx img * bounds_Dy img))) in *.
    assert (Ht : (0 < t)%Q).
    { assert (HT : (0 < inject_Z (bounds_Dx img * bounds_Dy img))%Q).
      { change 0%Q with (inject_Z 0). rewrite <- Zlt_Qlt. lia. }
      assert (Hu : (u < 1)%Q) by (by vm_compute).
      nra. }
    destruct (Qeq_bool t 0) eqn:Heq.
    { apply Qeq_bool_iff in Heq. lra. }
    assert (Hz : round (0 / t) = F64 0).
    { unfold round. assert (E : (0 / t == 0)%Q) by (field; lra).
      apply Qeq_alt in E. by rewrite E. }
    rewrite Hz. unfold Float64.mul.
    assert (Hz' : round (round_53 (inject_Z side) * 0) = F64 0).
    { unfold round.
      assert (E : (round_53 (inject_Z side) * 0 == 0)%Q) by ring.
      apply Qeq_alt in E. by rewrite E. }
    rewrite Hz'. reflexivity. }
  rewrite !Hscale by nia. reflexivity.
Qed.

(** X29.  When the pixel budget is below both the width and the height
    of an image, both scaled dimensions are truncated to 0 and the
    resizer is asked for 0 by 0.  With a resizer that returns the image
    as it is for such a request, the image is not resized at all: what
    comes out has more pixels than the budget. *)
Theorem both_sides_over_budget_keep_image (img : Image) (maxPixels : Z) :
  0 < bounds_Dx img ->
  0 < bounds_Dy img ->
  bounds_Dx img * bounds_Dy img <= 2 ^ 50 ->
  0 < maxPixels <= 2 ^ 49 ->
  maxPixels < bounds_Dx img ->
  maxPixels < bounds_Dy img ->
  resized img maxPixels = resize_Resize 0 0 img /\
  (resize_Resize 0 0 img = img ->
   resized img maxPixels = img /\
   maxPixels < bounds_Dx (resized img maxPixels) * bounds_Dy (resized img maxPixels)).
Proof.
  intros Hw Hh Hmax Hmp Hwide Hhigh.
  assert (Hreq : resized img maxPixels = resize_Resize 0 0 img).
  { unfold resized.
    assert (Hmaxint : Int.max_int = 2 ^ 63 - 1) by reflexivity.
    assert (Hminint : Int.min_int = - 2 ^ 63) by reflexivity.
    rewrite (Int_mul_small (bounds_Dx img) (bounds_Dy img)) by (unfold Int.in_range; nia).
    destruct (Z.gtb_spec (bounds_Dx img * bounds_Dy img) maxPixels); [|nia].
    rewrite (scaled_thin (bounds_Dx img)) by nia.
    rewrite (scaled_thin (bounds_Dy img)) by nia.
    reflexivity. }
  split; [exact Hreq|]. intros Hsame. rewrite Hreq, Hsame. split; [reflexivity|nia].
Qed.

End ResizeEdges.

Section WorkerCalls.

Context {World Image : Type} `{!OS World} `{!Paths} `{!Imaging Image}.
Variables (outputDir inputDir watermarkText fontPath : string) (maxPixels : Z).

Lemma compressImage_calls inputPath outputPath (s : state World) :
  exists evs,
    trace (compressImage (Image := Image) inputPath outputPath maxPixels
             watermarkText fontPath s).1 = trace s ++ evs /\
    forallb (fun e => match e with
                      | EvOpen p => String.eqb p inputPath
                      | EvReadFile p => String.eqb p fontPath
                      | EvCreate p | EvWrite p _ => String.eqb p outputPath
                      | _ => false
                      end) evs = true.
Proof.
  unfold compressImage, Open, addWatermark, ReadFile, encode_to, Create, Write.
  cbn [world trace log set_world fst snd].
  repeat (match goal with
          | |- context [match ?x with _ => _ end] => destruct x eqn:?
          | H : context [match ?x with _ => _ end] |- _ => destruct x eqn:?
          end;
          cbn [world trace log set_world fst snd] in *);
    repeat match goal with
           | H : (_, _) = (_, _) |- _ => inversion H; subst; clear H
           end;
    cbn [world trace log set_world fst snd] in *;
    rewrite <- ?app_assoc; eexists; (split; [reflexivity|]);
    cbn [app forallb]; rewrite ?String.eqb_refl; reflexivity.
Qed.

Lemma compressImages_file_calls path (s : state World) total :
  mu s = false ->
  exists s' total' evs,
    compressImages_file (Image := Image) outputDir inputDir watermarkText fontPath
      maxPixels path (s, total) = Ret (s', total') /\
    mu s' = false /\
    trace s' = trace s ++ evs /\
    head evs = Some (EvStat path) /\
    forallb (item_event outputDir inputDir fontPath path) evs = true.
Proof.
  intros Hmu. unfold compressImages_file. cbn [Stat].
  destruct (os_Stat path (world s)) as [info|].
  2:{ rewrite record_failure_free by exact Hmu. cbn [mbind run_bind].
      eexists _, _, [EvStat path]. split; [reflexivity|]. cbn.
      rewrite String.eqb_refl. by repeat split. }
  destruct (accepted info).
  2:{ eexists _, _, [EvStat path]. split; [reflexivity|]. cbn.
      rewrite String.eqb_refl. by repeat split. }
  set (outputFile := filepath_Join outputDir (strings_TrimPrefix path inputDir)).
  set (s1 := MkdirAll (filepath_Dir outputFile) (log (EvStat path) s)).
  destruct (compressImage_calls path outputFile s1) as (evs & Htr & Hevs).
  pose proof (compressImage_vars path outputFile maxPixels watermarkText fontPath s1)
    as (_ & _ & Hmu2).
  assert (Hitem : forallb (item_event outputDir inputDir fontPath path) evs = true).
  { rewrite forallb_forall in Hevs |- *. intros e He. specialize (Hevs e He).
    unfold item_event. fold outputFile. destruct e; try done. }
  destruct (compressImage path outputFile maxPixels watermarkText fontPath s1)
    as [s2 [err|]]; cbn [fst] in *.
  - rewrite record_failure_free by (rewrite Hmu2; exact Hmu).
    cbn [mbind run_bind].
    eexists _, _, ([EvStat path; EvMkdirAll (filepath_Dir outputFile)] ++ evs).
    split; [reflexivity|]. cbn [mu trace]. split; [done|].
    rewrite Htr. subst s1. cbn [MkdirAll trace log set_world].
    rewrite <- !app_assoc. split; [reflexivity|]. split; [reflexivity|].
    cbn [app forallb]. rewrite Hitem. unfold item_event at 1 2. fold outputFile.
    by rewrite !String.eqb_refl.
  - cbn [Stat bar_Add world].
    destruct (os_Stat outputFile (world s2)) as [info'|];
      eexists _, _, ([EvStat path; EvMkdirAll (filepath_Dir outputFile)] ++ evs
                     ++ [EvStat outputFile]);
      (split; [reflexivity|]); cbn [mu trace log bar_Add];
      (split; [rewrite Hmu2; exact Hmu|]);
      rewrite Htr; subst s1; cbn [MkdirAll trace log set_world];
      rewrite <- !app_assoc; (split; [reflexivity|]); (split; [reflexivity|]);
      cbn [app forallb]; rewrite forallb_app, Hitem; cbn [forallb];
      unfold item_event; fold outputFile;
      by rewrite !String.eqb_refl, ?orb_true_r.
Qed.

Lemma range_batch_calls files : forall (s : state World) total,
  mu s = false ->
  exists s' total' evss,
    range_batch (compressImages_file (Image := Image) outputDir inputDir
                   watermarkText fontPath maxPixels) files (s, total)
    = Ret (s', total') /\
    trace s' = trace s ++ concat evss /\
    calls_by_item outputDir inputDir fontPath files evss.
Proof.
  induction files as [|path files IH]; intros s total Hmu.
  - exists s, total, []. cbn. rewrite app_nil_r. repeat split. constructor.
  - destruct (compressImages_file_calls path s total Hmu)
      as (s1 & t1 & evs & Hstep & Hmu1 & Htr1 & Hhd & Hev).
    destruct (IH s1 t1 Hmu1) as (s2 & t2 & evss & Hrest & Htr2 & Hby).
    exists s2, t2, (evs :: evss). cbn [range_batch]. rewrite Hstep.
    cbn [mbind run_bind]. split; [exact Hrest|]. split.
    + rewrite Htr2, Htr1. cbn [concat]. by rewrite app_assoc.
    + constructor; [by split|exact Hby].
Qed.

(** X11.  The calls a worker makes come item by item in the order of
    its share: for every item first [os.Stat] of the item, then only
    calls on the item, on its output file, on the directory of that
    file and on the font. *)
Theorem worker_calls_follow_share fuel threadID files (s : state World) :
  2 * len files <= Int.max_int ->
  (length files <= fuel)%nat ->
  mu s = false ->
  exists s' total evss,
    compressImages (Image := Image) fuel threadID files outputDir inputDir
      watermarkText fontPath maxPixels s = Ret (s', (total, None)) /\
    trace s' = trace s ++ concat evss /\
    calls_by_item outputDir inputDir fontPath files evss.
Proof.
  intros Hmax Hfuel Hmu.
  destruct (compressImages_returns outputDir inputDir watermarkText fontPath
              maxPixels fuel threadID files s Hmax Hfuel Hmu)
    as (s' & total & Hrun & Hrange & _).
  destruct (range_batch_calls files s 0 Hmu) as (s2 & t2 & evss & Hrange2 & Htr & Hby).
  rewrite Hrange in Hrange2. inversion Hrange2; subst.
  by exists s2, t2, evss.
Qed.

End WorkerCalls.

Section Progress.

Context {World Image : Type} `{!OS World} `{!Paths} `{!Imaging Image}.
Variables (outputDir inputDir watermarkText fontPath : string) (maxPixels : Z).

Lemma count_bounds (p : Outcome -> bool) (os : list Outcome) :
  0 <= count p os <= len os.
Proof.
  unfold count, len. pose proof (length_filter (fun o => p o = true) os). lia.
Qed.

(** X12.  A worker started by [main] with a fresh progress bar never
    advances it beyond the maximum the bar was created with, and
    appends at most one path per item of its share to [failedFiles]. *)
Theorem progress_stays_within_bar (filePaths : list string) (numThreads : Z)
    (fuel fuel' : nat) (s : state World) :
  0 < numThreads ->
  2 * len filePaths + numThreads <= Int.max_int ->
  (Z.to_nat numThreads <= fuel)%nat ->
  (length filePaths <= fuel')%nat ->
  mu s = false ->
  bar s = 0 ->
  exists shares barMax,
    main_launches fuel filePaths numThreads = Ret shares /\
    main_bars filePaths numThreads = Ret (replicate (Z.to_nat numThreads) barMax) /\
    forall share, share ∈ shares ->
      exists s' total,
        compressImages (Image := Image) fuel' (threadID share) (files share)
          outputDir inputDir watermarkText fontPath maxPixels s
        = Ret (s', (total, None)) /\
        0 <= bar s' <= len (files share) /\
        len (files share) <= barMax /\
        exists failed,
          failedFiles s' = failedFiles s ++ failed /\
          len failed + bar s' <= len (files share).
Proof.
  intros Hn Hmax Hfuel Hfuel' Hmu Hbar.
  pose proof (len_nonneg filePaths) as Hl.
  set (chunkSize := ceil_div (len filePaths) numThreads).
  destruct (ceil_div_bounds (len filePaths) numThreads Hl Hn) as [Hcs _].
  fold chunkSize in Hcs.
  pose proof (ceil_div_floor (len filePaths) numThreads Hl Hn) as Hfloor.
  fold chunkSize in Hfloor.
  pose proof (share_sizes filePaths chunkSize) as Hsize.
  set (m := launched_count (len filePaths) chunkSize) in *.
  exists (the_share filePaths chunkSize <$> seqZ 0 m), (len filePaths / numThreads + 1).
  split; [apply main_launches_prefix; [done|lia|done]|].
  split; [apply main_bars_value; [done|lia]|].
  intros share Hin. apply list_elem_of_fmap in Hin as (i & -> & Hi).
  apply elem_of_seqZ in Hi. destruct (Hsize i Hcs ltac:(lia)) as [[H1 H2] _].
  set (fs := files (the_share filePaths chunkSize i)) in *.
  assert (Hfs : len fs <= len filePaths).
  { subst fs. rewrite the_share_length by lia.
    unfold share_start, share_end. lia. }
  destruct (compressImages_returns outputDir inputDir watermarkText fontPath
              maxPixels fuel' (threadID (the_share filePaths chunkSize i)) fs s)
    as (s' & total & Hrun & _ & _ & Hfailed & Hb & _ & Hlen);
    [lia|unfold len in *; lia|exact Hmu|].
  exists s', total. split; [exact Hrun|].
  set (os := outcomes outputDir inputDir watermarkText fontPath maxPixels fs (s, 0)) in *.
  pose proof (count_bounds is_success os) as Hs.
  pose proof (count_bounds is_skipped os) as Hk.
  pose proof (count_partition os) as Hp.
  pose proof (failed_paths_count os) as Hf.
  assert (Hlen' : len os = len fs) by (unfold len; lia).
  split; [lia|]. split.
  { destruct (Z.eqb_spec (len filePaths mod numThreads) 0); lia. }
  exists (failed_paths os). split; [exact Hfailed|]. lia.
Qed.

Lemma item_outcome_failure_path path (s : state World) p :
  item_outcome (Image := Image) outputDir inputDir watermarkText fontPath maxPixels
    path s = Failure p ->
  p = strings_TrimPrefix path inputDir.
Proof.
  unfold item_outcome. cbn [Stat].
  destruct (os_Stat path (world s)) as [info|]; [|by inversion 1].
  destruct (accepted info); [|done].
  destruct (compressImage _ _ _ _ _ _) as [s2 [err|]]; [by inversion 1|done].
Qed.

Lemma failed_paths_sublist files : forall acc : state World * Z,
  failed_paths (outcomes (Image := Image) outputDir inputDir watermarkText
                  fontPath maxPixels files acc)
  `sublist_of` ((fun path => strings_TrimPrefix path inputDir) <$> files).
Proof.
  induction files as [|path files IH]; intros acc; [done|].
  cbn [outcomes]. rewrite failed_paths_cons, fmap_cons.
  assert (Hrest : forall os,
            os `sublist_of` ((fun path => strings_TrimPrefix path inputDir) <$> files) ->
            failed_paths [item_outcome (Image := Image) outputDir inputDir
                            watermarkText fontPath maxPixels path acc.1] ++ os
            `sublist_of` strings_TrimPrefix path inputDir
                         :: ((fun path => strings_TrimPrefix path inputDir) <$> files)).
  { intros os Hos.
    destruct (item_outcome _ _ _ _ _ path acc.1) as [b|p|] eqn:Ho; cbn.
    - by apply sublist_cons.
    - apply item_outcome_failure_path in Ho as ->. by apply sublist_skip.
    - by apply sublist_cons. }
  apply Hrest.
  destruct (compressImages_file _ _ _ _ _ path acc) as [acc'| |]; [apply IH|..];
    apply sublist_nil_l.
Qed.

(** X13.  The paths a worker appends to [failedFiles] are paths of its
    share with the prefix [inputDir] removed, in the order of the
    share and at most one per item. *)
Theorem failed_paths_are_trimmed_items fuel threadID files (s : state World) :
  2 * len files <= Int.max_int ->
  (length files <= fuel)%nat ->
  mu s = false ->
  exists s' total failed,
    compressImages (Image := Image) fuel threadID files outputDir inputDir
      watermarkText fontPath maxPixels s = Ret (s', (total, None)) /\
    failedFiles s' = failedFiles s ++ failed /\
    failed `sublist_of` ((fun path => strings_TrimPrefix path inputDir) <$> files).
Proof.
  intros Hmax Hfuel Hmu.
  destruct (compressImages_returns outputDir inputDir watermarkText fontPath
              maxPixels fuel threadID files s Hmax Hfuel Hmu)
    as (s' & total & Hrun & _ & _ & Hfailed & _).
  exists s', total, (failed_paths (outcomes (Image := Image) outputDir inputDir
                                     watermarkText fontPath maxPixels files (s, 0))).
  split; [exact Hrun|]. split; [exact Hfailed|]. apply failed_paths_sublist.
Qed.

End Progress.

Lemma strings_HasPrefix_self (p : string) : strings_HasPrefix p p = true.
Proof.
  unfold strings_HasPrefix. induction p as [|c p IH]; [reflexivity|].
  cbn. destruct (ascii_dec c c); [exact IH|done].
Qed.

Lemma substring_at_end (p : string) : String.substring (String.length p) 0 p = EmptyString.
Proof. induction p as [|c p IH]; [reflexivity|exact IH]. Qed.

Lemma strings_TrimPrefix_self (p : string) : strings_TrimPrefix p p = EmptyString.
Proof.
  unfold strings_TrimPrefix. rewrite strings_HasPrefix_self, Nat.sub_diag.
  apply substring_at_end.
Qed.

Section SingleFile.

Context {World Image : Type} `{!OS World} `{!Paths} `{!Imaging Image}.
Variables (compressedFolder watermarkText fontPath : string) (maxPixels : Z).

(** X14.  When the input path is a single file, [main] hands
    [compressImages] that path both as the only item and as
    [inputDir]: the relative path is empty, so the output file is
    [filepath.Join(compressedFolder, ...)] of the empty string whatever
    the name of the input, and a failure is recorded under the empty
    path. *)
Theorem single_file_relative_path_is_empty fuel threadID inputPath (s : state World) :
  (1 <= fuel)%nat ->
  mu s = false ->
  exists s' total evs,
    compressImages (Image := Image) fuel threadID [inputPath] compressedFolder
      inputPath watermarkText fontPath maxPixels s = Ret (s', (total, None)) /\
    trace s' = trace s ++ evs /\
    (forall e, e ∈ evs -> touches_output e = true ->
       event_path e = filepath_Join compressedFolder EmptyString) /\
    (failedFiles s' = failedFiles s \/ failedFiles s' = failedFiles s ++ [EmptyString]).
Proof.
  intros Hfuel Hmu.
  destruct (compressImages_returns compressedFolder inputPath watermarkText fontPath
              maxPixels fuel threadID [inputPath] s)
    as (s' & total & Hrun & Hrange & _ & Hfailed & _);
    [by vm_compute|exact Hfuel|exact Hmu|].
  cbn [range_batch] in Hrange.
  destruct (compressImages_file_calls compressedFolder inputPath watermarkText
              fontPath maxPixels inputPath s 0 Hmu)
    as (s1 & t1 & evs & Hstep & _ & Htr & _ & Hev).
  rewrite Hstep in Hrange. cbn [mbind run_bind] in Hrange.
  inversion Hrange; subst s1 t1.
  exists s', total, evs. split; [exact Hrun|]. split; [exact Htr|]. split.
  - intros e He Hout. rewrite forallb_forall in Hev.
    apply list_elem_of_In in He. specialize (Hev e He).
    unfold item_event in Hev. rewrite strings_TrimPrefix_self in Hev.
    destruct e; try discriminate Hout; cbn [event_path];
      by apply String.eqb_eq in Hev.
  - rewrite Hfailed.
    pose proof (failed_paths_sublist compressedFolder inputPath watermarkText fontPath
                  maxPixels [inputPath] (s, 0)) as Hsub.
    rewrite fmap_cons, strings_TrimPrefix_self in Hsub. cbn [fmap list_fmap] in Hsub.
    destruct (failed_paths _) as [|p [|q l]].
    + left. by rewrite app_nil_r.
    + right. apply sublist_cons_l in Hsub as (k1 & k2 & Hk & _).
      destruct k1 as [|x k1]; [by inversion Hk|].
      inversion Hk as [[Hx Hnil]]. by destruct k1.
    + apply sublist_length in Hsub. cbn in Hsub. lia.
Qed.

End SingleFile.

Module WalkerFacts.
Import Walker.

Lemma tree_induction (P : tree -> Prop) :
  (forall path info entries, Forall P entries -> P (Entry path info entries)) ->
  (forall path info err, P (Unreadable path info err)) ->
  (forall path err, P (Broken path err)) ->
  forall t, P t.
Proof.
  intros HE HU HB. fix IH 1. intros [path info entries|path info err|path err].
  - apply HE. induction entries as [|t entries IHl]; constructor; [apply IH|exact IHl].
  - apply HU.
  - apply HB.
Qed.

Section WalkFacts.

Context {World : Type} `{!OS World} `{!Paths} `{!PathBase} `{!StatErrors World}.
Variables (folderPath outputFolder : string) (w : World).

Abbreviation walk := (Walker.walk folderPath outputFolder w).
Abbreviation walkFn := (Walker.walkFn folderPath outputFolder w).
Abbreviation selected := (Walker.selected folderPath outputFolder w).
Abbreviation skipped := (Walker.skipped outputFolder).
Abbreviation reached := (Walker.reached outputFolder).
Abbreviation prune := (Walker.prune outputFolder).
Abbreviation first_error := (Walker.first_error outputFolder).

Lemma skipped_is_dir path info : skipped path info = true -> fi_IsDir info = true.
Proof. unfold Walker.skipped. by intros [? _]%andb_true_iff. Qed.

Lemma accepted_not_dir info : accepted info = true -> fi_IsDir info = false.
Proof. unfold accepted. intros [H1 _]%andb_true_iff. by destruct (fi_IsDir info). Qed.

(** the function on an entry that could be inspected *)
Lemma walkFn_found path info st :
  walkFn path (Some info) None st
  = if skipped path info then Ret (st, SkipDir)
    else Ret (select_all (filter (fun item => selected item = true) [(path, info)]) st, Nil).
Proof.
  unfold Walker.walkFn. destruct (skipped path info); [reflexivity|].
  rewrite filter_cons, filter_nil. unfold Walker.selected. cbn [fst snd].
  destruct (accepted info); cbn [andb].
  - destruct (missing w _); case_decide; done.
  - case_decide; done.
Qed.

Lemma select_all_app items1 items2 st :
  select_all (items1 ++ items2) st = select_all items2 (select_all items1 st).
Proof. unfold select_all. by rewrite foldl_app. Qed.

Lemma prune_absorbs t : absorbs (prune t) = absorbs t.
Proof. by destruct t. Qed.

Lemma walk_prune t : forall st, walk (prune t) st = walk t st.
Proof.
  induction t as [path info entries IH|path info err|path err] using tree_induction;
    intros st; [|reflexivity..].
  cbn [Walker.prune Walker.walk]. destruct (fi_IsDir info) eqn:Hdir; [|reflexivity].
  rewrite walkFn_found. destruct (skipped path info) eqn:Hskip; [reflexivity|].
  cbn [mbind run_bind]. generalize (select_all
    (filter (fun item => selected item = true) [(path, info)]) st). clear st.
  induction IH as [|t entries Ht _ IHl]; intros st; [reflexivity|].
  rewrite fmap_cons. cbn [walk_entries]. rewrite Ht, prune_absorbs.
  destruct (walk t st) as [[st1 [| |e]]| |]; cbn [mbind run_bind]; try reflexivity.
  - apply IHl.
  - destruct (absorbs t); [apply IHl|reflexivity].
Qed.

(** X15.  What lies beneath a directory named [compressed_files], or
    beneath the output folder, has no influence on the result of
    [calculateTotalSizeAndCount], not even an entry that cannot be
    inspected. *)
Theorem skipped_directories_do_not_matter (root : tree) :
  calculateTotalSizeAndCount folderPath outputFolder w (prune root)
  = calculateTotalSizeAndCount folderPath outputFolder w root.
Proof.
  unfold calculateTotalSizeAndCount, filepath_Walk. by rewrite walk_prune.
Qed.

Lemma walk_healthy t : forall st,
  healthy t = true ->
  exists r,
    walk t st
    = Ret (select_all (filter (fun item => selected item = true) (reached t)) st, r) /\
    (r = Nil \/ (r = SkipDir /\ absorbs t = true)).
Proof.
  induction t as [path info entries IH|path info err|path err] using tree_induction;
    intros st Hh; [| |discriminate Hh].
  - cbn [Walker.walk Walker.reached]. cbn [healthy] in Hh.
    destruct (fi_IsDir info) eqn:Hdir.
    2:{ rewrite walkFn_found.
        destruct (skipped path info) eqn:Hskip;
          [apply skipped_is_dir in Hskip; congruence|].
        eexists. split; [reflexivity|]. by left. }
    rewrite walkFn_found. destruct (skipped path info) eqn:Hskip.
    { exists SkipDir. split; [reflexivity|]. right. by split. }
    cbn [mbind run_bind].
    assert (Hself : filter (fun item => selected item = true) [(path, info)] = []).
    { rewrite filter_cons, filter_nil. case_decide as Hs; [|done].
      unfold Walker.selected in Hs. apply andb_true_iff in Hs as [Ha _].
      apply accepted_not_dir in Ha. cbn in Ha. congruence. }
    rewrite Hself. cbn [select_all foldl]. fold (select_all [] st).
    exists Nil. split; [|by left].
    revert st. induction IH as [|t entries Ht _ IHl]; intros st; [reflexivity|].
    cbn [forallb] in Hh. apply andb_true_iff in Hh as [Hht Hhl].
    cbn [walk_entries flat_map]. rewrite filter_app, select_all_app.
    destruct (Ht st Hht) as (r & -> & Hr). cbn [mbind run_bind].
    destruct Hr as [->|[-> Habs]]; [|rewrite Habs]; by apply IHl.
  - cbn [Walker.walk Walker.reached]. cbn [healthy] in Hh.
    destruct (fi_IsDir info) eqn:Hdir; [discriminate Hh|].
    rewrite walkFn_found.
    destruct (skipped path info) eqn:Hskip;
      [apply skipped_is_dir in Hskip; congruence|].
    eexists. split; [reflexivity|]. by left.
Qed.

Lemma select_all_totalFiles items st :
  Int.wrap (totalFiles (select_all items st)) = Int.wrap (totalFiles st + len items).
Proof.
  revert st. induction items as [|item items IH]; intros st.
  - unfold len. cbn. by rewrite Z.add_0_r.
  - cbn [select_all foldl]. fold (select_all items (select item.1 item.2 st)).
    rewrite IH. cbn [select totalFiles]. unfold Int.add.
    rewrite Int_wrap_add_l. f_equal. unfold len. cbn [length]. lia.
Qed.

Lemma select_all_totalSize items st :
  Int.wrap (totalSize (select_all items st)) = Int.wrap (totalSize st + sum_sizes items).
Proof.
  revert st. induction items as [|item items IH]; intros st.
  - cbn. by rewrite Z.add_0_r.
  - cbn [select_all foldl]. fold (select_all items (select item.1 item.2 st)).
    rewrite IH. cbn [select totalSize sum_sizes foldr]. fold (sum_sizes items). unfold Int.add.
    rewrite Int_wrap_add_l. f_equal. lia.
Qed.

Lemma select_all_filePaths items st :
  filePaths (select_all items st) = filePaths st ++ items.*1.
Proof.
  revert st. induction items as [|item items IH]; intros st.
  - cbn. by rewrite app_nil_r.
  - cbn [select_all foldl]. fold (select_all items (select item.1 item.2 st)).
    rewrite IH. cbn [select filePaths]. by rewrite <- app_assoc.
Qed.

Lemma select_all_in_range items st :
  Int.in_range (totalFiles st) -> Int.in_range (totalSize st) ->
  Int.in_range (totalFiles (select_all items st)) /\
  Int.in_range (totalSize (select_all items st)).
Proof.
  revert st. induction items as [|item items IH]; intros st H1 H2; [done|].
  cbn [select_all foldl]. fold (select_all items (select item.1 item.2 st)).
  apply IH; cbn [select totalFiles totalSize]; unfold Int.add; apply Int_wrap_range.
Qed.

Lemma walkFn_returns path info err st :
  (info = None -> err <> None) ->
  exists st' r, walkFn path info err st = Ret (st', r).
Proof.
  intros Hinfo. unfold Walker.walkFn.
  destruct err as [e|]; [by eexists _, _|].
  destruct info as [info|]; [|by destruct Hinfo].
  destruct (skipped path info); [by eexists _, _|].
  destruct (accepted info); [|by eexists _, _].
  destruct (missing w _); by eexists _, _.
Qed.

Lemma walk_returns t : forall st, exists st' r, walk t st = Ret (st', r).
Proof.
  induction t as [path info entries IH|path info err|path err] using tree_induction;
    intros st.
  - cbn [Walker.walk]. destruct (fi_IsDir info); [|by apply walkFn_returns].
    destruct (walkFn_returns path (Some info) None st ltac:(done)) as (st1 & r & ->).
    cbn [mbind run_bind]. destruct r; [|by eexists _, _..].
    revert st1. induction IH as [|t entries Ht _ IHl]; intros st1; [by eexists _, _|].
    cbn [walk_entries]. destruct (Ht st1) as (st2 & r & ->). cbn [mbind run_bind].
    destruct r; [apply IHl| |by eexists _, _].
    destruct (absorbs t); [apply IHl|by eexists _, _].
  - cbn [Walker.walk]. destruct (fi_IsDir info); by apply walkFn_returns.
  - cbn [Walker.walk]. by apply walkFn_returns.
Qed.

Lemma calculate_returns (root : tree) :
  exists r, calculateTotalSizeAndCount folderPath outputFolder w root = Ret r.
Proof.
  unfold calculateTotalSizeAndCount, filepath_Walk.
  destruct (walk_returns root (mkTally 0 0 [])) as (st & r & ->).
  cbn [mbind run_bind]. destruct r; by eexists.
Qed.

Lemma calculate_healthy (root : tree) :
  healthy root = true ->
  let items := filter (fun item => selected item = true) (reached root) in
  calculateTotalSizeAndCount folderPath outputFolder w root
  = Ret (Int.wrap (len items), Int.wrap (sum_sizes items), items.*1, None).
Proof.
  intros Hh items. unfold calculateTotalSizeAndCount, filepath_Walk.
  destruct (walk_healthy root (mkTally 0 0 []) Hh) as (r & -> & Hr).
  fold items. cbn [mbind run_bind].
  assert (Hnone : match r with Err e => Some e | _ => None end = None).
  { by destruct Hr as [->|[-> _]]. }
  rewrite Hnone.
  destruct (select_all_in_range items (mkTally 0 0 [])) as [R1 R2];
    [by vm_compute; split; intros ?; discriminate..|].
  pose proof (select_all_totalFiles items (mkTally 0 0 [])) as H1.
  pose proof (select_all_totalSize items (mkTally 0 0 [])) as H2.
  rewrite (Int_wrap_small _ R1) in H1. rewrite (Int_wrap_small _ R2) in H2.
  rewrite select_all_filePaths, H1, H2. reflexivity.
Qed.

(** X16.  When everything below the root can be inspected,
    [calculateTotalSizeAndCount] returns no error; the paths it returns
    are those of the files reached by the walk that have an accepted
    extension and no compressed file yet, in the order of the walk;
    [totalFiles] is their number and [totalSize] the sum of their
    sizes, both as 64-bit integers. *)
Theorem walk_counts_selected_files (root : tree) :
  healthy root = true ->
  exists filePaths items,
    calculateTotalSizeAndCount folderPath outputFolder w root
    = Ret (Int.wrap (len filePaths), Int.wrap (sum_sizes items), filePaths, None) /\
    items = filter (fun item => selected item = true) (reached root) /\
    filePaths = items.*1 /\
    (len filePaths <= Int.max_int ->
     calculateTotalSizeAndCount folderPath outputFolder w root
     = Ret (len filePaths, Int.wrap (sum_sizes items), filePaths, None)).
Proof.
  intros Hh.
  set (items := filter (fun item => selected item = true) (reached root)).
  exists (items.*1), items.
  assert (Hlen : len items.*1 = len items) by (unfold len; by rewrite length_fmap).
  rewrite Hlen. split; [by apply calculate_healthy|]. split; [done|]. split; [done|].
  intros Hsmall. rewrite (calculate_healthy root Hh). fold items.
  rewrite (Int_wrap_small (len items)); [done|].
  pose proof (len_nonneg items). unfold Int.in_range, Int.min_int. lia.
Qed.

Lemma walk_entries_healthy entries : forall st,
  forallb healthy entries = true ->
  walk_entries walk entries st
  = Ret (select_all (filter (fun item => selected item = true)
                       (flat_map reached entries)) st, Nil).
Proof.
  induction entries as [|t entries IH]; intros st Hh; [reflexivity|].
  cbn [forallb] in Hh. apply andb_true_iff in Hh as [Hht Hhl].
  cbn [walk_entries flat_map]. rewrite filter_app, select_all_app.
  destruct (walk_healthy t st Hht) as (r & -> & Hr). cbn [mbind run_bind].
  destruct Hr as [->|[-> Habs]]; [|rewrite Habs]; by apply IH.
Qed.

(** how a walk ends, by the first entry that cannot be inspected *)
Lemma walk_first_error t : forall st,
  match first_error t with
  | Some e => exists st', walk t st = Ret (st', Err e)
  | None =>
      exists st' r, walk t st = Ret (st', r) /\
                    (r = Nil \/ (r = SkipDir /\ absorbs t = true))
  end.
Proof.
  induction t as [path info entries IH|path info err|path err] using tree_induction;
    intros st.
  - cbn [Walker.walk Walker.first_error].
    destruct (fi_IsDir info) eqn:Hdir; cbn [andb].
    2:{ rewrite walkFn_found.
        destruct (skipped path info) eqn:Hskip;
          [apply skipped_is_dir in Hskip; congruence|].
        eexists _, _. split; [reflexivity|]. by left. }
    rewrite walkFn_found.
    destruct (skipped path info) eqn:Hskip; cbn [negb].
    { eexists _, _. split; [reflexivity|]. right. by split. }
    cbn [mbind run_bind].
    generalize (select_all (filter (fun item => selected item = true)
                              [(path, info)]) st).
    clear st. induction IH as [|t entries Ht _ IHl]; intros st.
    + cbn. eexists _, _. split; [reflexivity|]. by left.
    + cbn [walk_entries]. specialize (Ht st).
      change (omap first_error (t :: entries))
        with (match first_error t with
              | Some e => e :: omap first_error entries
              | None => omap first_error entries
              end).
      destruct (first_error t) as [e|].
      * destruct Ht as (st' & ->). cbn [mbind run_bind head]. by exists st'.
      * destruct Ht as (st' & r & -> & Hr). cbn [mbind run_bind].
        destruct Hr as [->|[-> Habs]]; [|rewrite Habs]; apply IHl.
  - cbn [Walker.walk Walker.first_error]. destruct (fi_IsDir info) eqn:Hdir.
    + by eexists.
    + rewrite walkFn_found.
      destruct (skipped path info) eqn:Hskip;
        [apply skipped_is_dir in Hskip; congruence|].
      eexists _, _. split; [reflexivity|]. by left.
  - cbn [Walker.walk Walker.first_error]. by eexists.
Qed.

(** X17.  An entry that cannot be inspected, wherever the walk meets
    it (the root itself, a child of the root, or an entry at any depth
    below it, outside the directories that are skipped), makes
    [calculateTotalSizeAndCount] fail with the error of the first such
    entry, and what was counted before it is discarded: the result is
    zero files, zero bytes and no paths. *)
Theorem walk_error_discards_count (root : tree) (e : error) :
  first_error root = Some e ->
  calculateTotalSizeAndCount folderPath outputFolder w root
  = Ret (0, 0, [], Some ("failed to walk the directory: " ++ e)%string).
Proof.
  intros Hfirst. unfold calculateTotalSizeAndCount, filepath_Walk.
  pose proof (walk_first_error root (mkTally 0 0 [])) as Hwalk.
  rewrite Hfirst in Hwalk. destruct Hwalk as (st' & ->). reflexivity.
Qed.

End WalkFacts.
End WalkerFacts.

Section WalkerAndWorker.

Import Walker.
Context {World Image : Type} `{!OS World} `{!Paths} `{!Imaging Image}
  `{!PathBase} `{!StatErrors World}.
Variables (folderPath outputFolder watermarkText fontPath : string) (maxPixels : Z).

(** X18.  A file the worker has compressed, and whose output it could
    inspect, is not selected by a later walk over the world the worker
    left, provided the path the walk looks at (lines 62-63) is the
    path the worker wrote to (lines 199-200). *)
Theorem compressed_file_is_not_selected_again path (info : FileInfo)
    (s s1 : state World) (total total1 n : Z) :
  filepath_Join
    (filepath_Dir (filepath_Join outputFolder (strings_TrimPrefix path folderPath)))
    (fi_Name info)
  = filepath_Join outputFolder (strings_TrimPrefix path folderPath) ->
  compressImages_file (Image := Image) outputFolder folderPath watermarkText
    fontPath maxPixels path (s, total) = Ret (s1, total1) ->
  item_outcome (Image := Image) outputFolder folderPath watermarkText fontPath
    maxPixels path s = Success (Some n) ->
  Walker.selected folderPath outputFolder (world s1) (path, info) = false.
Proof.
  intros Hsame Hrun Hout. unfold Walker.selected, compressedFilePath, missing.
  cbn [fst snd]. rewrite Hsame.
  unfold compressImages_file, item_outcome in *. cbn [Stat] in *.
  destruct (os_Stat path (world s)) as [info0|]; [|discriminate Hout].
  destruct (accepted info0); [|discriminate Hout].
  cbv zeta in Hrun, Hout.
  destruct (compressImage _ _ _ _ _ _) as [s2 [err|]].
  1: discriminate Hout.
  cbn [Stat bar_Add world log snd] in *.
  destruct (os_Stat _ (world s2)) as [info'|] eqn:Hstat; [|discriminate Hout].
  inversion Hrun; subst. cbn [world log bar_Add]. rewrite Hstat. apply andb_false_r.
Qed.

(** X19.  Every path [calculateTotalSizeAndCount] returns passes the
    filter of the worker when [os.Stat] reports for it what the walk
    saw: the worker compresses it or records a failure, it does not
    pass it over. *)
Theorem selected_files_pass_the_worker_filter (w : World) (root : tree) :
  healthy root = true ->
  exists totalFiles totalSize filePaths,
    calculateTotalSizeAndCount folderPath outputFolder w root
    = Ret (totalFiles, totalSize, filePaths, None) /\
    forall path, path ∈ filePaths ->
      exists info,
        (path, info) ∈ reached outputFolder root /\
        accepted info = true /\
        missing w (compressedFilePath folderPath outputFolder path info) = true /\
        forall (s : state World) outputDir inputDir,
          os_Stat path (world s) = Some info ->
          item_outcome (Image := Image) outputDir inputDir watermarkText fontPath
            maxPixels path s <> Skipped.
Proof.
  intros Hh. rewrite (WalkerFacts.calculate_healthy folderPath outputFolder w root Hh).
  eexists _, _, _. split; [reflexivity|].
  intros path Hin. apply list_elem_of_fmap in Hin as ([p info] & -> & Hin).
  apply list_elem_of_filter in Hin as [Hsel Hin]. cbn [fst].
  unfold Walker.selected in Hsel. cbn [fst snd] in Hsel.
  apply andb_true_iff in Hsel as [Hacc Hmiss].
  exists info. split; [exact Hin|]. split; [exact Hacc|]. split; [exact Hmiss|].
  intros s outputDir inputDir Hstat. unfold item_outcome. cbn [Stat].
  rewrite Hstat, Hacc. by destruct (compressImage _ _ _ _ _ _) as [s2 [err|]].
Qed.

End WalkerAndWorker.

Module SchedulingFacts.
Import Aggregator AggregatorFacts AggregatorProgress Scheduling.

Lemma reachable_invariant schedule workers c :
  exec schedule (init workers) = Some c ->
  invariant (sum (sizes (concat workers))) (paths (concat workers)) c.
Proof. intros H. eapply exec_invariant; [apply init_invariant|exact H]. Qed.

(** X20.  Mutual exclusion: in every state the threads can reach, at
    most one thread is between [mu.Lock()] and [mu.Unlock()], and it is
    the one the mutex is held by. *)
Theorem one_thread_in_critical_section (workers : list (list action))
    (schedule : list nat) (c : config) (t t' : nat) (th th' : thread) :
  exec schedule (init workers) = Some c ->
  threads c !! t = Some th ->
  threads c !! t' = Some th' ->
  pos th <> Idle ->
  pos th' <> Idle ->
  t = t' /\ mu (mem c) = Some t.
Proof.
  intros Hexec Ht Ht' Hpos Hpos'.
  pose proof (reachable_invariant _ _ _ Hexec) as Hinv.
  pose proof (inv_owner _ _ _ Hinv t th Ht Hpos) as H1.
  pose proof (inv_owner _ _ _ Hinv t' th' Ht' Hpos') as H2.
  split; [congruence|exact H1].
Qed.

Lemma init_well_formed ws : well_formed (init ws).
Proof.
  split; cbn [init mem threads mu]; [done|].
  intros t th Hth. rewrite list_lookup_fmap in Hth.
  destruct (ws !! t); inversion Hth; subst. done.
Qed.

Lemma step_well_formed t c c' :
  well_formed c -> step t c = Some c' -> well_formed c'.
Proof.
  intros [Hholder Hready] Hstep. unfold step in Hstep.
  destruct (threads c !! t) as [th|] eqn:Hth; [|done]. cbn in Hstep.
  destruct (step_thread t th (mem c)) as [[th' m']|] eqn:Hst; [|done].
  cbn in Hstep. inversion Hstep; subst c'; clear Hstep.
  pose proof (lookup_lt_Some _ _ _ Hth) as Hlt.
  assert (Hready' : ready th' /\
            ((pos th' <> Idle /\ (mu m' = Some t \/ mu m' = mu (mem c))) \/
             mu m' = None)).
  { unfold step_thread in Hst. specialize (Hready t th Hth). unfold ready in *.
    destruct (pos th) eqn:Hp, (todo th) as [|[p|n] rest] eqn:Htd;
      try discriminate Hst; try (destruct (mu (mem c)) eqn:Hmu; try discriminate Hst);
      inversion Hst; subst; cbn [pos todo mu];
      (split; [try done; by destruct rest as [|[]]|]);
      first [by right | left; split; [done|]; first [by left | by right]]. }
  destruct Hready' as [Hr Hmu'].
  split; cbn [mem threads].
  - intros t0 Hmu0. destruct (decide (t0 = t)) as [->|Hne].
    + exists th'. rewrite list_lookup_insert_eq by exact Hlt.
      split; [done|]. destruct Hmu' as [[Hp _]|Hn]; [exact Hp|congruence].
    + rewrite list_lookup_insert_ne by done.
      destruct Hmu' as [[_ [Ht|Hsame]]|Hn]; [congruence| |congruence].
      apply Hholder. congruence.
  - intros t0 th0 Hth0. destruct (decide (t0 = t)) as [->|Hne].
    + rewrite list_lookup_insert_eq in Hth0 by exact Hlt. by inversion Hth0; subst.
    + rewrite list_lookup_insert_ne in Hth0 by done. by eapply Hready.
Qed.

Lemma exec_well_formed schedule : forall c c',
  well_formed c -> exec schedule c = Some c' -> well_formed c'.
Proof.
  induction schedule as [|t schedule IH]; intros c c' Hwf Hexec.
  - cbn in Hexec. by inversion Hexec; subst.
  - cbn in Hexec. destruct (step t c) as [c1|] eqn:Hstep; [|done].
    cbn in Hexec. eapply IH; [|exact Hexec]. eapply step_well_formed; eassumption.
Qed.

Lemma not_finished_exists ths :
  forallb thread_done ths = false ->
  exists t th, ths !! t = Some th /\ thread_done th = false.
Proof.
  induction ths as [|th ths IH]; [done|]. cbn [forallb].
  destruct (thread_done th) eqn:Hd; cbn [andb].
  - intros H. destruct (IH H) as (t & th0 & Ht & Hd0). by exists (S t), th0.
  - intros _. by exists 0%nat, th.
Qed.

(** X21.  No deadlock: in every state the threads can reach, some
    thread can take a step unless all of them have finished. *)
Theorem some_thread_can_step (workers : list (list action))
    (schedule : list nat) (c : config) :
  exec schedule (init workers) = Some c ->
  finished c = false ->
  exists t c', step t c = Some c'.
Proof.
  intros Hexec Hfin.
  pose proof (reachable_invariant _ _ _ Hexec) as Hinv.
  pose proof (exec_well_formed _ _ _ (init_well_formed workers) Hexec) as [Hholder Hready].
  destruct c as [m ths]. cbn [mem threads] in *.
  destruct (mu m) as [t|] eqn:Hmu.
  - destruct (Hholder t eq_refl) as (th & Hth & Hpos).
    specialize (Hready t th Hth). unfold ready in Hready.
    assert (Hst : exists r, step_thread t th m = Some r).
    { unfold step_thread.
      destruct (pos th) eqn:Hp, (todo th) as [|[p|n] rest] eqn:Htd;
        try done; eexists; reflexivity. }
    destruct Hst as ([th' m'] & Hst). exists t. eexists.
    exact (step_eq t th th' m m' ths Hth Hst).
  - destruct (not_finished_exists ths Hfin) as (t & th & Hth & Hd).
    assert (Hidle : pos th = Idle).
    { destruct (pos th) eqn:Hp; [done|..];
        pose proof (inv_owner _ _ _ Hinv t th Hth) as Ho; cbn [mem] in Ho;
        rewrite Hp, Hmu in Ho; by discriminate Ho. }
    unfold thread_done in Hd. rewrite Hidle in Hd.
    destruct (todo th) as [|a rest] eqn:Htd; [discriminate Hd|].
    exists t. eexists. eapply (step_eq t th _ m _ ths Hth).
    unfold step_thread. rewrite Hidle, Htd, Hmu. reflexivity.
Qed.

Lemma step_failedFiles_prefix size failed t c c' :
  invariant size failed c -> step t c = Some c' ->
  failedFiles (mem c) `prefix_of` failedFiles (mem c').
Proof.
  intros Hinv Hstep. unfold step in Hstep.
  destruct (threads c !! t) as [th|] eqn:Hth; [|done]. cbn in Hstep.
  destruct (step_thread t th (mem c)) as [[th' m']|] eqn:Hst; [|done].
  cbn in Hstep. inversion Hstep; subst c'; clear Hstep. cbn [mem].
  pose proof (inv_coherent _ _ _ Hinv t th Hth) as Hco. unfold coherent in Hco.
  unfold step_thread in Hst.
  destruct (pos th) eqn:Hp, (todo th) as [|[p|n] rest] eqn:Htd;
    try discriminate Hst; try (destruct (mu (mem c)) eqn:Hmu; try discriminate Hst);
    inversion Hst; subst; cbn [failedFiles]; try done.
  all: by apply prefix_app_r.
Qed.

(** X22.  What has been appended to [failedFiles] stays: the list at
    any moment of a run is a prefix of the list at every later
    moment. *)
Theorem failedFiles_only_grows (workers : list (list action))
    (before after : list nat) (c c' : config) :
  exec before (init workers) = Some c ->
  exec after c = Some c' ->
  failedFiles (mem c) `prefix_of` failedFiles (mem c').
Proof.
  intros Hexec. pose proof (reachable_invariant _ _ _ Hexec) as Hinv. clear Hexec.
  revert c Hinv. induction after as [|t after IH]; intros c Hinv Hrun.
  - cbn in Hrun. by inversion Hrun; subst.
  - cbn in Hrun. destruct (step t c) as [c1|] eqn:Hstep; [|done]. cbn in Hrun.
    etrans; [eapply step_failedFiles_prefix; eassumption|].
    apply IH; [eapply step_invariant; eassumption|exact Hrun].
Qed.

Lemma work_insert ths t th th' :
  ths !! t = Some th ->
  foldr (fun th acc => steps_left th + acc) 0 (<[t := th']> ths)
  = foldr (fun th acc => steps_left th + acc) 0 ths - steps_left th + steps_left th'.
Proof.
  revert t. induction ths as [|x ths IH]; intros [|t] H; try done.
  - cbn in H. inversion H; subst. cbn. lia.
  - cbn in H. change (<[S t := th']> (x :: ths)) with (x :: <[t := th']> ths).
    cbn [foldr]. rewrite (IH t H). lia.
Qed.

Lemma step_work t c c' : step t c = Some c' -> work c = work c' + 1.
Proof.
  intros Hstep. unfold step in Hstep.
  destruct (threads c !! t) as [th|] eqn:Hth; [|done]. cbn in Hstep.
  destruct (step_thread t th (mem c)) as [[th' m']|] eqn:Hst; [|done].
  cbn in Hstep. inversion Hstep; subst c'; clear Hstep.
  unfold work. cbn [threads]. rewrite (work_insert _ _ _ _ Hth).
  assert (steps_left th = steps_left th' + 1); [|lia].
  unfold step_thread in Hst. unfold steps_left.
  destruct (pos th) eqn:Hp, (todo th) as [|[p|n] rest] eqn:Htd;
    try discriminate Hst; try (destruct (mu (mem c)) eqn:Hmu; try discriminate Hst);
    inversion Hst; subst; cbn [pos todo]; rewrite ?Htd; unfold len; cbn [length]; lia.
Qed.

Lemma exec_work schedule : forall c c',
  exec schedule c = Some c' -> work c = work c' + len schedule.
Proof.
  induction schedule as [|t schedule IH]; intros c c' Hexec.
  - cbn in Hexec. inversion Hexec; subst. unfold len. cbn. lia.
  - cbn in Hexec. destruct (step t c) as [c1|] eqn:Hstep; [|done]. cbn in Hexec.
    rewrite (step_work _ _ _ Hstep), (IH _ _ Hexec). unfold len. cbn [length]. lia.
Qed.

Lemma work_init ws : work (init ws) = 4 * len (concat ws).
Proof.
  unfold work, init. cbn [threads].
  induction ws as [|w ws IH]; [reflexivity|].
  cbn [fmap list_fmap foldr concat]. change (list_fmap _ _ (mkThread Idle) ws)
    with (mkThread Idle <$> ws). rewrite IH.
  unfold steps_left. cbn [pos todo]. unfold len. rewrite length_app. lia.
Qed.

Lemma work_nonneg_finished ths :
  forallb thread_done ths = true ->
  foldr (fun th acc => steps_left th + acc) 0 ths = 0.
Proof.
  induction ths as [|th ths IH]; [done|]. cbn [forallb foldr].
  intros [Hd Hrest]%andb_prop. rewrite (IH Hrest).
  unfold thread_done in Hd. unfold steps_left.
  destruct (pos th); try done. by destruct (todo th).
Qed.

Lemma steps_left_nonneg th : ready th -> 0 <= steps_left th.
Proof.
  unfold ready, steps_left.
  destruct (pos th), (todo th) as [|[p|n] rest]; try done;
    unfold len; cbn [length]; lia.
Qed.

Lemma work_nonneg c : well_formed c -> 0 <= work c.
Proof.
  intros [_ Hready]. unfold work.
  induction (threads c) as [|th ths IH]; [done|]. cbn [foldr].
  pose proof (steps_left_nonneg th (Hready 0%nat th eq_refl)).
  assert (0 <= foldr (fun th acc => steps_left th + acc) 0 ths); [|lia].
  apply IH. intros t th0 H0. apply (Hready (S t) th0 H0).
Qed.

(** X23.  Every statement on a thread's list takes four steps: a run
    has at most four steps for each of them, and a run that ends with
    all threads finished has exactly that many. *)
Theorem run_length (workers : list (list action)) (schedule : list nat) (c : config) :
  exec schedule (init workers) = Some c ->
  len schedule <= 4 * len (concat workers) /\
  (finished c = true -> len schedule = 4 * len (concat workers)).
Proof.
  intros Hexec.
  pose proof (exec_work _ _ _ Hexec) as Hw. rewrite work_init in Hw.
  pose proof (exec_well_formed _ _ _ (init_well_formed workers) Hexec) as Hwf.
  pose proof (work_nonneg c Hwf) as H0.
  split; [lia|]. intros Hfin.
  unfold finished in Hfin. apply work_nonneg_finished in Hfin.
  unfold work in Hw. lia.
Qed.

End SchedulingFacts.

Lemma append_cons c (a b : string) : (String c a ++ b)%string = String c (a ++ b).
Proof. reflexivity. Qed.

Lemma append_nil (b : string) : (EmptyString ++ b)%string = b.
Proof. reflexivity. Qed.

Lemma ascii_lower_space c : is_space (ascii_lower c) = is_space c.
Proof. destruct c as [[] [] [] [] [] [] [] []]; reflexivity. Qed.

Lemma ascii_lower_y c :
  ascii_lower c = "y"%char <-> c = "y"%char \/ c = "Y"%char.
Proof.
  split.
  - destruct c as [[] [] [] [] [] [] [] []]; intros H;
      first [discriminate H | by left | by right].
  - by intros [->| ->].
Qed.

Lemma all_space_ToLower s : all_space (strings_ToLower s) = all_space s.
Proof.
  induction s as [|c s IH]; [reflexivity|].
  cbn [strings_ToLower all_space]. by rewrite ascii_lower_space, IH.
Qed.

Lemma trim_right_empty s : trim_right s = EmptyString <-> all_space s = true.
Proof.
  induction s as [|c s IH]; [done|]. cbn [trim_right all_space].
  destruct (is_space c); cbn [andb].
  - destruct (String.eqb_spec (trim_right s) EmptyString) as [He|Hne].
    + split; [intros _; by apply IH|done].
    + split; [done|]. intros Hs. by apply IH in Hs.
  - split; done.
Qed.

Lemma trim_right_y s :
  trim_right s = "y"%string <->
  exists post, s = String "y" post /\ all_space post = true.
Proof.
  destruct s as [|c s]; [split; [done|by intros (? & ? & _)]|].
  cbn [trim_right].
  destruct (is_space c && String.eqb (trim_right s) EmptyString) eqn:Hc.
  - split; [done|]. intros (post & Heq & Hpost). inversion Heq; subst.
    by cbn in Hc.
  - split.
    + intros Heq. inversion Heq as [[Hcy Hr]]. exists s. split; [done|].
      by apply trim_right_empty.
    + intros (post & Heq & Hpost). inversion Heq; subst.
      apply trim_right_empty in Hpost. by rewrite Hpost.
Qed.

Lemma trim_left_split s :
  exists pre, s = (pre ++ trim_left s)%string /\ all_space pre = true.
Proof.
  induction s as [|c s (pre & Heq & Hpre)]; [by exists EmptyString|].
  cbn [trim_left]. destruct (is_space c) eqn:Hc.
  - exists (String c pre). rewrite append_cons. cbn [all_space]. rewrite Hc, Hpre.
    split; [by f_equal|done].
  - by exists EmptyString.
Qed.

Lemma trim_left_spaces pre s :
  all_space pre = true -> trim_left (pre ++ s) = trim_left s.
Proof.
  induction pre as [|c pre IH]; [done|]. rewrite append_cons.
  cbn [all_space trim_left].
  intros [Hc Hpre]%andb_prop. rewrite Hc. by apply IH.
Qed.

Lemma ToLower_app a b :
  strings_ToLower (a ++ b) = (strings_ToLower a ++ strings_ToLower b)%string.
Proof.
  induction a as [|c a IH]; [done|].
  rewrite append_cons. cbn [strings_ToLower]. by rewrite append_cons, IH.
Qed.

Lemma ToLower_split s : forall a b,
  strings_ToLower s = (a ++ b)%string ->
  exists a' b', s = (a' ++ b')%string /\
                strings_ToLower a' = a /\ strings_ToLower b' = b.
Proof.
  induction s as [|c s IH]; intros a b Heq.
  - destruct a; [|done]. rewrite append_nil in Heq. subst b.
    by exists EmptyString, EmptyString.
  - destruct a as [|x a].
    + rewrite append_nil in Heq. subst b. by exists EmptyString, (String c s).
    + rewrite append_cons in Heq. cbn [strings_ToLower] in Heq.
      inversion Heq as [[Hx Hrest]].
      destruct (IH a b Hrest) as (a' & b' & -> & Ha & Hb).
      exists (String c a'), b'. rewrite append_cons. cbn [strings_ToLower].
      by rewrite Ha, Hb.
Qed.

(** X24.  Without a line within the ten seconds [getConfirmation]
    answers no.  With a line of ASCII characters it answers yes exactly
    when the line is one letter [y] or [Y] with nothing but white space
    before and after it. *)
Theorem confirmation_needs_a_single_y (line : option string) :
  (forall text, line = Some text -> is_ascii text = true) ->
  getConfirmation line = true <->
  exists pre c post,
    line = Some (pre ++ String c post)%string /\
    (c = "y"%char \/ c = "Y"%char) /\
    all_space pre = true /\ all_space post = true.
Proof.
  intros _.
  destruct line as [text|]; [|split; [done|by intros (? & ? & ? & ? & _)]].
  unfold getConfirmation, strings_TrimSpace. rewrite String.eqb_eq, trim_right_y.
  split.
  - intros (post & Htrim & Hpost).
    destruct (trim_left_split (strings_ToLower text)) as (pre & Heq & Hpre).
    rewrite Htrim in Heq.
    destruct (ToLower_split _ _ _ Heq) as (pre' & rest & -> & Hpre' & Hrest).
    destruct rest as [|c post']; [done|].
    cbn [strings_ToLower] in Hrest. injection Hrest as Hc Hpost'.
    exists pre', c, post'. split; [done|]. split; [by apply ascii_lower_y|].
    split.
    + by rewrite <- all_space_ToLower, Hpre'.
    + by rewrite <- all_space_ToLower, Hpost'.
  - intros (pre & c & post & Heq & Hc & Hpre & Hpost). inversion Heq; subst text.
    exists (strings_ToLower post). rewrite ToLower_app.
    rewrite trim_left_spaces by (by rewrite all_space_ToLower).
    cbn [strings_ToLower trim_left]. apply ascii_lower_y in Hc. rewrite Hc.
    split; [reflexivity|]. by rewrite all_space_ToLower.
Qed.

Module ExactFacts.
Import Float64 Rounding Float64Facts ApproxFacts ScaleFacts ResizeFacts.
Local Open Scope Q_scope.

Lemma pow2_ge_1 (n : Z) : (0 <= n)%Z -> 1 <= pow2 n.
Proof.
  intros Hn. rewrite (pow2_nonneg n Hn). change 1 with (inject_Z 1).
  rewrite <- Zle_Qle. pose proof (Z.pow_pos_nonneg 2 n ltac:(lia) Hn). lia.
Qed.

Lemma pow2_le (a b : Z) : (a <= b)%Z -> pow2 a <= pow2 b.
Proof.
  intros Hab. replace b with (a + (b - a))%Z by lia. rewrite pow2_add.
  pose proof (pow2_pos a). pose proof (pow2_ge_1 (b - a) ltac:(lia)). nra.
Qed.

Lemma pow2_lt_inv (a b : Z) : pow2 a < pow2 b -> (a < b)%Z.
Proof.
  intros Hlt. destruct (Z_lt_le_dec a b) as [|Hge]; [done|].
  pose proof (pow2_le b a Hge). lra.
Qed.

Lemma round_half_even_int (y : Q) (k : Z) : y == inject_Z k -> round_half_even y = k.
Proof.
  intros Hy. unfold round_half_even.
  assert (Hf : Qfloor y = k) by (rewrite Hy; apply Qfloor_Z).
  rewrite Hf.
  assert (Hc : Qcompare (y - inject_Z k) (1 # 2) = Lt).
  { apply Qlt_alt. rewrite Hy. unfold Qminus. rewrite Qplus_opp_r. reflexivity. }
  by rewrite Hc.
Qed.

(** A positive number with a significand of at most 53 bits is a
    float. *)
Lemma round_53_exact (x : Q) (m j : Z) :
  (0 < m < 2 ^ 53)%Z -> x == inject_Z m * pow2 j -> round_53 x == x.
Proof.
  intros Hm Hx.
  assert (Hm0 : 0 < inject_Z m) by (change 0 with (inject_Z 0); rewrite <- Zlt_Qlt; lia).
  assert (Hm53 : inject_Z m < pow2 53).
  { rewrite (pow2_nonneg 53) by lia. rewrite <- Zlt_Qlt. lia. }
  pose proof (pow2_pos j) as Hj.
  assert (Hpos : 0 < x) by (rewrite Hx; nra).
  pose proof (binade_lower x Hpos) as Hb.
  assert (Hbj : (binade x - 52 <= j)%Z).
  { assert (pow2 (binade x) < pow2 (53 + j)); [|apply pow2_lt_inv in H; lia].
    assert (Hb' : pow2 (binade x) <= inject_Z m * pow2 j).
    { eapply Qle_trans; [exact Hb|]. rewrite Hx. apply Qle_refl. }
    rewrite (pow2_add 53 j). nra. }
  unfold round_53. set (e := (binade x - 52)%Z) in *.
  pose proof (pow2_pos e) as He.
  assert (Hsplit : pow2 j == pow2 e * pow2 (j - e)).
  { rewrite <- pow2_add. by replace (e + (j - e))%Z with j by lia. }
  assert (Hy : x / pow2 e == inject_Z (m * 2 ^ (j - e))).
  { rewrite inject_Z_mult, <- (pow2_nonneg (j - e)) by lia.
    rewrite Hx, Hsplit. field. lra. }
  rewrite (round_half_even_int _ _ Hy).
  rewrite inject_Z_mult, <- (pow2_nonneg (j - e)) by lia.
  rewrite Hx, Hsplit. ring.
Qed.

Lemma quot_floor (z : Q) : 0 <= z -> (Qnum z ÷ Z.pos (Qden z))%Z = Qfloor z.
Proof.
  intros Hz. destruct z as [n d]. unfold Qfloor. cbn [Qnum Qden].
  assert (Hn : (0 <= n)%Z) by (unfold Qle in Hz; cbn in Hz; lia).
  by rewrite Z.quot_div_nonneg by lia.
Qed.

Lemma Qfloor_half (n : Z) : Qfloor (inject_Z n * (1 # 2)) = (n / 2)%Z.
Proof.
  unfold Qfloor, Qmult, inject_Z. cbn [Qnum Qden]. by rewrite Z.mul_1_r.
Qed.

End ExactFacts.

(** X25.  For a total of less than [2^53] bytes the approximate size
    [main] prints is exactly half the total, rounded down: the
    conversion to [float64] and back loses nothing. *)
Theorem approxSize_is_half (platform : Float64.float64 -> Z) (totalSize : Z) :
  0 <= totalSize < 2 ^ 53 ->
  main_approxSize platform totalSize = totalSize / 2.
Proof.
  intros [H0 H53]. unfold main_approxSize.
  destruct (Z.eq_dec totalSize 0) as [->|Hne]; [reflexivity|].
  destruct (ScaleFacts.of_int_value totalSize ltac:(lia)) as [-> _].
  assert (Hr : (Float64.round_53 (inject_Z totalSize) == inject_Z totalSize)%Q).
  { apply (ExactFacts.round_53_exact _ totalSize 0); [lia|].
    change (Float64.pow2 0) with 1%Q. ring. }
  unfold Float64.mul.
  set (r := Float64.round_53 (inject_Z totalSize)) in *.
  assert (Hhalf : (r * (1 # 2) == inject_Z totalSize * Float64.pow2 (-1))%Q).
  { rewrite Hr. reflexivity. }
  assert (Hn1 : (1 <= inject_Z totalSize)%Q).
  { change 1%Q with (inject_Z 1). rewrite <- Zle_Qle. lia. }
  assert (Hn53 : (inject_Z totalSize <= inject_Z (2 ^ 53))%Q).
  { rewrite <- Zle_Qle. lia. }
  rewrite Float64Facts.round_safe.
  2:{ apply ScaleFacts.mid_of_safe. rewrite Hr. split.
      - apply Qle_trans with (1 # 2)%Q; [by vm_compute|]. lra.
      - apply Qle_trans with (inject_Z (2 ^ 53)); [lra|by vm_compute]. }
  pose proof (ExactFacts.round_53_exact _ totalSize (-1) ltac:(lia) Hhalf) as Hz.
  set (z := Float64.round_53 (r * (1 # 2))) in *.
  assert (Hzv : (z == inject_Z totalSize * (1 # 2))%Q) by (rewrite Hz, Hr; reflexivity).
  unfold float64_to_int64.
  assert (Hfl : Qfloor z = totalSize / 2).
  { rewrite Hzv. apply ExactFacts.Qfloor_half. }
  rewrite ExactFacts.quot_floor by (rewrite Hzv; lra).
  cbv zeta. rewrite !Hfl.
  assert (Hq : 0 <= totalSize / 2 <= totalSize).
  { split; [apply Z.div_pos; lia|]. apply Z.div_le_upper_bound; lia. }
  assert (Hmax : Int.max_int = 2 ^ 63 - 1) by reflexivity.
  assert (Hmin : Int.min_int = - 2 ^ 63) by reflexivity.
  destruct (Z.leb_spec Int.min_int (totalSize / 2)); [|lia].
  destruct (Z.leb_spec (totalSize / 2) Int.max_int); [|lia].
  reflexivity.
Qed.

Lemma main_launches_nil fuel numThreads :
  0 < numThreads <= Int.max_int ->
  (Z.to_nat numThreads <= fuel)%nat ->
  main_launches fuel [] numThreads = Ret [].
Proof.
  intros [Hn Hmax] Hfuel.
  rewrite main_launches_prefix by (try done; unfold len; cbn [length]; lia).
  change (len (@nil string)) with 0.
  assert (Hc : ceil_div 0 numThreads = 0).
  { unfold ceil_div. apply Z.div_small. lia. }
  rewrite Hc. reflexivity.
Qed.

Lemma main_launches_singleton fuel path numThreads :
  0 < numThreads ->
  1 + numThreads <= Int.max_int ->
  (Z.to_nat numThreads <= fuel)%nat ->
  main_launches fuel [path] numThreads = Ret [Launch 1 [path]].
Proof.
  intros Hn Hmax Hfuel.
  rewrite main_launches_prefix by (try done; unfold len; cbn [length]; lia).
  change (len [path]) with 1.
  assert (Hc : ceil_div 1 numThreads = 1).
  { unfold ceil_div. replace (1 + numThreads - 1) with numThreads by lia.
    apply Z.div_same. lia. }
  rewrite Hc. reflexivity.
Qed.

Section PlanFacts.

Import Walker.
Context {World : Type} `{!OS World} `{!Paths} `{!PathBase} `{!StatErrors World}.

(** X26.  [main] does not look at the error of
    [calculateTotalSizeAndCount]: when the walk fails, on whatever
    entry below the input path or on the input path itself, the run
    goes on with no files, and no worker is started. *)
Theorem walk_error_starts_no_worker (fuel : nat) (info : FileInfo)
    (inputPath compressedFolder : string) (w : World) (root : tree) (e : error)
    (skipConfirmation : bool) (line : option string) (numThreads : Z) :
  fi_IsDir info = true ->
  first_error compressedFolder root = Some e ->
  skipConfirmation = true \/ getConfirmation line = true ->
  0 < numThreads <= Int.max_int ->
  (Z.to_nat numThreads <= fuel)%nat ->
  main_filePaths info inputPath compressedFolder w root
  = Ret (0, 0, [], Some ("failed to walk the directory: " ++ e)%string) /\
  main_plan fuel info inputPath compressedFolder w root skipConfirmation line
    numThreads
  = Ret (Some []).
Proof.
  intros Hdir Hfirst Hyes Hn Hfuel.
  assert (Hwalk : main_filePaths info inputPath compressedFolder w root
                  = Ret (0, 0, [], Some ("failed to walk the directory: " ++ e)%string)).
  { unfold main_filePaths. rewrite Hdir.
    unfold calculateTotalSizeAndCount, filepath_Walk.
    pose proof (WalkerFacts.walk_first_error inputPath compressedFolder w root
                  (mkTally 0 0 [])) as Hw.
    rewrite Hfirst in Hw. destruct Hw as (st' & ->). reflexivity. }
  split; [exact Hwalk|]. unfold main_plan. rewrite Hwalk. cbn [mbind run_bind].
  assert (Hask : negb skipConfirmation && negb (getConfirmation line) = false).
  { destruct Hyes as [-> | ->]; [done|apply andb_false_r]. }
  rewrite Hask, main_launches_nil by done. reflexivity.
Qed.

(** X27.  When the input path is a file, one worker is started, with
    thread number 1 and this file as its share, however many threads
    were asked for. *)
Theorem single_file_gets_one_worker (fuel : nat) (info : FileInfo)
    (inputPath compressedFolder : string) (w : World) (root : tree)
    (skipConfirmation : bool) (line : option string) (numThreads : Z) :
  fi_IsDir info = false ->
  skipConfirmation = true \/ getConfirmation line = true ->
  0 < numThreads ->
  1 + numThreads <= Int.max_int ->
  (Z.to_nat numThreads <= fuel)%nat ->
  main_filePaths info inputPath compressedFolder w root
  = Ret (1, fi_Size info, [inputPath], None) /\
  main_plan fuel info inputPath compressedFolder w root skipConfirmation line
    numThreads
  = Ret (Some [Launch 1 [inputPath]]).
Proof.
  intros Hfile Hyes Hn Hmax Hfuel. unfold main_plan, main_filePaths.
  rewrite Hfile. split; [reflexivity|]. cbn [mbind run_bind].
  assert (Hask : negb skipConfirmation && negb (getConfirmation line) = false).
  { destruct Hyes as [-> | ->]; [done|apply andb_false_r]. }
  rewrite Hask, main_launches_singleton by done. reflexivity.
Qed.

(** X28.  Without [-y] and without a yes the run is cancelled once
    the files have been enumerated; no worker is started, whatever the
    number of threads, also one on which the partition would panic. *)
Theorem declined_run_starts_nothing (fuel : nat) (info : FileInfo)
    (inputPath compressedFolder : string) (w : World) (root : tree)
    (line : option string) (numThreads : Z) :
  getConfirmation line = false ->
  main_plan fuel info inputPath compressedFolder w root false line numThreads
  = Ret None.
Proof.
  intros Hno. unfold main_plan, main_filePaths.
  destruct (fi_IsDir info).
  - destruct (WalkerFacts.calculate_returns inputPath compressedFolder w root)
      as ([[[n size] paths] err] & ->).
    cbn [mbind run_bind]. by rewrite Hno.
  - cbn [mbind run_bind]. by rewrite Hno.
Qed.

End PlanFacts.

Import Toy.

(** Scenario D of the specification. *)
Example partition_10_by_4 :
  main_launches 4 ten_files 4
  = Ret [Launch 1 ["a"; "b"; "c"]; Launch 2 ["d"; "e"; "f"];
         Launch 3 ["g"; "h"; "i"]; Launch 4 ["j"]]%string.
Proof. reflexivity. Qed.

(** The rounding agrees with binary64 on 1/3, on a tie, and on the scale
    factor of a 4000 x 4000 image. *)
Example round_one_third :
  match Float64.round (1 # 3) with
  | Float64.F64 q => Qeq_bool q (6004799503160661 # 18014398509481984)
  | Float64.F64_exceptional => false
  end = true.
Proof. by vm_compute. Qed.

Example round_tie_to_even :
  match Float64.of_int (2 ^ 53 + 1), Float64.of_int (2 ^ 53 + 3) with
  | Float64.F64 a, Float64.F64 b =>
      Qeq_bool a (inject_Z (2 ^ 53)) && Qeq_bool b (inject_Z (2 ^ 53 + 4))
  | _, _ => false
  end = true.
Proof. by vm_compute. Qed.

Example scale_factor_three_quarters :
  match Float64.div (Float64.of_int 12000000) (Float64.of_int 16000000) with
  | Float64.F64 q => Qeq_bool q (3 # 4)
  | Float64.F64_exceptional => false
  end = true.
Proof. by vm_compute. Qed.

(** Scenario C of the specification. *)
Example scenario_C :
  exists s',
    compressImages 1 1 five_files "/out" "/in" "" "InkType.ttf" 12000000
      (start five_world) = Ret (s', (12, None)) /\
    bar s' = 4 /\ failedFiles s' = ["/3.jpg"]%string /\
    outcomes "/out" "/in" "" "InkType.ttf" 12000000 five_files (start five_world, 0)
    = [Success (Some 3); Success (Some 3); Failure "/3.jpg";
       Success (Some 3); Success (Some 3)].
Proof. eexists. split; [vm_compute; reflexivity|]. by vm_compute. Qed.

Example blind_scenario :
  exists s',
    compressImages (OS0 := blind_os) 1 1 five_files "/out" "/in" "" "InkType.ttf"
      12000000 (start five_world) = Ret (s', (0, None)) /\
    bar s' = 4 /\ failedFiles s' = ["/3.jpg"]%string.
Proof. eexists. split; [vm_compute; reflexivity|]. by vm_compute. Qed.

(** The third of the five files has a per-file error, and under
    [blind_os] the output of the first cannot be inspected. *)
Example third_file_fails :
  file_error (Image := Image) "/out" "/in" "" "InkType.ttf" 12000000 "/in/3.jpg"
    (start five_world).
Proof. right. eexists _, _. by vm_compute. Qed.

Example first_output_unstatable :
  output_unstatable (OS0 := blind_os) (Image := Image) "/out" "/in" "" "InkType.ttf"
    12000000 "/in/1.jpg" (start five_world).
Proof. eexists. by vm_compute. Qed.

Lemma partition_covers_items_witness :
  0 < 4 /\ len ten_files + 4 <= Int.max_int /\ (Z.to_nat 4 <= 4)%nat /\
  exists shares,
    main_launches 4 ten_files 4 = Ret shares /\
    shares = partition_spec ten_files 4 /\
    concat (files <$> shares) = ten_files /\
    forall (k : nat) (share : launch),
      shares !! k = Some share ->
      threadID share = Z.of_nat k + 1 /\
      1 <= len (files share) <= ceil_div (len ten_files) 4 /\
      ((S k < length shares)%nat -> len (files share) = ceil_div (len ten_files) 4).
Proof.
  assert (H1 : 0 < 4) by lia.
  assert (H2 : len ten_files + 4 <= Int.max_int) by (by vm_compute).
  assert (H3 : (Z.to_nat 4 <= 4)%nat) by (vm_compute; lia).
  split; [exact H1|]. split; [exact H2|]. split; [exact H3|].
  exact (partition_covers_items ten_files 4 4 H1 H2 H3).
Defined.

Lemma partition_10_by_4_unbalanced :
  ~ (exists shares,
       main_launches 4 ten_files 4 = Ret shares /\
       concat (files <$> shares) = ten_files /\
       shares_differ_by_at_most_one shares).
Proof.
  intros (shares & Hrun & _ & Hbal).
  vm_compute in Hrun. inversion Hrun; subst shares; clear Hrun.
  specialize (Hbal (Launch 1 ["a"; "b"; "c"]%string) (Launch 4 ["j"]%string)).
  assert (H : len (files (Launch 1 ["a"; "b"; "c"]%string)) - len (files (Launch 4 ["j"]%string)) <= 1).
  { apply Hbal; [left | right; right; right; left]. }
  vm_compute in H. by apply H.
Qed.

Lemma empty_share_not_launched_witness :
  0 < 4 /\ len ["a"; "b"]%string + 4 <= Int.max_int /\ (Z.to_nat 4 <= 4)%nat /\
  exists shares,
    main_launches 4 ["a"; "b"]%string 4 = Ret shares /\
    (forall i, 0 <= i < 4 ->
       (exists share, share ∈ shares /\ threadID share = i + 1) <->
       share_start (ceil_div (len ["a"; "b"]%string) 4) i
       < share_end (len ["a"; "b"]%string) (ceil_div (len ["a"; "b"]%string) 4) i) /\
    (len ["a"; "b"]%string < 4 ->
       threadID <$> shares = (fun i => i + 1) <$> seqZ 0 (len ["a"; "b"]%string)).
Proof.
  assert (H1 : 0 < 4) by lia.
  assert (H2 : len ["a"; "b"]%string + 4 <= Int.max_int) by (by vm_compute).
  assert (H3 : (Z.to_nat 4 <= 4)%nat) by (vm_compute; lia).
  split; [exact H1|]. split; [exact H2|]. split; [exact H3|].
  exact (empty_share_not_launched ["a"; "b"]%string 4 4 H1 H2 H3).
Defined.

Lemma photo_jpeg_leaves_no_outcome :
  exists s' r,
    compressImages 1 1 ["/in/photo.jpeg"]%string "/out" "/in" "" "InkType.ttf"
      12000000 (start jpeg_named_jpeg) = Ret (s', r) /\
    ~ every_item_recorded ["/in/photo.jpeg"]%string (start jpeg_named_jpeg) s'.
Proof.
  eexists _, _. split; [vm_compute; reflexivity|].
  unfold every_item_recorded. vm_compute. discriminate.
Qed.

Lemma outcomes_account_for_every_item_witness :
  2 * len five_files <= Int.max_int /\ (length five_files <= 5)%nat /\
  mu (start five_world) = false /\
  exists s' total,
    compressImages 5 1 five_files "/out" "/in" "" "InkType.ttf" 12000000
      (start five_world) = Ret (s', (total, None)) /\
    let os := outcomes "/out" "/in" "" "InkType.ttf" 12000000 five_files
                (start five_world, 0) in
    length os = length five_files /\
    failedFiles s' = failedFiles (start five_world) ++ failed_paths os /\
    len (failedFiles s') - len (failedFiles (start five_world)) = count is_failure os /\
    bar s' - bar (start five_world) = count is_success os /\
    count is_failure os + count is_success os + count is_skipped os = len five_files.
Proof.
  assert (H1 : 2 * len five_files <= Int.max_int) by (by vm_compute).
  assert (H2 : (length five_files <= 5)%nat) by (vm_compute; lia).
  assert (H3 : mu (start five_world) = false) by reflexivity.
  split; [exact H1|]. split; [exact H2|]. split; [exact H3|].
  exact (outcomes_account_for_every_item "/out" "/in" "" "InkType.ttf" 12000000
           5 1 five_files (start five_world) H1 H2 H3).
Defined.

Lemma batching_is_invisible_witness :
  0 < 2 /\ 2 * len five_files <= Int.max_int /\ (length five_files <= 5)%nat /\
  mu (start five_world) = false /\
  exists s' total,
    run_item_by_item five_files "/out" "/in" "" "InkType.ttf" 12000000
      (start five_world) = Ret (s', (total, None)) /\
    compressImages_sized 2 5 1 five_files "/out" "/in" "" "InkType.ttf" 12000000
      (start five_world) = Ret (s', (total, None)).
Proof.
  assert (H0 : 0 < 2) by lia.
  assert (H1 : 2 * len five_files <= Int.max_int) by (by vm_compute).
  assert (H2 : (length five_files <= 5)%nat) by (vm_compute; lia).
  assert (H3 : mu (start five_world) = false) by reflexivity.
  split; [exact H0|]. split; [exact H1|]. split; [exact H2|]. split; [exact H3|].
  exact (batching_is_invisible "/out" "/in" "" "InkType.ttf" 12000000
           2 5 1 five_files (start five_world) H0 H1 H2 H3).
Defined.


Lemma unstatable_output_adds_no_bytes_witness :
  2 * len five_files <= Int.max_int /\ (length five_files <= 5)%nat /\
  mu (start five_world) = false /\
  exists s' total,
    compressImages (OS0 := blind_os) 5 1 five_files "/out" "/in" "" "InkType.ttf"
      12000000 (start five_world) = Ret (s', (total, None)) /\
    total = Int.wrap (sum_bytes (outcomes (OS0 := blind_os) "/out" "/in" ""
                                   "InkType.ttf" 12000000 five_files
                                   (start five_world, 0))).
Proof.
  assert (H1 : 2 * len five_files <= Int.max_int) by (by vm_compute).
  assert (H2 : (length five_files <= 5)%nat) by (vm_compute; lia).
  assert (H3 : mu (start five_world) = false) by reflexivity.
  split; [exact H1|]. split; [exact H2|]. split; [exact H3|].
  destruct (unstatable_output_adds_no_bytes (OS0 := blind_os) "/out" "/in" ""
              "InkType.ttf" 12000000 5 1 five_files (start five_world) H1 H2 H3)
    as (s' & total & Hrun & Htotal & _).
  exists s', total. split; [exact Hrun|exact Htotal].
Defined.

Lemma transform_is_deterministic_witness :
  os_Open "/in/1.jpg" (world (start five_world)) = os_Open "/in/1.jpg" (world once) /\
  ioutil_ReadFile "InkType.ttf" (world (start five_world))
  = ioutil_ReadFile "InkType.ttf" (world once) /\
  (compressImage "/in/1.jpg" "/out/1.jpg" 12000000 "" "InkType.ttf"
     (start five_world)).2 = None /\
  (compressImage "/in/1.jpg" "/out/1.jpg" 12000000 "" "InkType.ttf" once).2 = None /\
  exists data,
    last (trace (compressImage "/in/1.jpg" "/out/1.jpg" 12000000 "" "InkType.ttf"
                   (start five_world)).1) = Some (EvWrite "/out/1.jpg" data) /\
    last (trace (compressImage "/in/1.jpg" "/out/1.jpg" 12000000 "" "InkType.ttf"
                   once).1) = Some (EvWrite "/out/1.jpg" data).
Proof.
  assert (H1 : os_Open "/in/1.jpg" (world (start five_world))
               = os_Open "/in/1.jpg" (world once)) by reflexivity.
  assert (H2 : ioutil_ReadFile "InkType.ttf" (world (start five_world))
               = ioutil_ReadFile "InkType.ttf" (world once)) by reflexivity.
  assert (H3 : (compressImage "/in/1.jpg" "/out/1.jpg" 12000000 "" "InkType.ttf"
                  (start five_world)).2 = None) by reflexivity.
  assert (H4 : (compressImage "/in/1.jpg" "/out/1.jpg" 12000000 "" "InkType.ttf"
                  once).2 = None) by reflexivity.
  split; [exact H1|]. split; [exact H2|]. split; [exact H3|]. split; [exact H4|].
  exact (transform_is_deterministic "/in/1.jpg" "/out/1.jpg" 12000000 "" "InkType.ttf"
           (start five_world) once H1 H2 H3 H4).
Defined.

Lemma no_lost_updates_witness :
  exists c,
    Aggregator.exec interleaved (Aggregator.init two_workers) = Some c /\
    Aggregator.finished c = true /\
    Aggregator.compressedTotalSize (Aggregator.mem c)
    = Int.wrap (Aggregator.sum (Aggregator.sizes (concat two_workers))) /\
    (Int.in_range (Aggregator.sum (Aggregator.sizes (concat two_workers))) ->
     Aggregator.compressedTotalSize (Aggregator.mem c)
     = Aggregator.sum (Aggregator.sizes (concat two_workers))) /\
    Aggregator.failedFiles (Aggregator.mem c) ≡ₚ Aggregator.paths (concat two_workers).
Proof.
  eexists. 
  assert (H1 : Aggregator.exec interleaved (Aggregator.init two_workers)
               = Some (Aggregator.mkConfig (Aggregator.mkShared 19 ["/3.jpg"]%string None)
                         [Aggregator.mkThread Aggregator.Idle [];
                          Aggregator.mkThread Aggregator.Idle []])) by reflexivity.
  split; [exact H1|].
  assert (H2 : Aggregator.finished
                 (Aggregator.mkConfig (Aggregator.mkShared 19 ["/3.jpg"]%string None)
                    [Aggregator.mkThread Aggregator.Idle [];
                     Aggregator.mkThread Aggregator.Idle []]) = true) by reflexivity.
  split; [exact H2|].
  exact (no_lost_updates two_workers interleaved _ H1 H2).
Defined.

Lemma four_thousand_square_not_by_sqrt :
  resized big 12000000 = mkImage 3000 3000 "" /\
  ~ downscaled_by_sqrt 4000 4000 12000000 3000 3000.
Proof.
  split; [by vm_compute|].
  unfold downscaled_by_sqrt. intros [[_ H] _]. vm_compute in H. by apply H.
Qed.

Lemma resize_scales_by_pixel_ratio_witness :
  resizer_honours_request (Image := Image) /\
  0 < bounds_Dx big /\ 0 < bounds_Dy big /\
  bounds_Dx big * bounds_Dy big <= Int.max_int /\
  0 < 12000000 <= 2 ^ 49 /\
  exists newWidth newHeight,
    resized big 12000000 = resize_Resize newWidth newHeight big /\
    newWidth * newHeight <= 12000000 /\
    0 < newWidth /\ 0 < newHeight /\
    bounds_Dx (resized big 12000000) = newWidth /\
    bounds_Dy (resized big 12000000) = newHeight /\
    bounds_Dx (resized big 12000000) * bounds_Dy (resized big 12000000) <= 12000000.
Proof.
  assert (H0 : resizer_honours_request (Image := Image)).
  { intros w h img Hw Hh. cbn.
    destruct (Z.eqb_spec w 0) as [Hz|_]; [lia|]. by cbn. }
  assert (H1 : 0 < bounds_Dx big) by (by vm_compute).
  assert (H2 : 0 < bounds_Dy big) by (by vm_compute).
  assert (H3 : bounds_Dx big * bounds_Dy big <= Int.max_int) by (by vm_compute).
  assert (H4 : 0 < 12000000 <= 2 ^ 49) by (split; by vm_compute).
  split; [exact H0|].
  split; [exact H1|]. split; [exact H2|]. split; [exact H3|]. split; [exact H4|].
  destruct (resize_scales_by_pixel_ratio big 12000000 H1 H2 H3 H4) as [_ Hbig].
  destruct (Hbig ltac:(by vm_compute))
    as (nw & nh & Heq & _ & _ & Hprod & _ & _ & Hpw & Hph & Hout).
  assert (Hw : 0 < nw) by (apply Hpw; by vm_compute).
  assert (Hh : 0 < nh) by (apply Hph; by vm_compute).
  destruct (Hout H0 Hw Hh) as (Hx & Hy & Hxy).
  exists nw, nh. by repeat split.
Defined.

(** ** More witnesses *)

Import Sample.

Ltac evaluate := first [by vm_compute | vm_compute; lia | lia].

Lemma early_failure_leaves_no_output_witness :
  (compressImage (Image := Image) "/in/3.jpg" "/out/3.jpg" 12000000 "" "InkType.ttf"
     (start five_world)).2 = Some ErrDecode /\
  is_early_error ErrDecode = true /\
  world (compressImage (Image := Image) "/in/3.jpg" "/out/3.jpg" 12000000 ""
           "InkType.ttf" (start five_world)).1 = world (start five_world) /\
  exists evs,
    trace (compressImage (Image := Image) "/in/3.jpg" "/out/3.jpg" 12000000 ""
             "InkType.ttf" (start five_world)).1 = trace (start five_world) ++ evs /\
    forallb (fun e => negb (touches_output e)) evs = true.
Proof.
  refine (conj _ (conj _
    (early_failure_leaves_no_output (Image := Image) "/in/3.jpg" "/out/3.jpg"
       12000000 "" "InkType.ttf" (start five_world) ErrDecode _ _)));
    reflexivity.
Defined.

Lemma late_failure_has_created_output_witness :
  (compressImage (Image := Image) "/in/1.jpg" "/out" 12000000 "" "InkType.ttf"
     (start out_is_dir)).2 = Some ErrCreate /\
  is_early_error ErrCreate = false /\
  exists evs,
    trace (compressImage (Image := Image) "/in/1.jpg" "/out" 12000000 ""
             "InkType.ttf" (start out_is_dir)).1 = trace (start out_is_dir) ++ evs /\
    EvCreate "/out" ∈ evs.
Proof.
  assert (H1 : (compressImage (Image := Image) "/in/1.jpg" "/out" 12000000 ""
                  "InkType.ttf" (start out_is_dir)).2 = Some ErrCreate) by reflexivity.
  assert (H2 : is_early_error ErrCreate = false) by reflexivity.
  split; [exact H1|]. split; [exact H2|].
  destruct (late_failure_has_created_output (Image := Image) "/in/1.jpg" "/out"
              12000000 "" "InkType.ttf" (start out_is_dir) ErrCreate H1 H2)
    as (evs & Ha & Hb & _).
  exists evs. by split.
Defined.

Lemma compressImage_success_effect_witness :
  succeeds (Image := Image) "/in/1.jpg" "/out/1.jpg" 12000000 "" "InkType.ttf"
    (world (start five_world)) ["j"%byte; x03; x04] /\
  let s' := (compressImage (Image := Image) "/in/1.jpg" "/out/1.jpg" 12000000 ""
               "InkType.ttf" (start five_world)).1 in
  trace s' = trace (start five_world)
             ++ success_calls "/in/1.jpg" "/out/1.jpg" "" "InkType.ttf"
                  ["j"%byte; x03; x04] /\
  world s' = (file_Write "/out/1.jpg" ["j"%byte; x03; x04]
                (os_Create "/out/1.jpg" (world (start five_world))).1).1.
Proof.
  assert (H1 : succeeds (Image := Image) "/in/1.jpg" "/out/1.jpg" 12000000 ""
                 "InkType.ttf" (world (start five_world)) ["j"%byte; x03; x04]).
  { exists ["j"%byte; x03; x04]. repeat split; reflexivity. }
  split; [exact H1|].
  exact (compressImage_success_effect (Image := Image) "/in/1.jpg" "/out/1.jpg"
           12000000 "" "InkType.ttf" (start five_world) _ H1).
Defined.

Lemma resize_never_enlarges_witness :
  0 < bounds_Dx big /\ 0 < bounds_Dy big /\
  bounds_Dx big * bounds_Dy big <= Int.max_int /\
  0 < 12000000 <= 2 ^ 49 /\
  12000000 < bounds_Dx big * bounds_Dy big /\
  exists newWidth newHeight,
    resized big 12000000 = resize_Resize newWidth newHeight big /\
    0 <= newWidth <= bounds_Dx big /\
    0 <= newHeight <= bounds_Dy big.
Proof.
  refine (conj _ (conj _ (conj _ (conj _ (conj _
    (resize_never_enlarges big 12000000 _ _ _ _ _))))));
    evaluate.
Defined.

Lemma long_side_over_budget_requests_zero_witness :
  0 < bounds_Dx tall /\ 0 < bounds_Dy tall /\
  bounds_Dx tall * bounds_Dy tall <= 2 ^ 50 /\
  0 < 50 <= 2 ^ 49 /\
  (50 < bounds_Dy tall ->
   exists newHeight, resized tall 50 = resize_Resize 0 newHeight tall) /\
  (50 < bounds_Dx tall ->
   exists newWidth, resized tall 50 = resize_Resize newWidth 0 tall).
Proof.
  refine (conj _ (conj _ (conj _ (conj _
    (long_side_over_budget_requests_zero tall 50 _ _ _ _)))));
    evaluate.
Defined.

Lemma zero_budget_requests_empty_image_witness :
  0 < bounds_Dx big /\ 0 < bounds_Dy big /\
  bounds_Dx big * bounds_Dy big <= Int.max_int /\
  resized big 0 = resize_Resize 0 0 big.
Proof.
  refine (conj _ (conj _ (conj _
    (zero_budget_requests_empty_image big _ _ _))));
    evaluate.
Defined.

Lemma worker_calls_follow_share_witness :
  2 * len five_files <= Int.max_int /\
  (length five_files <= 5)%nat /\
  mu (start five_world) = false /\
  exists s' total evss,
    compressImages (Image := Image) 5 1 five_files "/out" "/in" "" "InkType.ttf"
      12000000 (start five_world) = Ret (s', (total, None)) /\
    trace s' = trace (start five_world) ++ concat evss /\
    calls_by_item "/out" "/in" "InkType.ttf" five_files evss.
Proof.
  refine (conj _ (conj _ (conj _
    (worker_calls_follow_share (Image := Image) "/out" "/in" "" "InkType.ttf"
       12000000 5 1 five_files (start five_world) _ _ _))));
    evaluate.
Defined.

Lemma progress_stays_within_bar_witness :
  0 < 2 /\
  2 * len five_files + 2 <= Int.max_int /\
  (Z.to_nat 2 <= 2)%nat /\
  (length five_files <= 5)%nat /\
  mu (start five_world) = false /\
  bar (start five_world) = 0 /\
  exists shares barMax,
    main_launches 2 five_files 2 = Ret shares /\
    main_bars five_files 2 = Ret (replicate (Z.to_nat 2) barMax).
Proof.
  assert (H1 : 0 < 2) by lia.
  assert (H2 : 2 * len five_files + 2 <= Int.max_int) by evaluate.
  assert (H3 : (Z.to_nat 2 <= 2)%nat) by evaluate.
  assert (H4 : (length five_files <= 5)%nat) by evaluate.
  assert (H5 : mu (start five_world) = false) by reflexivity.
  assert (H6 : bar (start five_world) = 0) by reflexivity.
  do 6 (split; [assumption|]).
  destruct (progress_stays_within_bar (Image := Image) "/out" "/in" "" "InkType.ttf"
              12000000 five_files 2 2 5 (start five_world) H1 H2 H3 H4 H5 H6)
    as (shares & barMax & Ha & Hb & _).
  by exists shares, barMax.
Defined.

Lemma failed_paths_are_trimmed_items_witness :
  2 * len five_files <= Int.max_int /\
  (length five_files <= 5)%nat /\
  mu (start five_world) = false /\
  exists s' total failed,
    compressImages (Image := Image) 5 1 five_files "/out" "/in" "" "InkType.ttf"
      12000000 (start five_world) = Ret (s', (total, None)) /\
    failedFiles s' = failedFiles (start five_world) ++ failed /\
    failed `sublist_of` ((fun path => strings_TrimPrefix path "/in") <$> five_files).
Proof.
  refine (conj _ (conj _ (conj _
    (failed_paths_are_trimmed_items (Image := Image) "/out" "/in" "" "InkType.ttf"
       12000000 5 1 five_files (start five_world) _ _ _))));
    evaluate.
Defined.

Lemma single_file_relative_path_is_empty_witness :
  (1 <= 1)%nat /\
  mu (start five_world) = false /\
  exists s' total evs,
    compressImages (Image := Image) 1 1 ["/in/1.jpg"%string] "/in/compressed_files"
      "/in/1.jpg" "" "InkType.ttf" 12000000 (start five_world)
    = Ret (s', (total, None)) /\
    trace s' = trace (start five_world) ++ evs /\
    (forall e, e ∈ evs -> touches_output e = true ->
       event_path e = filepath_Join "/in/compressed_files" EmptyString) /\
    (failedFiles s' = failedFiles (start five_world) \/
     failedFiles s' = failedFiles (start five_world) ++ [EmptyString]).
Proof.
  refine (conj _ (conj _
    (single_file_relative_path_is_empty (Image := Image) "/in/compressed_files" ""
       "InkType.ttf" 12000000 1 1 "/in/1.jpg" (start five_world) _ _)));
    evaluate.
Defined.

Lemma walk_counts_selected_files_witness :
  Walker.healthy (Walker.prune "/in/compressed_files" photos) = true /\
  exists filePaths items,
    Walker.calculateTotalSizeAndCount "/in" "/in/compressed_files" five_world
      (Walker.prune "/in/compressed_files" photos)
    = Ret (Int.wrap (len filePaths), Int.wrap (Walker.sum_sizes items), filePaths, None) /\
    filePaths = items.*1.
Proof.
  assert (H1 : Walker.healthy (Walker.prune "/in/compressed_files" photos) = true)
    by reflexivity.
  split; [exact H1|].
  destruct (WalkerFacts.walk_counts_selected_files "/in" "/in/compressed_files"
              five_world (Walker.prune "/in/compressed_files" photos) H1)
    as (filePaths & items & Ha & _ & Hb & _).
  by exists filePaths, items.
Defined.

Lemma walk_error_discards_count_witness :
  Walker.first_error "/in/compressed_files" broken_below = Some "permission denied"%string /\
  Walker.calculateTotalSizeAndCount "/in" "/in/compressed_files" five_world broken_below
  = Ret (0, 0, [], Some ("failed to walk the directory: " ++ "permission denied")%string).
Proof.
  refine (conj _
    (WalkerFacts.walk_error_discards_count "/in" "/in/compressed_files" five_world
       broken_below "permission denied" _));
    reflexivity.
Defined.

Lemma compressed_file_is_not_selected_again_witness :
  filepath_Join (Paths := flat_paths)
    (filepath_Dir (Paths := flat_paths)
       (filepath_Join (Paths := flat_paths) "/out"
          (strings_TrimPrefix "/in/1.jpg" "/in/")))
    (fi_Name (mkFileInfo "1.jpg" false 3))
  = filepath_Join (Paths := flat_paths) "/out" (strings_TrimPrefix "/in/1.jpg" "/in/") /\
  compressImages_file (H := flat_paths) (Image := Image) "/out" "/in/" ""
    "InkType.ttf" 12000000 "/in/1.jpg" (start five_world, 0)
  = Ret (first_file_done.1, first_file_done.2) /\
  item_outcome (H := flat_paths) (Image := Image) "/out" "/in/" "" "InkType.ttf"
    12000000 "/in/1.jpg" (start five_world) = Success (Some 3) /\
  Walker.selected (H := flat_paths) "/in/" "/out" (world first_file_done.1)
    ("/in/1.jpg"%string, mkFileInfo "1.jpg" false 3) = false.
Proof.
  refine (conj _ (conj _ (conj _
    (compressed_file_is_not_selected_again (H := flat_paths) (Image := Image)
       "/in/" "/out" "" "InkType.ttf" 12000000 "/in/1.jpg"
       (mkFileInfo "1.jpg" false 3) (start five_world) first_file_done.1 0
       first_file_done.2 3 _ _ _))));
    reflexivity.
Defined.

Lemma selected_files_pass_the_worker_filter_witness :
  Walker.healthy (Walker.prune "/in/compressed_files" photos) = true /\
  exists totalFiles totalSize filePaths,
    Walker.calculateTotalSizeAndCount "/in" "/in/compressed_files" five_world
      (Walker.prune "/in/compressed_files" photos)
    = Ret (totalFiles, totalSize, filePaths, None).
Proof.
  assert (H1 : Walker.healthy (Walker.prune "/in/compressed_files" photos) = true)
    by reflexivity.
  split; [exact H1|].
  destruct (selected_files_pass_the_worker_filter (Image := Image) "/in"
              "/in/compressed_files" "" "InkType.ttf" 12000000 five_world
              (Walker.prune "/in/compressed_files" photos) H1)
    as (n & size & paths & Ha & _).
  by exists n, size, paths.
Defined.

Lemma one_thread_in_critical_section_witness :
  Aggregator.exec [0%nat] (Aggregator.init two_workers) = Some locked_by_first /\
  Aggregator.threads locked_by_first !! 0%nat
  = Some (Aggregator.mkThread Aggregator.Locked
            [Aggregator.RecordFailure "/3.jpg"; Aggregator.AddSize 12]) /\
  Aggregator.pos (Aggregator.mkThread Aggregator.Locked
            [Aggregator.RecordFailure "/3.jpg"; Aggregator.AddSize 12])
  <> Aggregator.Idle /\
  0%nat = 0%nat /\ Aggregator.mu (Aggregator.mem locked_by_first) = Some 0%nat.
Proof.
  assert (H1 : Aggregator.exec [0%nat] (Aggregator.init two_workers)
               = Some locked_by_first) by reflexivity.
  assert (H2 : Aggregator.threads locked_by_first !! 0%nat
               = Some (Aggregator.mkThread Aggregator.Locked
                         [Aggregator.RecordFailure "/3.jpg"; Aggregator.AddSize 12]))
    by reflexivity.
  assert (H3 : Aggregator.pos (Aggregator.mkThread Aggregator.Locked
                 [Aggregator.RecordFailure "/3.jpg"; Aggregator.AddSize 12])
               <> Aggregator.Idle) by discriminate.
  split; [exact H1|]. split; [exact H2|]. split; [exact H3|].
  exact (SchedulingFacts.one_thread_in_critical_section two_workers [0%nat]
           locked_by_first 0 0 _ _ H1 H2 H2 H3 H3).
Defined.

Lemma some_thread_can_step_witness :
  Aggregator.exec [0%nat] (Aggregator.init two_workers) = Some locked_by_first /\
  Aggregator.finished locked_by_first = false /\
  exists t c', Aggregator.step t locked_by_first = Some c'.
Proof.
  refine (conj _ (conj _
    (SchedulingFacts.some_thread_can_step two_workers [0%nat] locked_by_first _ _)));
    reflexivity.
Defined.

Lemma failedFiles_only_grows_witness :
  Aggregator.exec [0%nat] (Aggregator.init two_workers) = Some locked_by_first /\
  Aggregator.exec (tail interleaved) locked_by_first = Some all_done /\
  Aggregator.failedFiles (Aggregator.mem locked_by_first)
  `prefix_of` Aggregator.failedFiles (Aggregator.mem all_done).
Proof.
  refine (conj _ (conj _
    (SchedulingFacts.failedFiles_only_grows two_workers [0%nat] (tail interleaved)
       locked_by_first all_done _ _)));
    reflexivity.
Defined.

Lemma run_length_witness :
  Aggregator.exec interleaved (Aggregator.init two_workers) = Some all_done /\
  len interleaved <= 4 * len (concat two_workers) /\
  (Aggregator.finished all_done = true ->
   len interleaved = 4 * len (concat two_workers)).
Proof.
  refine (conj _ (SchedulingFacts.run_length two_workers interleaved all_done _));
    reflexivity.
Defined.

Lemma confirmation_needs_a_single_y_witness :
  (forall text, Some (" Y" ++ String "010" EmptyString)%string = Some text ->
     is_ascii text = true) /\
  (getConfirmation (Some (" Y" ++ String "010" EmptyString)%string) = true <->
   exists pre c post,
     Some (" Y" ++ String "010" EmptyString)%string
     = Some (pre ++ String c post)%string /\
     (c = "y"%char \/ c = "Y"%char) /\
     all_space pre = true /\ all_space post = true).
Proof.
  assert (H1 : forall text, Some (" Y" ++ String "010" EmptyString)%string = Some text ->
                 is_ascii text = true).
  { intros text Heq. injection Heq as <-. reflexivity. }
  split; [exact H1|].
  exact (confirmation_needs_a_single_y _ H1).
Defined.

Lemma walk_error_starts_no_worker_witness :
  fi_IsDir (mkFileInfo "in" true 0) = true /\
  Walker.first_error "/in/compressed_files" broken_below = Some "permission denied"%string /\
  (true = true \/ getConfirmation None = true) /\
  0 < 4 <= Int.max_int /\
  (Z.to_nat 4 <= 4)%nat /\
  main_filePaths (mkFileInfo "in" true 0) "/in" "/in/compressed_files" five_world
    broken_below
  = Ret (0, 0, [], Some ("failed to walk the directory: " ++ "permission denied")%string) /\
  main_plan 4 (mkFileInfo "in" true 0) "/in" "/in/compressed_files" five_world
    broken_below true None 4
  = Ret (Some []).
Proof.
  refine (conj _ (conj _ (conj _ (conj _ (conj _
    (walk_error_starts_no_worker 4 (mkFileInfo "in" true 0) "/in"
       "/in/compressed_files" five_world broken_below "permission denied" true None 4
       _ _ _ _ _))))));
    first [reflexivity | by left | evaluate].
Defined.

Lemma single_file_gets_one_worker_witness :
  fi_IsDir (mkFileInfo "1.jpg" false 3) = false /\
  (false = true \/ getConfirmation (Some "y"%string) = true) /\
  0 < 10 /\
  1 + 10 <= Int.max_int /\
  (Z.to_nat 10 <= 10)%nat /\
  main_filePaths (mkFileInfo "1.jpg" false 3) "/in/1.jpg" "/in/1.jpg/compressed_files"
    five_world (file "/in/1.jpg" "1.jpg" 3)
  = Ret (1, fi_Size (mkFileInfo "1.jpg" false 3), ["/in/1.jpg"%string], None) /\
  main_plan 10 (mkFileInfo "1.jpg" false 3) "/in/1.jpg" "/in/1.jpg/compressed_files"
    five_world (file "/in/1.jpg" "1.jpg" 3) false (Some "y"%string) 10
  = Ret (Some [Launch 1 ["/in/1.jpg"%string]]).
Proof.
  refine (conj _ (conj _ (conj _ (conj _ (conj _
    (single_file_gets_one_worker 10 (mkFileInfo "1.jpg" false 3) "/in/1.jpg"
       "/in/1.jpg/compressed_files" five_world (file "/in/1.jpg" "1.jpg" 3)
       false (Some "y"%string) 10 _ _ _ _ _))))));
    first [reflexivity | by right | evaluate].
Defined.

Lemma declined_run_starts_nothing_witness :
  getConfirmation None = false /\
  main_plan 0 (mkFileInfo "in" true 0) "/in" "/in/compressed_files" five_world
    photos false None 0
  = Ret None.
Proof.
  refine (conj _
    (declined_run_starts_nothing 0 (mkFileInfo "in" true 0) "/in"
       "/in/compressed_files" five_world photos None 0 _));
    reflexivity.
Defined.

Lemma nonpositive_threads_panic_witness :
  0 <= 0 /\
  main_launches 4 Toy.ten_files 0 = Panic /\
  (0 < 0 -> main_bars Toy.ten_files 0 = Panic) /\
  (0 = 0 -> main_bars Toy.ten_files 0 = Ret []).
Proof.
  assert (H : 0 <= 0) by lia.
  split; [exact H|]. exact (nonpositive_threads_panic 4 Toy.ten_files 0 H).
Defined.

Lemma share_fits_progress_bar_witness :
  0 < 4 /\ len Toy.ten_files + 4 <= Int.max_int /\ (Z.to_nat 4 <= 4)%nat /\
  exists shares barMax,
    main_launches 4 Toy.ten_files 4 = Ret shares /\
    main_bars Toy.ten_files 4 = Ret (replicate (Z.to_nat 4) barMax) /\
    barMax = len Toy.ten_files / 4 + 1.
Proof.
  assert (H1 : 0 < 4) by lia.
  assert (H2 : len Toy.ten_files + 4 <= Int.max_int) by (by vm_compute).
  assert (H3 : (Z.to_nat 4 <= 4)%nat) by (vm_compute; lia).
  split; [exact H1|]. split; [exact H2|]. split; [exact H3|].
  destruct (share_fits_progress_bar Toy.ten_files 4 4 H1 H2 H3)
    as (shares & barMax & Ha & Hb & Hc & _).
  exists shares, barMax. by repeat split.
Defined.

Lemma launched_worker_count_witness :
  0 < 4 /\ len Toy.ten_files + 4 <= Int.max_int /\ (Z.to_nat 4 <= 4)%nat /\
  exists shares,
    main_launches 4 Toy.ten_files 4 = Ret shares /\ len shares <= 4.
Proof.
  assert (H1 : 0 < 4) by lia.
  assert (H2 : len Toy.ten_files + 4 <= Int.max_int) by (by vm_compute).
  assert (H3 : (Z.to_nat 4 <= 4)%nat) by (vm_compute; lia).
  split; [exact H1|]. split; [exact H2|]. split; [exact H3|].
  destruct (launched_worker_count Toy.ten_files 4 4 H1 H2 H3) as (shares & Ha & Hb & _).
  exists shares. by split.
Defined.

Lemma approxSize_is_half_witness :
  0 <= 1001 < 2 ^ 53 /\ main_approxSize (fun _ => 0) 1001 = 1001 / 2.
Proof.
  refine (conj _ (approxSize_is_half (fun _ => 0) 1001 _)); lia.
Defined.

Lemma both_sides_over_budget_keep_image_witness :
  0 < bounds_Dx square /\ 0 < bounds_Dy square /\
  bounds_Dx square * bounds_Dy square <= 2 ^ 50 /\
  0 < 100 <= 2 ^ 49 /\
  100 < bounds_Dx square /\
  100 < bounds_Dy square /\
  resized square 100 = resize_Resize 0 0 square /\
  (resize_Resize 0 0 square = square ->
   resized square 100 = square /\
   100 < bounds_Dx (resized square 100) * bounds_Dy (resized square 100)).
Proof.
  refine (conj _ (conj _ (conj _ (conj _ (conj _ (conj _
    (both_sides_over_budget_keep_image square 100 _ _ _ _ _ _)))))));
    evaluate.
Defined.
